(** * Lee-algorithm maze search: a shallow embedding of [find_shortest_path]

    The repository holds two near-duplicate programs, [pathfinding.py] and
    [Boi_pathfinding.py].  Both define [print_path] and [find_shortest_path]
    with the same text, except for the branch of the progress report that
    draws on a pygame canvas.  The embedding below follows the Python text
    statement by statement:

    - Python integers are [Z]; a maze is a list of rows of one-character
      strings; the visited overlay is a list of rows of booleans;
    - list subscripts follow Python: an index [i] with [-len <= i < 0]
      counts from the end, anything outside [-len <= i < len] raises
      [IndexError];
    - exceptions are an error monad [PyM];
    - the [while q:] loop takes a fuel argument; [None] means the fuel ran
      out, and [search_terminates] shows that [cell_count mat + 1] units
      always suffice;
    - what the call finds outside its arguments is a [world]: the
      identity of the row objects of the maze, the module global
      [maze_already_drawn], whether the pygame display is open, and the
      events that are going to arrive.  [gui_update] is embedded with what
      it can raise; the drawing calls, [os.system] and [print] are recorded
      as events of an output log.

    The file has three parts: the program, the notions used to state and
    prove the claims, and the lemmas, which end with the claims. *)

From Stdlib Require Import ZArith Lia.
From stdpp Require Import base tactics option list strings sorting.

Local Open Scope Z_scope.

(** * The Python program *)

(** ** Exceptions and subscripts *)

(** [PygameError] stands for [pygame.error]. *)
Inductive exn := IndexError | ValueError | KeyError | ZeroDivisionError | PygameError.

Inductive PyM (A : Type) : Type :=
| Ret (a : A)
| Raise (e : exn).
Arguments Ret {A} a.
Arguments Raise {A} e.

Definition py_bind {A B} (m : PyM A) (k : A → PyM B) : PyM B :=
  match m with
  | Ret a => k a
  | Raise e => Raise e
  end.

Notation "'do' x <- m ; k" := (py_bind m (λ x, k))
  (at level 10, x pattern, m at level 100, k at level 200).

(** [a and b] with [b] evaluated only when [a] is true. *)
Definition py_and (a b : PyM bool) : PyM bool :=
  do x <- a; if x then b else Ret false.

(** The position a Python subscript [i] denotes in a sequence of length [n]. *)
Definition py_norm (n : nat) (i : Z) : option nat :=
  if bool_decide (0 ≤ i < Z.of_nat n) then Some (Z.to_nat i)
  else if bool_decide (- Z.of_nat n ≤ i < 0) then Some (Z.to_nat (i + Z.of_nat n))
  else None.

(** [l[i]] *)
Definition py_getitem {A} (l : list A) (i : Z) : PyM A :=
  match py_norm (length l) i with
  | Some j => match l !! j with Some a => Ret a | None => Raise IndexError end
  | None => Raise IndexError
  end.

(** [l[i] = v] *)
Definition py_setitem {A} (l : list A) (i : Z) (v : A) : PyM (list A) :=
  match py_norm (length l) i with
  | Some j => Ret (<[j := v]> l)
  | None => Raise IndexError
  end.

(** [m[y][x] = v] on a list of rows that are distinct objects, as those of
    [visited] are: a list comprehension builds each of them. *)
Definition py_setitem2 {A} (m : list (list A)) (y x : Z) (v : A) : PyM (list (list A)) :=
  do row <- py_getitem m y;
  do row' <- py_setitem row x v;
  py_setitem m y row'.

(** Rows [j] and [k] are one list object: [ids] gives the identity of the
    object each row of a list of rows refers to. *)
Definition same_row (ids : list nat) (j k : nat) : bool :=
  bool_decide (j = k ∨ (is_Some (ids !! j) ∧ ids !! j = ids !! k)).

(** [m[y][x] = v] on a list of rows some of which may be one object: the
    write shows in every row that is the object of row [y]. *)
Definition py_setitem2_shared {A} (ids : list nat) (m : list (list A)) (y x : Z) (v : A)
  : PyM (list (list A)) :=
  match py_norm (length m) y with
  | Some j =>
      match m !! j with
      | Some row =>
          match py_norm (length row) x with
          | Some i => Ret (imap (λ k r, if same_row ids j k then <[i := v]> r else r) m)
          | None => Raise IndexError
          end
      | None => Raise IndexError
      end
  | None => Raise IndexError
  end.

(** [len(l)] *)
Definition len {A} (l : list A) : Z := Z.of_nat (length l).

(** [a // b] *)
Definition py_floordiv (a b : Z) : PyM Z :=
  if b =? 0 then Raise ZeroDivisionError else Ret (a / b).

(** [d[k]] on a dict written as the list of its items. *)
Fixpoint py_dict_getitem {V} (d : list (string * V)) (k : string) : PyM V :=
  match d with
  | [] => Raise KeyError
  | (k', v) :: d' => if bool_decide (k' = k) then Ret v else py_dict_getitem d' k
  end.

(** ** Module-level constants and types *)

Definition START : string := "S".
Definition END : string := "E".
Definition FREE : string := ".".
Definition WALL : string := "#".

Definition Point : Type := Z * Z.
Definition Maze : Type := list (list string).
Definition GuiColor : Type := list Z.

(** [sys.maxsize] of a 64-bit CPython. *)
Definition sys_maxsize : Z := 2 ^ 63 - 1.

(** The canvas: the surface of the pygame window, as [gui_init_window]
    returns it.  The program asks it for its size and draws on it. *)
Inductive Surface := SurfaceHandle (width height : Z).

(** The queue entries [(x, y, dist, move, prev_cell)]. *)
#[warnings="-register-all"] Inductive Cell :=
| mkCell (x y dist : Z) (move : option string) (prev_cell : option Cell).

Definition cell_x (c : Cell) : Z := let '(mkCell x _ _ _ _) := c in x.
Definition cell_y (c : Cell) : Z := let '(mkCell _ y _ _ _) := c in y.
Definition cell_dist (c : Cell) : Z := let '(mkCell _ _ d _ _) := c in d.
Definition cell_move (c : Cell) : option string := let '(mkCell _ _ _ m _) := c in m.
Definition cell_prev (c : Cell) : option Cell := let '(mkCell _ _ _ _ p) := c in p.
Definition cell_point (c : Cell) : Point := (cell_x c, cell_y c).

(** The members of the set [all_paths]: pairs [(x, y)] on the console
    branch, triples [(x, y, move)] on the canvas branch of
    [Boi_pathfinding.py]. *)
Inductive tup :=
| T2 (x y : Z)
| T3 (x y : Z) (move : option string).

Global Instance tup_eq_dec : EqDecision tup.
Proof. solve_decision. Defined.

(** [s.add(a)], the set kept as a duplicate-free list in insertion order.
    Python iterates a set in an order of its own; here that order shows
    only in the order of the drawing events and of the writes of
    [print_path]. *)
Definition set_add (s : list tup) (a : tup) : list tup :=
  if decide (a ∈ s) then s else s ++ [a].

(** The two source files. *)
Inductive source_file := pathfinding_py | Boi_pathfinding_py.

(** What the program sends to the window and to the terminal.  The pixel
    coordinates of the drawing calls are computed in floating point from
    the canvas size; an event keeps the integers they are computed from:
    the cell [(x, y)], the cell size, the move and the tenths of the cell
    that a polygon fills. *)
Inductive event :=
| canvas_fill (color : GuiColor)
| draw_rect (color : GuiColor) (x y cell_w cell_h : Z)
| draw_polygon (color : GuiColor) (x y : Z) (move : option string) (size_tenths : Z)
| draw_line (color : GuiColor) (horizontal : bool) (k : Z)
| display_update
| pygame_quit
| os_system_clear
| print_line (s : string).

(** ** [gui_handle_events] (the same text in both files) *)

(** What the function looks at in an event: its type and, for a
    [MOUSEBUTTONDOWN], what [pygame.mouse.get_pressed()[0]] answers when the
    event is handled. *)
Inductive gui_event :=
| QUIT
| MOUSEBUTTONDOWN (left_pressed : bool)
| OTHER_EVENT.

Global Instance gui_event_eq_dec : EqDecision gui_event.
Proof. solve_decision. Defined.

(** The locals [run], [loop] and [wait_left_click]; [loop = False] is
    [loop = 0]. *)
Record ev_locals := EvLocals {
  run : bool;
  loop : Z;
  wait_left_click : bool;
}.

(** [for event in pygame.event.get()] over one batch of events. *)
Fixpoint for_events (events : list gui_event) (st : ev_locals) : ev_locals :=
  match events with
  | [] => st
  | QUIT :: _ => EvLocals false 0 (wait_left_click st)
  | MOUSEBUTTONDOWN left_pressed :: events' =>
      if wait_left_click st && left_pressed
      then for_events events' (EvLocals (run st) (loop st - 1) false)
      else for_events events' st
  | OTHER_EVENT :: events' => for_events events' st
  end.

(** [while True]: [batches] are the answers of the successive calls of
    [pygame.event.get()].  The result is the returned [run] and the batches
    not yet asked for; [None] when the loop goes on after the last batch. *)
Fixpoint while_events (batches : list (list gui_event)) (st : ev_locals)
  : option (bool * list (list gui_event)) :=
  match batches with
  | [] => None
  | events :: batches' =>
      let st' := for_events events st in
      if bool_decide (loop st' ≤ 0) then Some (run st', batches')
      else while_events batches' st'
  end.

Definition gui_handle_events (wait_left_click : bool) (batches : list (list gui_event))
  : option (bool * list (list gui_event)) :=
  while_events batches (EvLocals true (0 + Z.b2z wait_left_click) wait_left_click).

(** ** [gui_update] *)

(** What a call finds outside its arguments: which rows of the maze are
    one list object; the module global [maze_already_drawn] of
    [pathfinding.py]; whether the pygame display is still there, which it is
    from [gui_init_window] until [pygame.quit()]; and the answers
    [pygame.event.get()] is going to give, no event being pending once they
    are used up. *)
Record world := World {
  row_ids : list nat;
  maze_already_drawn : bool;
  display_open : bool;
  pending : list (list gui_event);
}.

Definition set_maze_already_drawn (b : bool) (w : world) : world :=
  World (row_ids w) b (display_open w) (pending w).
Definition set_display_open (b : bool) (w : world) : world :=
  World (row_ids w) (maze_already_drawn w) b (pending w).
Definition set_pending (p : list (list gui_event)) (w : world) : world :=
  World (row_ids w) (maze_already_drawn w) (display_open w) p.

Definition background_color : GuiColor := [255; 255; 255; 255].
Definition path_color : GuiColor := [50; 50; 200; 200].
Definition grid_color : GuiColor := [50; 50; 50; 128].
Definition final_path_color (file : source_file) : GuiColor :=
  match file with
  | pathfinding_py => [200; 0; 0; 240]
  | Boi_pathfinding_py => [10; 200; 10; 240]
  end.

Definition color_map : list (string * GuiColor) :=
  [(START, [128; 0; 0]); (END, [0; 255; 0]); (WALL, [20; 20; 20]); (FREE, [200; 200; 200])].

(** [for x, cell in enumerate(row): pygame.draw.rect(canvas, color_map[cell], ...)],
    from column [x] on.  Both files compute the top of the rectangle from
    [y * cell_w]. *)
Fixpoint draw_row (cell_w cell_h y x : Z) (row : list string) : PyM (list event) :=
  match row with
  | [] => Ret []
  | cell :: row' =>
      do color <- py_dict_getitem color_map cell;
      do es <- draw_row cell_w cell_h y (x + 1) row';
      Ret (draw_rect color x y cell_w cell_h :: es)
  end.

(** [for y, row in enumerate(maze)], from row [y] on. *)
Fixpoint draw_maze (cell_w cell_h y : Z) (maze : Maze) : PyM (list event) :=
  match maze with
  | [] => Ret []
  | row :: maze' =>
      do es <- draw_row cell_w cell_h y 0 row;
      do es' <- draw_maze cell_w cell_h (y + 1) maze';
      Ret (es ++ es')
  end.

(** The [path] argument: one triple [(x, y, move)] in [pathfinding.py], an
    iterable of triples in [Boi_pathfinding.py]. *)
Definition path_arg (file : source_file) : Type :=
  match file with
  | pathfinding_py => Z * Z * option string
  | Boi_pathfinding_py => list tup
  end.

(** [for x, y, move in path]: unpacking a pair into three names raises. *)
Definition unpack3 (t : tup) : PyM (Z * Z * option string) :=
  match t with
  | T3 x y move => Ret (x, y, move)
  | T2 _ _ => Raise ValueError
  end.

Fixpoint draw_all_paths (items : list tup) : PyM (list event) :=
  match items with
  | [] => Ret []
  | t :: items' =>
      do (x, y, move) <- unpack3 t;
      do es <- draw_all_paths items';
      Ret (draw_polygon path_color x y move 9 :: es)
  end.

(** The [if path:] block.  A triple is true; an empty set is not. *)
Definition draw_path (file : source_file) : option (path_arg file) → PyM (list event) :=
  match file with
  | pathfinding_py => λ path,
      match path with
      | Some (x, y, move) => Ret [draw_polygon path_color x y move 9]
      | None => Ret []
      end
  | Boi_pathfinding_py => λ path,
      match path with
      | Some ((_ :: _) as items) => draw_all_paths items
      | _ => Ret []
      end
  end.

(** The [if final_path:] block: one polygon for each point and move of
    the two lists of [final_path], zipped. *)
Definition draw_final_path (color : GuiColor)
    (final_path : option (list Point * list (option string))) : list event :=
  match final_path with
  | Some (path, moves) =>
      (λ pm : Point * option string, draw_polygon color pm.1.1 pm.1.2 pm.2 8)
        <$> zip path moves
  | None => []
  end.

(** The [if grid:] block of [Boi_pathfinding.py]: the loop over the
    columns is nested in the loop over the rows. *)
Definition draw_grid (maze_rows maze_cols : Z) : list event :=
  row ← seqZ 0 (maze_rows + 1);
  draw_line grid_color true row :: (draw_line grid_color false <$> seqZ 0 (maze_cols + 1)).

(** [return gui_handle_events()]: the call takes the next answer of
    [pygame.event.get()] and handles it; [pygame.quit()] has closed the
    display when it returns [False]. *)
Definition handle_pending_events (w : world) : bool * list event * world :=
  let events := match pending w with [] => [] | events :: _ => events end in
  let w := set_pending (tail (pending w)) w in
  match gui_handle_events false [events] with
  | Some (false, _) => (false, [pygame_quit], set_display_open false w)
  | _ => (true, [], w)
  end.

(** Returns the value of [gui_handle_events()], the events sent to the
    window and the world after the call.  Every pygame call raises
    [pygame.error] once the display is closed, and the first of them is
    [canvas.get_size()].  [pathfinding.py] draws the cells only while
    [maze_already_drawn] is false and has no [grid] parameter. *)
Definition gui_update (file : source_file) (canvas : Surface) (maze : Maze)
    (path : option (path_arg file))
    (final_path : option (list Point * list (option string))) (grid : bool) (w : world)
  : PyM (bool * list event * world) :=
  if display_open w then
    let '(SurfaceHandle gui_w gui_h) := canvas in
    let maze_rows := len maze in
    do row0 <- py_getitem maze 0;
    let maze_cols := len row0 in
    do cell_h <- py_floordiv gui_h maze_rows;
    do cell_w <- py_floordiv gui_w maze_cols;
    do (cells, w) <-
      match file with
      | pathfinding_py =>
          if maze_already_drawn w then Ret ([], w)
          else
            do es <- draw_maze cell_w cell_h 0 maze;
            Ret (canvas_fill background_color :: es, set_maze_already_drawn true w)
      | Boi_pathfinding_py =>
          do es <- draw_maze cell_w cell_h 0 maze;
          Ret (canvas_fill background_color :: es, w)
      end;
    do polygons <- draw_path file path;
    let finals := draw_final_path (final_path_color file) final_path in
    let lines :=
      match file with
      | pathfinding_py => []
      | Boi_pathfinding_py => if grid then draw_grid maze_rows maze_cols else []
      end in
    let '(run, quit, w) := handle_pending_events w in
    Ret (run, cells ++ polygons ++ finals ++ lines ++ [display_update] ++ quit, w)
  else Raise PygameError.

(** ** [print_path] (the same text in both files) *)

Definition color_on : string := String (Ascii.ascii_of_nat 27) "[0;102m".
Definition color_off : string := String (Ascii.ascii_of_nat 27) "[0m".

(** [for x, y in path]: unpacking a triple into two names raises. *)
Definition unpack2 (t : tup) : PyM (Z * Z) :=
  match t with
  | T2 x y => Ret (x, y)
  | T3 _ _ _ => Raise ValueError
  end.

(** [for x, y in path: maze[y][x] = "\033[0;102m" + maze[y][x] + "\033[0m"] *)
Fixpoint paint_color (ids : list nat) (path : list tup) (maze : Maze) : PyM Maze :=
  match path with
  | [] => Ret maze
  | t :: path' =>
      do (x, y) <- unpack2 t;
      do row <- py_getitem maze y;
      do c <- py_getitem row x;
      do maze' <- py_setitem2_shared ids maze y x (color_on +:+ c +:+ color_off);
      paint_color ids path' maze'
  end.

(** [for x, y in path[:-1]: maze[y][x] = "@"], given [path[:-1]] *)
Fixpoint paint_plain (ids : list nat) (path : list tup) (maze : Maze) : PyM Maze :=
  match path with
  | [] => Ret maze
  | t :: path' =>
      do (x, y) <- unpack2 t;
      do maze' <- py_setitem2_shared ids maze y x "@";
      paint_plain ids path' maze'
  end.

(** Returns the lines written to stdout.  [maze] is the deep copy, so the
    caller's maze is never changed; [copy.deepcopy] keeps rows that are one
    object one object, so [ids], the identities of the rows of the caller's
    maze, tells which rows of the copy are shared too. *)
Definition print_path (ids : list nat) (maze : Maze) (path : option (list tup))
    (color : bool) : PyM (list string) :=
  do maze' <-
    match path with
    | Some ((_ :: _) as path) =>
        if color then paint_color ids path maze
        else paint_plain ids (removelast path) maze
    | _ => Ret maze
    end;
  Ret (map (String.concat "") maze').

(** ** [find_shortest_path] *)

(** The locals of [find_shortest_path] that live across loop iterations,
    the output written so far and the world as the calls so far left it. *)
Record locals := Locals {
  visited : list (list bool);
  q : list Cell;
  cell : Cell;
  min_dist : Z;
  last_printed_distance : option Z;
  all_paths : list tup;
  output : list event;
  env : world;
}.

Definition set_visited (v : list (list bool)) (st : locals) : locals :=
  Locals v (q st) (cell st) (min_dist st) (last_printed_distance st) (all_paths st)
         (output st) (env st).
Definition set_q (q' : list Cell) (st : locals) : locals :=
  Locals (visited st) q' (cell st) (min_dist st) (last_printed_distance st) (all_paths st)
         (output st) (env st).
Definition set_cell (c : Cell) (st : locals) : locals :=
  Locals (visited st) (q st) c (min_dist st) (last_printed_distance st) (all_paths st)
         (output st) (env st).
Definition set_min_dist (d : Z) (st : locals) : locals :=
  Locals (visited st) (q st) (cell st) d (last_printed_distance st) (all_paths st)
         (output st) (env st).
Definition set_last_printed_distance (d : option Z) (st : locals) : locals :=
  Locals (visited st) (q st) (cell st) (min_dist st) d (all_paths st) (output st) (env st).
Definition set_all_paths (s : list tup) (st : locals) : locals :=
  Locals (visited st) (q st) (cell st) (min_dist st) (last_printed_distance st) s
         (output st) (env st).
Definition emit (es : list event) (st : locals) : locals :=
  Locals (visited st) (q st) (cell st) (min_dist st) (last_printed_distance st) (all_paths st)
         (output st ++ es) (env st).
Definition set_env (w : world) (st : locals) : locals :=
  Locals (visited st) (q st) (cell st) (min_dist st) (last_printed_distance st) (all_paths st)
         (output st) w.

(** [mat[sy][sx] == 0]: a maze cell is a [str], and a [str] never equals an
    [int] in Python. *)
Definition str_eq_int (s : string) (n : Z) : bool := false.

(** The guard of the base case,
    [not mat or len(mat) == 0 or mat[sy][sx] == 0 or mat[ey][ex] == 0]. *)
Definition invalid_input (mat : Maze) (sx sy ex ey : Z) : PyM bool :=
  if bool_decide (mat = []) then Ret true
  else if len mat =? 0 then Ret true
  else
    do row <- py_getitem mat sy;
    do c <- py_getitem row sx;
    if str_eq_int c 0 then Ret true
    else
      do row <- py_getitem mat ey;
      do c <- py_getitem row ex;
      Ret (str_eq_int c 0).

(** The nested function [is_valid(px, py)]. *)
Definition is_valid (mat : Maze) (visited : list (list bool)) (px py : Z) : PyM bool :=
  py_and (Ret (0 <=? py))
  (py_and (Ret (py <? len mat))
  (py_and (Ret (0 <=? px))
  (py_and (do row <- py_getitem mat py; Ret (px <? len row))
  (py_and (do row <- py_getitem mat py; do c <- py_getitem row px;
           Ret (negb (bool_decide (c = WALL))))
          (do row <- py_getitem visited py; do v <- py_getitem row px;
           Ret (negb v)))))).

(** The dict [possible_moves], in insertion order. *)
Definition possible_moves : list (string * Point) :=
  [("Right", (1, 0)); ("Down", (0, 1)); ("Left", (-1, 0)); ("Up", (0, -1))].

(** The [if print_progress:] block, for the dequeued [(x, y, dist, move, _)].
    The two files differ in the canvas branch only; the value [gui_update]
    returns is dropped. *)
Definition report_progress (file : source_file) (mat : Maze) (canvas : option Surface)
    (x y dist : Z) (move : option string) (st : locals) : PyM locals :=
  match canvas with
  | Some cv =>
      match file with
      | pathfinding_py =>
          do (r, w) <- gui_update pathfinding_py cv mat (Some (x, y, move)) None false
                         (env st);
          Ret (set_env w (emit r.2 st))
      | Boi_pathfinding_py =>
          let st := set_all_paths (set_add (all_paths st) (T3 x y move)) st in
          do (r, w) <- gui_update Boi_pathfinding_py cv mat (Some (all_paths st)) None false
                         (env st);
          Ret (set_env w (emit r.2 st))
      end
  | None =>
      let st := set_all_paths (set_add (all_paths st) (T2 x y)) st in
      if bool_decide (last_printed_distance st ≠ Some dist) then
        do lines <- print_path (row_ids (env st)) mat (Some (all_paths st)) true;
        Ret (set_last_printed_distance (Some dist)
               (emit (os_system_clear :: map print_line lines) st))
      else Ret st
  end.

(** One round of [for move, (dx, dy) in possible_moves.items()] from the
    dequeued cell [c]. *)
Definition try_move (mat : Maze) (c : Cell) (st : locals) (md : string * Point)
  : PyM locals :=
  let '(move, (dx, dy)) := md in
  let x := cell_x c in
  let y := cell_y c in
  let dist := cell_dist c in
  do ok <- is_valid mat (visited st) (x + dx) (y + dy);
  if ok then
    do v <- py_setitem2 (visited st) (y + dy) (x + dx) true;
    Ret (set_q (q st ++ [mkCell (x + dx) (y + dy) (dist + 1) (Some move) (Some c)])
           (set_visited v st))
  else Ret st.

Fixpoint for_moves (mat : Maze) (c : Cell) (moves : list (string * Point)) (st : locals)
  : PyM locals :=
  match moves with
  | [] => Ret st
  | md :: moves' => do st' <- try_move mat c st md; for_moves mat c moves' st'
  end.

Inductive flow := Break | Continue.

(** The body of [while q:], after [cell = q.popleft()]. *)
Definition loop_body (file : source_file) (mat : Maze) (ex ey : Z)
    (print_progress : bool) (canvas : option Surface) (st : locals) : PyM (flow * locals) :=
  let x := cell_x (cell st) in
  let y := cell_y (cell st) in
  let dist := cell_dist (cell st) in
  let move := cell_move (cell st) in
  do st <- (if print_progress then report_progress file mat canvas x y dist move st
            else Ret st);
  if (x =? ex) && (y =? ey) then Ret (Break, set_min_dist dist st)
  else
    do st <- for_moves mat (cell st) possible_moves st;
    Ret (Continue, st).

(** [while q: ...]; [None] when the fuel is used up. *)
Fixpoint while_q (file : source_file) (mat : Maze) (ex ey : Z)
    (print_progress : bool) (canvas : option Surface) (fuel : nat) (st : locals)
  : option (PyM locals) :=
  match fuel with
  | O => None
  | S fuel' =>
      match q st with
      | [] => Some (Ret st)
      | c :: q' =>
          match loop_body file mat ex ey print_progress canvas (set_cell c (set_q q' st)) with
          | Raise e => Some (Raise e)
          | Ret (Break, st') => Some (Ret st')
          | Ret (Continue, st') => while_q file mat ex ey print_progress canvas fuel' st'
          end
      end
  end.

(** The final [while True:] that walks the [prev_cell] links; [path] and
    [moves] grow at the front. *)
Fixpoint walk_back (c : Cell) (path : list Point) (moves : list (option string))
  : list Point * list (option string) :=
  match c with
  | mkCell x y _ move prev_cell =>
      match prev_cell with
      | None => (path, moves)
      | Some prev => walk_back prev ((x, y) :: path) (move :: moves)
      end
  end.

(** The returned pair: [(None, None)] or [(path, moves)]. *)
Definition result : Type := option (list Point) * option (list (option string)).

(** The statements after the loop: the [min_dist == sys.maxsize] test and
    the reconstruction from the last dequeued [cell]. *)
Definition returned (st : locals) : result :=
  if min_dist st =? sys_maxsize then (None, None)
  else
    let '(path, moves) := walk_back (cell st) [] [] in
    (Some path, Some moves).

(** The locals when the loop is entered. *)
Definition initial_locals (w : world) (v : list (list bool)) (sx sy : Z) : locals :=
  let c := mkCell sx sy 0 None None in
  Locals v [c] c sys_maxsize None [] [] w.

(** The call [find_shortest_path(mat, start_point, end_point, print_progress,
    canvas)] of [file], made in the world [w]. *)
Definition find_shortest_path (file : source_file) (fuel : nat) (w : world) (mat : Maze)
    (start_point end_point : Point) (print_progress : bool) (canvas : option Surface)
  : option (PyM result) :=
  let '(sx, sy) := start_point in
  let '(ex, ey) := end_point in
  match invalid_input mat sx sy ex ey with
  | Raise e => Some (Raise e)
  | Ret true => Some (Ret (None, None))
  | Ret false =>
      let visited := map (λ row, map (λ _ : string, false) row) mat in
      match py_setitem2 visited sy sx true with
      | Raise e => Some (Raise e)
      | Ret visited =>
          match while_q file mat ex ey print_progress canvas fuel
                  (initial_locals w visited sx sy) with
          | None => None
          | Some (Raise e) => Some (Raise e)
          | Some (Ret st) => Some (Ret (returned st))
          end
      end
  end.

(** A maze written row by row, one character per cell, as [main] reads it. *)
Definition maze_of (rows : list string) : Maze :=
  map (λ r, map (λ a, String a EmptyString) (String.list_ascii_of_string r)) rows.

(** The rows of a maze built by a list comprehension, as [main] builds
    its maze, are objects of their own. *)
Definition fresh_rows (maze : Maze) : list nat := seq 0 (length maze).

(** * Notions used to state and prove the claims *)

(** ** Pure readings of the subscripts and of one loop round *)

(** The pure reading of [m[y][x]]: [None] stands for [IndexError]. *)
Definition at2 {A} (m : list (list A)) (x y : Z) : option A :=
  match py_norm (length m) y with
  | Some j =>
      match m !! j with
      | Some row =>
          match py_norm (length row) x with
          | Some i => row !! i
          | None => None
          end
      | None => None
      end
  | None => None
  end.

(** [m[y][x]] for subscripts that are not negative. *)
Definition cell_at {A} (m : list (list A)) (x y : Z) : option A :=
  if bool_decide (0 ≤ x ∧ 0 ≤ y) then
    match m !! Z.to_nat y with
    | Some row => row !! Z.to_nat x
    | None => None
    end
  else None.

(** The row lengths of a list of rows. *)
Definition shape {A} (m : list (list A)) : list nat := length <$> m.

(** The value of [is_valid(px, py)], once the overlay has the maze's shape. *)
Definition valid_b (mat : Maze) (v : list (list bool)) (px py : Z) : bool :=
  match cell_at mat px py, cell_at v px py with
  | Some c, Some b => negb (bool_decide (c = WALL)) && negb b
  | _, _ => false
  end.

(** The overlay after [visited[y][x] = True], for [(x, y)] inside the maze. *)
Definition mark (v : list (list bool)) (x y : Z) : list (list bool) :=
  match v !! Z.to_nat y with
  | Some row => <[Z.to_nat y := <[Z.to_nat x := true]> row]> v
  | None => v
  end.

(** The cell enqueued when the move [md] from [c] is valid. *)
Definition child (c : Cell) (md : string * Point) : Cell :=
  mkCell (cell_x c + md.2.1) (cell_y c + md.2.2) (cell_dist c + 1) (Some md.1) (Some c).

(** The effect of one round of the [for] loop on [visited] and [q]. *)
Definition push (mat : Maze) (c : Cell) (md : string * Point)
    (vq : list (list bool) * list Cell) : list (list bool) * list Cell :=
  let x := cell_x c + md.2.1 in
  let y := cell_y c + md.2.2 in
  if valid_b mat vq.1 x y then (mark vq.1 x y, vq.2 ++ [child c md]) else vq.

(** The effect of the whole [for] loop. *)
Definition expand (mat : Maze) (c : Cell) (moves : list (string * Point))
    (vq : list (list bool) * list Cell) : list (list bool) * list Cell :=
  foldl (λ vq md, push mat c md vq) vq moves.

(** The locals with [visited] and [q] replaced. *)
Definition set_vq (vq : list (list bool) * list Cell) (st : locals) : locals :=
  set_q vq.2 (set_visited vq.1 st).

(** ** The termination measure *)

(** The number of [False] entries of a row. *)
Fixpoint row_free (row : list bool) : nat :=
  match row with
  | [] => 0
  | b :: row' => ((if b then 0 else 1) + row_free row')%nat
  end.

(** The number of cells not yet marked in the overlay. *)
Definition free_slots (v : list (list bool)) : nat := sum_list (row_free <$> v).

(** The number of cells of the maze. *)
Definition cell_count (mat : Maze) : nat := sum_list (length <$> mat).

(** Unmarked cells plus queued cells: one less after every round of the
    [while] loop. *)
Definition measure (vq : list (list bool) * list Cell) : nat :=
  (free_slots vq.1 + length vq.2)%nat.

(** ** The states of a run *)

(** [(x, y)] is a pair of subscripts for which [mat[y][x]] does not raise. *)
Definition in_range (mat : Maze) (x y : Z) : Prop := is_Some (at2 mat x y).

(** What [all_paths] holds: pairs inside the maze on the console branch,
    triples on the canvas branch. *)
Definition console_items (mat : Maze) (canvas : option Surface) (items : list tup) : Prop :=
  match canvas with
  | None => Forall (λ t, ∃ x y, t = T2 x y ∧ in_range mat x y) items
  | Some _ => Forall (λ t, ∃ x y move, t = T3 x y move) items
  end.

(** The [path] arguments whose triples [gui_update] can unpack. *)
Definition path_of_triples (file : source_file) : option (path_arg file) → Prop :=
  match file with
  | pathfinding_py => λ _, True
  | Boi_pathfinding_py => λ path,
      ∀ items, path = Some items → Forall (λ t, ∃ x y move, t = T3 x y move) items
  end.

(** A cell symbol that [color_map] knows. *)
Definition known_cell (c : string) : bool := bool_decide (c ∈ color_map.*1).

(** A maze all of whose cells [gui_update] can draw. *)
Definition drawable (maze : Maze) : bool := forallb (forallb known_cell) maze.

(** A batch of events without [QUIT]. *)
Definition no_quit (events : list gui_event) : bool := bool_decide (QUIT ∉ events).

(** A world in which every [gui_update(canvas, maze, ...)] to come returns:
    the display is open and no [QUIT] is going to arrive, the first row of
    the maze is not empty, and every cell can be drawn or, in
    [pathfinding.py], the cells are drawn already. *)
Definition calm (file : source_file) (maze : Maze) (w : world) : bool :=
  display_open w && forallb no_quit (pending w) &&
  match maze with
  | row :: _ => negb (bool_decide (row = []))
  | [] => false
  end &&
  (drawable maze ||
   match file with
   | pathfinding_py => maze_already_drawn w
   | Boi_pathfinding_py => false
   end).

(** The events the next call of [pygame.event.get()] answers. *)
Definition next_events (w : world) : list gui_event :=
  match pending w with
  | [] => []
  | events :: _ => events
  end.

(** Whether [gui_update] draws the cells of the maze in this world. *)
Definition draws_cells (file : source_file) (w : world) : bool :=
  match file with
  | pathfinding_py => negb (maze_already_drawn w)
  | Boi_pathfinding_py => true
  end.

(** The progress report of a call returns: there is none, or it goes to
    the console, or the world is calm. *)
Definition quiet (file : source_file) (mat : Maze) (print_progress : bool)
    (canvas : option Surface) (w : world) : Prop :=
  print_progress = true → is_Some canvas → calm file mat w = true.

(** A world without a window, in which every row of the maze is an object
    of its own: the world of the calls that report nothing, or report to the
    console. *)
Definition plain_world : world := World [] false false [].

(** The index a subscript [i] stands for in a sequence of length [n]. *)
Definition wrap (n i : Z) : Z := if i <? 0 then i + n else i.

(** The world that [gui_init_window] leaves: the window is open, nothing
    is drawn yet and no event is pending. *)
Definition open_window : world := World [] false true [].

(** [m[y][x]] reads [c], a negative subscript counting from the end of the
    column or of the row. *)
Definition reads {A} (m : list (list A)) (x y : Z) (c : A) : Prop :=
  ∃ row, 0 ≤ wrap (len m) y ∧ m !! Z.to_nat (wrap (len m) y) = Some row ∧
         0 ≤ wrap (len row) x ∧ row !! Z.to_nat (wrap (len row) x) = Some c.

(** The test [x == ex and y == ey]. *)
Definition at_destination (ex ey : Z) (c : Cell) : bool :=
  (cell_x c =? ex) && (cell_y c =? ey).


(** ** Paths through the maze *)

(** A cell inside the maze that is not a wall. *)
Definition free (mat : Maze) (p : Point) : Prop :=
  ∃ c, cell_at mat p.1 p.2 = Some c ∧ c ≠ WALL.

(** Neighbours in the 4-neighbour grid graph. *)
Definition adjacent (p p' : Point) : Prop :=
  Z.abs (p'.1 - p.1) + Z.abs (p'.2 - p.2) = 1.

(** [hops mat s n p]: a path of [n] moves from [s] to [p], every cell of
    which, [s] included, is inside the maze and not a wall. *)
Inductive hops (mat : Maze) (s : Point) : nat → Point → Prop :=
| hops_O : free mat s → hops mat s 0 s
| hops_S n p p' : hops mat s n p → adjacent p p' → free mat p' → hops mat s (S n) p'.

(** The cell reached from [p] by the dict entry [md]. *)
Definition step (p : Point) (md : string * Point) : Point :=
  (p.1 + md.2.1, p.2 + md.2.2).

(** [route mat s mds p]: the entries [mds] of [possible_moves], taken in
    order from [s], lead to [p], and every cell entered is free. *)
Inductive route (mat : Maze) (s : Point) : list (string * Point) → Point → Prop :=
| route_nil : route mat s [] s
| route_snoc mds p md :
    route mat s mds p → md ∈ possible_moves → free mat (step p md) →
    route mat s (mds ++ [md]) (step p md).

(** The position of a move name in the iteration order of [possible_moves]. *)
Fixpoint index_of (m : string) (l : list (string * Point)) : nat :=
  match l with
  | [] => 0
  | (k, _) :: l' => if decide (k = m) then 0 else S (index_of m l')
  end.

(** The rank of a stored move; [None], the move of the source cell, comes
    last. *)
Definition rank (m : option string) : nat :=
  match m with
  | Some k => index_of k possible_moves
  | None => length possible_moves
  end.

(** The name of a dict entry, as it is stored in a queue cell. *)
Definition name_of (md : string * Point) : option string := Some md.1.

(** Lexicographic order on rank sequences of equal length. *)
Inductive lex_lt : list nat → list nat → Prop :=
| lex_lt_head x y a b : (x < y)%nat → lex_lt (x :: a) (y :: b)
| lex_lt_tail x a b : lex_lt a b → lex_lt (x :: a) (x :: b).

(** The same order on sequences written last move first. *)
Inductive rlt : list nat → list nat → Prop :=
| rlt_head x y a : (x < y)%nat → rlt (x :: a) (y :: a)
| rlt_tail x y a b : rlt a b → rlt (x :: a) (y :: b).

(** Shorter first, then lexicographic. *)
Definition slex (a b : list nat) : Prop := (length a < length b)%nat ∨ rlt a b.

(** The same, or equal. *)
Definition sle (a b : list nat) : Prop := a = b ∨ slex a b.

(** ** Queue cells and their links *)

(** The cells and moves met when walking the [prev_cell] links from [c]
    down to the source cell, which is left out. *)
Fixpoint trail (c : Cell) : list (Point * option string) :=
  match c with
  | mkCell x y _ move prev_cell =>
      match prev_cell with
      | None => []
      | Some prev => ((x, y), move) :: trail prev
      end
  end.

(** The ranks of the moves leading to [c], last move first. *)
Definition rkey (c : Cell) : list nat := rank <$> (trail c).*2.

(** The queue cell of the source, [(sx, sy, 0, None, None)]. *)
Definition root_cell (sx sy : Z) : Cell := mkCell sx sy 0 None None.

(** The cells the search can build: the source cell, and the children
    obtained by a move into a free cell. *)
Inductive wf_cell (mat : Maze) (sx sy : Z) : Cell → Prop :=
| wf_root : wf_cell mat sx sy (root_cell sx sy)
| wf_child p md :
    wf_cell mat sx sy p → md ∈ possible_moves → free mat (cell_point (child p md)) →
    wf_cell mat sx sy (child p md).

(** ** The search as a function of the maze and the end points *)

(** The overlay with which the loop starts: every cell [False], except the
    one the subscripts [sy], [sx] denote. *)
Definition initial_visited (mat : Maze) (sx sy : Z) : PyM (list (list bool)) :=
  py_setitem2 (map (λ row, map (λ _ : string, false) row) mat) sy sx true.

(** What every run keeps true: the overlay has the maze's shape and the
    queue holds well-formed cells. *)
Definition gen_inv (mat : Maze) (sx sy : Z) (v : list (list bool)) (q : list Cell) : Prop :=
  shape v = shape mat ∧ Forall (wf_cell mat sx sy) q.

(** The loop on [visited] and [q] alone: [None] when the fuel is used up,
    [Some None] when the queue runs empty, [Some (Some c)] at a [break]. *)
Fixpoint search (mat : Maze) (ex ey : Z) (fuel : nat)
    (vq : list (list bool) * list Cell) : option (option Cell) :=
  match fuel with
  | O => None
  | S fuel' =>
      match vq.2 with
      | [] => Some None
      | c :: q' =>
          if at_destination ex ey c then Some (Some c)
          else search mat ex ey fuel' (expand mat c possible_moves (vq.1, q'))
      end
  end.

(** What the caller gets for an outcome of [search]. *)
Definition outcome (o : option (option Cell)) : option (PyM result) :=
  match o with
  | None => None
  | Some None => Some (Ret (None, None))
  | Some (Some c) =>
      Some (Ret (if cell_dist c =? sys_maxsize then (None, None)
                 else (Some (reverse (trail c).*1), Some (reverse (trail c).*2))))
  end.

(** The cells entered along a route. *)
Fixpoint points_along (p : Point) (mds : list (string * Point)) : list Point :=
  match mds with
  | [] => []
  | md :: mds' => step p md :: points_along (step p md) mds'
  end.

(** ** Breadth-first order *)

(** [p] is a cell of the maze: both coordinates within bounds, none negative. *)
Definition in_maze (mat : Maze) (p : Point) : Prop := is_Some (cell_at mat p.1 p.2).

(** The ranks of a route, last move first, as [rkey] has them. *)
Definition route_key (mds : list (string * Point)) : list nat :=
  reverse (rank <$> (name_of <$> mds)).

(** The invariant of the search from a source inside the maze.  [E] lists
    the cells dequeued so far in dequeue order, so [E ++ q] lists every cell
    ever enqueued; [pm] holds the moves already tried from the last cell of
    [E]. *)
Record bfs_inv (mat : Maze) (sx sy ex ey : Z) (pm : list (string * Point))
    (E : list Cell) (v : list (list bool)) (q : list Cell) : Prop := {
  bi_shape : shape v = shape mat;
  bi_wf : Forall (wf_cell mat sx sy) (E ++ q);
  bi_sorted : StronglySorted (λ a b, slex (rkey a) (rkey b)) (E ++ q);
  bi_nodup : NoDup (cell_point <$> (E ++ q));
  bi_visited : ∀ x y, cell_at v x y = Some true ↔ (x, y) ∈ cell_point <$> (E ++ q);
  bi_count : (free_slots v + length (E ++ q) = cell_count mat)%nat;
  bi_parent : ∀ n, n ∈ q →
    n = root_cell sx sy ∨
    ∃ p md, n = child p md ∧ p ∈ E ∧ (last E = Some p → md ∈ pm);
  bi_nbr : ∀ u md, u ∈ E → md ∈ possible_moves → (last E = Some u → md ∈ pm) →
    free mat (step (cell_point u) md) →
    ∃ n, n ∈ E ++ q ∧ cell_point n = step (cell_point u) md ∧
         sle (rkey n) (rkey (child u md));
  bi_notdest : ∀ u, u ∈ E → at_destination ex ey u = false;
  bi_dist : ∀ n, n ∈ E ++ q → cell_dist n ≤ Z.of_nat (length E);
  bi_last : ∀ u, last E = Some u → cell_dist u < Z.of_nat (length E);
  bi_root : root_cell sx sy ∈ E ++ q;
}.

(** The invariant seen at the top of the loop. *)
Definition bfs_head (mat : Maze) (sx sy ex ey : Z) (v : list (list bool)) (q : list Cell)
  : Prop :=
  ∃ E, bfs_inv mat sx sy ex ey possible_moves E v q.

(** * The rest of the two files *)

(** ** Routes read from the source onward *)

(** [walk mat p mds p']: the same as [route], built from the first move. *)
Inductive walk (mat : Maze) : Point → list (string * Point) → Point → Prop :=
| walk_nil p : walk mat p [] p
| walk_cons p md mds p' :
    md ∈ possible_moves → free mat (step p md) → walk mat (step p md) mds p' →
    walk mat p (md :: mds) p'.

(** ** Cells of a list of rows *)

(** The rows after [m[y][x] = a], for [(x, y)] inside [m]. *)
Definition put {A} (m : list (list A)) (x y : Z) (a : A) : list (list A) :=
  match m !! Z.to_nat y with
  | Some row => <[Z.to_nat y := <[Z.to_nat x := a]> row]> m
  | None => m
  end.

(** A pair [(x, y)] of the set or list handed to [print_path]. *)
Definition is_pair (t : tup) : Prop := ∃ x y, t = T2 x y.

(** A pair that names a cell of [maze]. *)
Definition pair_in_maze (maze : Maze) (t : tup) : Prop :=
  ∃ x y, t = T2 x y ∧ in_maze maze (x, y).

(** A pair for which [maze[y][x]] does not raise. *)
Definition pair_in_range (maze : Maze) (t : tup) : Prop :=
  ∃ x y, t = T2 x y ∧ in_range maze x y.

(** The pair that [print_path] unpacks from a point of a returned path. *)
Definition pair_of (p : Point) : tup := T2 p.1 p.2.

(** ** [main]: from the text of the file to the end points *)

(** The text of the file is a [string] whose characters stand for code
    points below U+0100.  [c.isspace()] holds there for the tab up to the
    carriage return, the separators U+001C to U+001F, the space, U+0085 and
    U+00A0. *)
Definition py_isspace (c : Ascii.ascii) : bool :=
  let n := Ascii.nat_of_ascii c in
  ((9 <=? n) && (n <=? 13) || (28 <=? n) && (n <=? 32) || (n =? 133) || (n =? 160))%nat.

(** [s.lstrip()] *)
Fixpoint py_lstrip (s : string) : string :=
  match s with
  | EmptyString => EmptyString
  | String c s' => if py_isspace c then py_lstrip s' else s
  end.

(** [s.rstrip()] *)
Fixpoint py_rstrip (s : string) : string :=
  match s with
  | EmptyString => EmptyString
  | String c s' =>
      match py_rstrip s' with
      | EmptyString => if py_isspace c then EmptyString else String c EmptyString
      | r => String c r
      end
  end.

(** [s.strip()] *)
Definition py_strip (s : string) : string := py_rstrip (py_lstrip s).

(** [s.split(sep)] for a separator of one character: every occurrence
    cuts, so two separators in a row give an empty piece, and a string
    without separator, the empty one included, gives itself. *)
Fixpoint py_split (sep : Ascii.ascii) (s : string) : list string :=
  match s with
  | EmptyString => [EmptyString]
  | String c s' =>
      if Ascii.eqb c sep then EmptyString :: py_split sep s'
      else match py_split sep s' with
           | w :: ws => String c w :: ws
           | [] => [String c EmptyString]
           end
  end.

(** The separator of the rows in the file: the space, U+0020. *)
Definition row_separator : Ascii.ascii := Ascii.ascii_of_nat 32.

(** [content = file.read().strip()] and
    [maze = [[c for c in row] for row in content.split(" ")]] *)
Definition maze_of_text (text : string) : Maze :=
  let content := py_strip text in
  maze_of (py_split row_separator content).

(** [for x, cell in enumerate(line)] of [main], from column [x] on; the
    state is [(start_point, end_point)]. *)
Fixpoint scan_line (y x : Z) (line : list string) (st : option Point * option Point)
  : option Point * option Point :=
  match line with
  | [] => st
  | cell :: line' =>
      scan_line y (x + 1) line'
        (if bool_decide (cell = START) then (Some (x, y), st.2)
         else if bool_decide (cell = END) then (st.1, Some (x, y))
         else st)
  end.

(** [for y, line in enumerate(maze)] of [main], from row [y] on. *)
Fixpoint scan_maze (y : Z) (maze : Maze) (st : option Point * option Point)
  : option Point * option Point :=
  match maze with
  | [] => st
  | line :: maze' => scan_maze (y + 1) maze' (scan_line y 0 line st)
  end.

(** [start_point] and [end_point] after the two loops. *)
Definition find_points (maze : Maze) : option Point * option Point :=
  scan_maze 0 maze (None, None).

(** [o] names the last cell of [maze] in reading order that holds [sym],
    or is [None] when no cell does. *)
Definition last_cell_with (maze : Maze) (sym : string) (o : option Point) : Prop :=
  match o with
  | Some p =>
      cell_at maze p.1 p.2 = Some sym ∧
      ∀ x y, cell_at maze x y = Some sym → y < p.2 ∨ (y = p.2 ∧ x ≤ p.1)
  | None => ∀ x y, cell_at maze x y ≠ Some sym
  end.

(** [(x', y')] is read before the scan comes to [(x, y)]. *)
Definition before (x y x' y' : Z) : Prop := y' < y ∨ (y' = y ∧ x' < x).

(** [last_cell_with] among the cells read before [(x, y)]. *)
Definition last_cell_before (maze : Maze) (sym : string) (x y : Z) (o : option Point)
  : Prop :=
  match o with
  | Some p =>
      cell_at maze p.1 p.2 = Some sym ∧
      ∀ x' y', before x y x' y' → cell_at maze x' y' = Some sym →
               y' < p.2 ∨ (y' = p.2 ∧ x' ≤ p.1)
  | None => ∀ x' y', before x y x' y' → cell_at maze x' y' ≠ Some sym
  end.

(** ** The events [gui_handle_events] waits for *)

(** A batch that ends the wait for a left click. *)
Definition ends_wait (events : list gui_event) : Prop :=
  QUIT ∈ events ∨ MOUSEBUTTONDOWN true ∈ events.

(** * Lemmas *)

(** ** Subscripts *)

Lemma py_norm_lt n i j : py_norm n i = Some j → (j < n)%nat.
Proof.
  unfold py_norm. repeat case_bool_decide; intros; simplify_eq; lia.
Qed.

Lemma py_norm_nonneg n i : 0 ≤ i → py_norm n i = Some (Z.to_nat i) ↔ i < Z.of_nat n.
Proof.
  unfold py_norm. repeat case_bool_decide; split; intros; simplify_eq; try lia; done.
Qed.

Lemma py_norm_nonneg_Some n i j : 0 ≤ i → py_norm n i = Some j → j = Z.to_nat i ∧ i < Z.of_nat n.
Proof.
  unfold py_norm. repeat case_bool_decide; intros; simplify_eq; lia.
Qed.

Lemma py_norm_None n i : py_norm n i = None ↔ ¬ (- Z.of_nat n ≤ i < Z.of_nat n).
Proof.
  unfold py_norm. repeat case_bool_decide; split; intros; simplify_eq; try lia; done.
Qed.

Lemma py_getitem_Ret {A} (l : list A) i a :
  py_getitem l i = Ret a ↔ ∃ j, py_norm (length l) i = Some j ∧ l !! j = Some a.
Proof.
  unfold py_getitem. destruct (py_norm (length l) i) as [j|] eqn:Hn.
  - destruct (l !! j) eqn:Hl; split; intros; simplify_eq; eauto;
      destruct H as (? & ? & ?); simplify_eq; done.
  - split; [done | intros (? & ? & ?); done].
Qed.

Lemma getitem2_at2 {A B} (m : list (list A)) x y (k : A → PyM B) :
  (do row <- py_getitem m y; do c <- py_getitem row x; k c)
  = match at2 m x y with Some c => k c | None => Raise IndexError end.
Proof.
  unfold at2, py_getitem, py_bind.
  destruct (py_norm (length m) y) as [j|] eqn:Hy; [|done].
  pose proof (py_norm_lt _ _ _ Hy) as Hj.
  destruct (lookup_lt_is_Some_2 m j Hj) as [row ->].
  destruct (py_norm (length row) x) as [i|] eqn:Hx; [|done].
  pose proof (py_norm_lt _ _ _ Hx) as Hi.
  destruct (lookup_lt_is_Some_2 row i Hi) as [a ->]. done.
Qed.

Lemma at2_Some {A} (m : list (list A)) x y a :
  at2 m x y = Some a ↔
  ∃ j row i, py_norm (length m) y = Some j ∧ m !! j = Some row ∧
             py_norm (length row) x = Some i ∧ row !! i = Some a.
Proof.
  unfold at2. split.
  - destruct (py_norm (length m) y) as [j|] eqn:Hj; [|done].
    destruct (m !! j) as [row|] eqn:Hr; [|done].
    destruct (py_norm (length row) x) as [i|] eqn:Hi; [|done]. eauto 10.
  - intros (j & row & i & -> & -> & -> & ->). done.
Qed.

Lemma at2_nonneg {A} (m : list (list A)) x y :
  0 ≤ x → 0 ≤ y → at2 m x y = cell_at m x y.
Proof.
  intros Hx Hy. unfold at2, cell_at. rewrite bool_decide_eq_true_2 by done.
  destruct (py_norm (length m) y) as [j|] eqn:Hj.
  - apply py_norm_nonneg_Some in Hj as [-> ?]; [|done].
    destruct (m !! Z.to_nat y) as [row|]; [|done].
    destruct (py_norm (length row) x) as [i|] eqn:Hi.
    + apply py_norm_nonneg_Some in Hi as [-> ?]; done.
    + apply py_norm_None in Hi. symmetry. apply lookup_ge_None. lia.
  - apply py_norm_None in Hj. rewrite (proj2 (lookup_ge_None m (Z.to_nat y))); [done|lia].
Qed.

Lemma cell_at_Some {A} (m : list (list A)) x y a :
  cell_at m x y = Some a ↔
  0 ≤ x ∧ 0 ≤ y ∧ ∃ row, m !! Z.to_nat y = Some row ∧ row !! Z.to_nat x = Some a.
Proof.
  unfold cell_at. case_bool_decide as Hnn.
  - destruct Hnn as [Hx Hy]. destruct (m !! Z.to_nat y) as [row|]; split.
    + intros Ha. eauto.
    + intros (_ & _ & row' & Hr & Ha). by injection Hr as <-.
    + done.
    + intros (_ & _ & row' & Hr & _). done.
  - split; [done|]. intros (Hx & Hy & _). by destruct Hnn.
Qed.

Lemma cell_at_at2 {A} (m : list (list A)) x y a :
  cell_at m x y = Some a → at2 m x y = Some a.
Proof.
  intros H. pose proof H as (? & ? & _)%cell_at_Some. by rewrite at2_nonneg.
Qed.

Lemma shape_lookup {A B} (m : list (list A)) (m' : list (list B)) j row :
  shape m = shape m' → m !! j = Some row →
  ∃ row', m' !! j = Some row' ∧ length row' = length row.
Proof.
  unfold shape. intros Hs Hr.
  assert ((length <$> m') !! j = Some (length row)) as Hl.
  { rewrite <- Hs, list_lookup_fmap, Hr. done. }
  rewrite list_lookup_fmap in Hl. destruct (m' !! j) as [row'|]; simplify_eq/=. eauto.
Qed.

Lemma shape_length {A B} (m : list (list A)) (m' : list (list B)) :
  shape m = shape m' → length m = length m'.
Proof. unfold shape. intros H. apply (f_equal length) in H. by rewrite !length_fmap in H. Qed.

Lemma at2_shape {A B} (m : list (list A)) (m' : list (list B)) x y :
  shape m = shape m' → is_Some (at2 m x y) → is_Some (at2 m' x y).
Proof.
  intros Hs [a (j & row & i & Hj & Hr & Hi & Ha)%at2_Some].
  destruct (shape_lookup _ _ _ _ Hs Hr) as (row' & Hr' & Hlen).
  unfold at2. rewrite <- (shape_length _ _ Hs), Hj, Hr', Hlen, Hi.
  apply lookup_lt_is_Some_2. rewrite Hlen. by eapply py_norm_lt.
Qed.

Lemma cell_at_shape {A B} (m : list (list A)) (m' : list (list B)) x y :
  shape m = shape m' → is_Some (cell_at m x y) → is_Some (cell_at m' x y).
Proof.
  intros Hs [a (Hx & Hy & row & Hr & Ha)%cell_at_Some].
  destruct (shape_lookup _ _ _ _ Hs Hr) as (row' & Hr' & Hlen).
  apply lookup_lt_Some in Ha. rewrite <- Hlen in Ha.
  destruct (lookup_lt_is_Some_2 row' _ Ha) as [b Hb].
  exists b. apply cell_at_Some. eauto.
Qed.

(** The overlay after [visited[y][x] = v] at resolved positions [j], [i]. *)
Lemma py_setitem2_Ret {A} (m m' : list (list A)) y x v :
  py_setitem2 m y x v = Ret m' ↔
  ∃ j row i, py_norm (length m) y = Some j ∧ m !! j = Some row ∧
             py_norm (length row) x = Some i ∧ m' = <[j := <[i := v]> row]> m.
Proof.
  unfold py_setitem2, py_getitem, py_setitem, py_bind. split.
  - destruct (py_norm (length m) y) as [j|] eqn:Hy; [|done].
    destruct (m !! j) as [row|] eqn:Hr; [|done].
    destruct (py_norm (length row) x) as [i|] eqn:Hx; [|done].
    intros; simplify_eq. eauto 10.
  - intros (j & row & i & -> & -> & -> & ->). done.
Qed.

Lemma py_setitem2_at2 {A} (m : list (list A)) y x v :
  is_Some (at2 m x y) → ∃ m', py_setitem2 m y x v = Ret m'.
Proof.
  intros [a (j & row & i & Hj & Hr & Hi & Ha)%at2_Some].
  eexists. apply py_setitem2_Ret. eauto 10.
Qed.

Lemma shape_insert2 {A} (m : list (list A)) j i row v :
  m !! j = Some row → shape (<[j := <[i := v]> row]> m) = shape m.
Proof.
  intros Hr. unfold shape. rewrite list_fmap_insert, length_insert.
  apply list_insert_id. by rewrite list_lookup_fmap, Hr.
Qed.

(** ** What one loop round computes *)

Lemma is_valid_spec mat v px py :
  shape v = shape mat → is_valid mat v px py = Ret (valid_b mat v px py).
Proof.
  intros Hs. unfold is_valid, py_and, valid_b. cbn [py_bind].
  destruct (cell_at mat px py) as [c|] eqn:Hc.
  - pose proof Hc as (Hx & Hy & row & Hrow & Hcell)%cell_at_Some.
    pose proof (lookup_lt_Some _ _ _ Hrow) as Hylt.
    pose proof (lookup_lt_Some _ _ _ Hcell) as Hxlt.
    rewrite (proj2 (Z.leb_le 0 py)), (proj2 (Z.ltb_lt py (len mat))),
      (proj2 (Z.leb_le 0 px)) by (unfold len; lia).
    assert (py_getitem mat py = Ret row) as ->.
    { apply py_getitem_Ret. exists (Z.to_nat py). split; [|done].
      apply py_norm_nonneg; lia. }
    cbn [py_bind]. rewrite (proj2 (Z.ltb_lt px (len row))) by (unfold len; lia).
    assert (py_getitem row px = Ret c) as ->.
    { apply py_getitem_Ret. exists (Z.to_nat px). split; [|done].
      apply py_norm_nonneg; lia. }
    cbn [py_bind]. case_bool_decide; [by destruct (cell_at v px py)|]. cbn [negb].
    destruct (cell_at_shape mat v px py (eq_sym Hs) (mk_is_Some _ _ Hc)) as [b Hb].
    rewrite getitem2_at2, (cell_at_at2 _ _ _ _ Hb), Hb. done.
  - destruct (0 <=? py) eqn:H1; [|done].
    destruct (py <? len mat) eqn:H2; [|done].
    destruct (0 <=? px) eqn:H3; [|done].
    apply Z.leb_le in H1, H3. apply Z.ltb_lt in H2. unfold len in H2.
    destruct (lookup_lt_is_Some_2 mat (Z.to_nat py)) as [row Hrow]; [lia|].
    assert (py_getitem mat py = Ret row) as ->.
    { apply py_getitem_Ret. exists (Z.to_nat py). split; [|done].
      apply py_norm_nonneg; lia. }
    cbn [py_bind]. destruct (px <? len row) eqn:H4; [|done].
    apply Z.ltb_lt in H4. unfold len in H4.
    destruct (lookup_lt_is_Some_2 row (Z.to_nat px)) as [c Hcell]; [lia|].
    assert (cell_at mat px py = Some c) by (apply cell_at_Some; eauto).
    congruence.
Qed.

Lemma mark_spec (v : list (list bool)) x y b :
  cell_at v x y = Some b → py_setitem2 v y x true = Ret (mark v x y).
Proof.
  intros (Hx & Hy & row & Hrow & Hcell)%cell_at_Some.
  apply py_setitem2_Ret. exists (Z.to_nat y), row, (Z.to_nat x).
  unfold mark. rewrite Hrow. split_and!; try done.
  - apply py_norm_nonneg; [done|]. apply lookup_lt_Some in Hrow. lia.
  - apply py_norm_nonneg; [done|]. apply lookup_lt_Some in Hcell. lia.
Qed.

Lemma mark_shape (v : list (list bool)) x y : shape (mark v x y) = shape v.
Proof.
  unfold mark. destruct (v !! Z.to_nat y) as [row|] eqn:Hrow; [|done].
  by apply shape_insert2.
Qed.

Lemma cell_at_mark (v : list (list bool)) x y x' y' :
  is_Some (cell_at v x y) →
  cell_at (mark v x y) x' y' =
  if bool_decide (x' = x ∧ y' = y) then Some true else cell_at v x' y'.
Proof.
  intros [b (Hx & Hy & row & Hrow & Hcell)%cell_at_Some].
  unfold mark. rewrite Hrow. unfold cell_at at 1.
  case_bool_decide as Hnn.
  - destruct Hnn as [Hx' Hy'].
    destruct (decide (y' = y)) as [->|Hne].
    + rewrite list_lookup_insert_eq by (by eapply lookup_lt_Some).
      destruct (decide (x' = x)) as [->|Hnx].
      * rewrite list_lookup_insert_eq by (by eapply lookup_lt_Some).
        by rewrite bool_decide_eq_true_2.
      * rewrite list_lookup_insert_ne by lia.
        rewrite bool_decide_eq_false_2 by tauto.
        unfold cell_at. rewrite bool_decide_eq_true_2 by done. by rewrite Hrow.
    + rewrite list_lookup_insert_ne by lia.
      rewrite bool_decide_eq_false_2 by tauto.
      unfold cell_at. by rewrite bool_decide_eq_true_2 by done.
  - rewrite bool_decide_eq_false_2 by lia.
    unfold cell_at. by rewrite bool_decide_eq_false_2.
Qed.

Lemma valid_b_true mat v px py :
  valid_b mat v px py = true ↔
  (∃ c, cell_at mat px py = Some c ∧ c ≠ WALL) ∧ cell_at v px py = Some false.
Proof.
  unfold valid_b. destruct (cell_at mat px py) as [c|], (cell_at v px py) as [[]|];
    (split; [|intros [(c' & ? & ?) ?]; simplify_eq]); try done.
  - rewrite andb_false_r. done.
  - case_bool_decide; [done|]. eauto.
  - by rewrite bool_decide_eq_false_2.
Qed.

Lemma try_move_spec mat c st md :
  shape (visited st) = shape mat →
  try_move mat c st md = Ret (set_vq (push mat c md (visited st, q st)) st).
Proof.
  intros Hs. destruct md as [move [dx dy]]. unfold try_move, push. cbn [fst snd].
  rewrite is_valid_spec by done. cbn [py_bind].
  destruct (valid_b mat (visited st) (cell_x c + dx) (cell_y c + dy)) eqn:Hv.
  - apply valid_b_true in Hv as [_ Hv]. rewrite (mark_spec _ _ _ _ Hv). done.
  - by destruct st.
Qed.

Lemma push_shape mat c md vq : shape (push mat c md vq).1 = shape vq.1.
Proof.
  unfold push. case_match; [|done]. cbn. apply mark_shape.
Qed.

Lemma expand_shape mat c moves vq : shape (expand mat c moves vq).1 = shape vq.1.
Proof.
  revert vq. induction moves as [|md moves IH]; intros vq; [done|].
  cbn. unfold expand in IH. rewrite IH. apply push_shape.
Qed.

Lemma visited_set_vq vq st : visited (set_vq vq st) = vq.1.
Proof. done. Qed.

Lemma q_set_vq vq st : q (set_vq vq st) = vq.2.
Proof. done. Qed.

Lemma set_vq_set_vq vq vq' st : set_vq vq' (set_vq vq st) = set_vq vq' st.
Proof. done. Qed.

Lemma set_vq_id st : set_vq (visited st, q st) st = st.
Proof. by destruct st. Qed.

Lemma for_moves_spec mat c moves st :
  shape (visited st) = shape mat →
  for_moves mat c moves st = Ret (set_vq (expand mat c moves (visited st, q st)) st).
Proof.
  revert st. induction moves as [|md moves IH]; intros st Hs;
    [unfold expand; cbn [for_moves foldl]; by rewrite set_vq_id|].
  cbn [for_moves]. rewrite try_move_spec by done. cbn [py_bind].
  rewrite IH by (by rewrite visited_set_vq, push_shape).
  rewrite visited_set_vq, q_set_vq, set_vq_set_vq, <- surjective_pairing. done.
Qed.

(** ** The termination measure *)

Lemma sum_list_insert (l : list nat) j a b :
  l !! j = Some a → (sum_list (<[j := b]> l) + a = sum_list l + b)%nat.
Proof.
  revert j. induction l as [|n l IH]; intros [|j] Hj; simplify_eq/=; [lia|].
  specialize (IH _ Hj). lia.
Qed.

Lemma row_free_insert (row : list bool) i :
  row !! i = Some false → (row_free (<[i := true]> row) + 1 = row_free row)%nat.
Proof.
  revert i. induction row as [|b row IH]; intros [|i] Hi; simplify_eq/=.
  - lia.
  - specialize (IH _ Hi). lia.
Qed.

Lemma free_slots_insert2 (v : list (list bool)) j i row :
  v !! j = Some row → row !! i = Some false →
  (free_slots (<[j := <[i := true]> row]> v) + 1 = free_slots v)%nat.
Proof.
  intros Hr Hi. unfold free_slots. rewrite list_fmap_insert.
  pose proof (sum_list_insert (row_free <$> v) j (row_free row)
                (row_free (<[i := true]> row))) as H.
  rewrite list_lookup_fmap, Hr in H. specialize (H eq_refl).
  pose proof (row_free_insert row i Hi). lia.
Qed.

Lemma free_slots_initial (mat : Maze) :
  free_slots (map (λ row, map (λ _ : string, false) row) mat) = cell_count mat.
Proof.
  unfold free_slots, cell_count. induction mat as [|row mat IH]; [done|].
  cbn. rewrite IH. f_equal.
  induction row as [|c row IHr]; [done|]. cbn. by rewrite IHr.
Qed.

Lemma shape_initial (mat : Maze) :
  shape (map (λ row, map (λ _ : string, false) row) mat) = shape mat.
Proof.
  unfold shape. induction mat as [|row mat IH]; [done|].
  cbn. rewrite length_map. f_equal. apply IH.
Qed.

Lemma mark_free_slots (v : list (list bool)) x y :
  cell_at v x y = Some false → (free_slots (mark v x y) + 1 = free_slots v)%nat.
Proof.
  intros (Hx & Hy & row & Hrow & Hcell)%cell_at_Some.
  unfold mark. rewrite Hrow. by apply free_slots_insert2.
Qed.

Lemma push_measure mat c md vq : measure (push mat c md vq) = measure vq.
Proof.
  unfold push, measure. destruct (valid_b _ _ _ _) eqn:Hv; [|done].
  apply valid_b_true in Hv as [_ Hv]. apply mark_free_slots in Hv.
  cbn [fst snd]. rewrite length_app. cbn. lia.
Qed.

Lemma expand_measure mat c moves vq : measure (expand mat c moves vq) = measure vq.
Proof.
  revert vq. induction moves as [|md moves IH]; intros vq; [done|].
  cbn. unfold expand in IH. rewrite IH. apply push_measure.
Qed.

(** ** Writes to rows that may be one object *)

Lemma shape_imap_insert {A} (f : nat → bool) i (v : A) (m : list (list A)) :
  shape (imap (λ k r, if f k then <[i := v]> r else r) m) = shape m.
Proof.
  unfold shape. revert f. induction m as [|r m IH]; intros f; [done|].
  cbn. f_equal; [by destruct (f 0%nat); rewrite ?length_insert|]. apply IH.
Qed.

Lemma py_setitem2_shared_Ret {A} ids (m m' : list (list A)) y x v :
  py_setitem2_shared ids m y x v = Ret m' → shape m' = shape m ∧ is_Some (at2 m x y).
Proof.
  unfold py_setitem2_shared, at2.
  destruct (py_norm (length m) y) as [j|] eqn:Hy; [|done].
  destruct (m !! j) as [row|] eqn:Hr; [|done].
  destruct (py_norm (length row) x) as [i|] eqn:Hx; [|done].
  intros [= <-]. split; [apply shape_imap_insert|].
  apply lookup_lt_is_Some_2. by eapply py_norm_lt.
Qed.

Lemma py_setitem2_shared_at2 {A} ids (m : list (list A)) y x v :
  is_Some (at2 m x y) → ∃ m', py_setitem2_shared ids m y x v = Ret m'.
Proof.
  intros [a (j & row & i & Hj & Hr & Hi & Ha)%at2_Some].
  unfold py_setitem2_shared. rewrite Hj, Hr, Hi. by eexists.
Qed.

Lemma same_row_distinct ids j k : NoDup ids → same_row ids j k = bool_decide (j = k).
Proof.
  intros Hnd. unfold same_row. apply bool_decide_ext. split; [|by left].
  intros [?|[[a Ha] Heq]]; [done|]. rewrite Ha in Heq.
  by eapply NoDup_lookup.
Qed.

Lemma py_setitem2_shared_distinct {A} ids (m : list (list A)) y x v :
  NoDup ids → py_setitem2_shared ids m y x v = py_setitem2 m y x v.
Proof.
  intros Hnd. unfold py_setitem2_shared, py_setitem2, py_getitem, py_setitem, py_bind.
  destruct (py_norm (length m) y) as [j|] eqn:Hy; [|done].
  destruct (m !! j) as [row|] eqn:Hr; [|done].
  destruct (py_norm (length row) x) as [i|] eqn:Hx; [|done].
  f_equal. apply list_eq. intros k. rewrite list_lookup_imap, same_row_distinct by done.
  destruct (decide (j = k)) as [<-|Hne].
  - rewrite bool_decide_eq_true_2 by done.
    rewrite list_lookup_insert_eq by (by eapply lookup_lt_Some). by rewrite Hr.
  - rewrite bool_decide_eq_false_2 by done.
    rewrite list_lookup_insert_ne by done. by destruct (m !! k).
Qed.

(** ** The window *)

Lemma QUIT_later ev events :
  ev ≠ QUIT → bool_decide (QUIT ∈ ev :: events) = bool_decide (QUIT ∈ events).
Proof.
  intros Hev. apply bool_decide_ext. rewrite elem_of_cons.
  split; [intros [?|?]; [congruence|done]|by right].
Qed.

Lemma for_events_not_waiting events r l :
  for_events events (EvLocals r l false)
  = if bool_decide (QUIT ∈ events) then EvLocals false 0 false else EvLocals r l false.
Proof.
  induction events as [|ev events IH]; [done|].
  destruct ev as [|pressed|]; cbn [for_events wait_left_click andb].
  - by rewrite bool_decide_eq_true_2 by apply list_elem_of_here.
  - by rewrite IH, QUIT_later.
  - by rewrite IH, QUIT_later.
Qed.

Lemma gui_handle_events_once events batches :
  gui_handle_events false (events :: batches)
  = Some (negb (bool_decide (QUIT ∈ events)), batches).
Proof.
  unfold gui_handle_events. change (0 + Z.b2z false) with 0. cbn [while_events].
  rewrite for_events_not_waiting. by destruct (bool_decide (QUIT ∈ events)).
Qed.

Lemma known_cell_color c :
  known_cell c = true → ∃ color, py_dict_getitem color_map c = Ret color.
Proof.
  unfold known_cell. intros H%bool_decide_eq_true. cbn in H.
  repeat (apply elem_of_cons in H as [->|H]); try (by eexists).
  by apply elem_of_nil in H.
Qed.

Lemma draw_row_ok cell_w cell_h y x row :
  forallb known_cell row = true → ∃ es, draw_row cell_w cell_h y x row = Ret es.
Proof.
  revert x. induction row as [|c row IH]; intros x Hall; [by eexists|].
  cbn in Hall. apply andb_true_iff in Hall as [Hc Hall].
  destruct (known_cell_color c Hc) as [color Hcolor].
  destruct (IH (x + 1) Hall) as [es Hes].
  cbn [draw_row]. rewrite Hcolor. cbn [py_bind]. rewrite Hes. by eexists.
Qed.

Lemma draw_maze_ok cell_w cell_h y maze :
  drawable maze = true → ∃ es, draw_maze cell_w cell_h y maze = Ret es.
Proof.
  unfold drawable. revert y. induction maze as [|row maze IH]; intros y Hall; [by eexists|].
  cbn in Hall. apply andb_true_iff in Hall as [Hrow Hall].
  destruct (draw_row_ok cell_w cell_h y 0 row Hrow) as [es Hes].
  destruct (IH (y + 1) Hall) as [es' Hes'].
  cbn [draw_maze]. rewrite Hes. cbn [py_bind]. rewrite Hes'. by eexists.
Qed.

Lemma draw_all_paths_ok items :
  Forall (λ t, ∃ x y move, t = T3 x y move) items → ∃ es, draw_all_paths items = Ret es.
Proof.
  induction 1 as [|t items (x & y & move & ->) _ [es Hes]]; [by eexists|].
  cbn [draw_all_paths unpack3 py_bind]. rewrite Hes. by eexists.
Qed.

Lemma draw_path_ok file path :
  path_of_triples file path → ∃ es, draw_path file path = Ret es.
Proof.
  destruct file; cbn.
  - intros _. destruct path as [[[x y] move]|]; by eexists.
  - intros Hok. destruct path as [[|t items]|]; [by eexists| |by eexists].
    apply draw_all_paths_ok. by apply Hok.
Qed.

Lemma handle_pending_events_calm w :
  forallb no_quit (pending w) = true →
  ∃ w', handle_pending_events w = (true, [], w') ∧
        w' = set_pending (tail (pending w)) w ∧
        forallb no_quit (pending w') = true.
Proof.
  intros Hno. unfold handle_pending_events. rewrite gui_handle_events_once.
  assert (bool_decide (QUIT ∈ match pending w with [] => [] | events :: _ => events end)
          = false) as ->.
  { apply bool_decide_eq_false. destruct (pending w) as [|b bs]; [apply not_elem_of_nil|].
    cbn in Hno. apply andb_true_iff in Hno as [Hb _]. by apply bool_decide_eq_true in Hb. }
  eexists. split; [done|]. split; [done|]. cbn.
  destruct (pending w) as [|b bs]; [done|]. cbn in Hno. by apply andb_true_iff in Hno as [_ ?].
Qed.

(** In a calm world [gui_update] returns and leaves the world calm. *)
Lemma gui_update_calm file cv maze path final_path grid w :
  calm file maze w = true → path_of_triples file path →
  ∃ r es w', gui_update file cv maze path final_path grid w = Ret (r, es, w') ∧
             calm file maze w' = true.
Proof.
  unfold calm. rewrite !andb_true_iff. intros [[[Hopen Hno] Hrow] Hdraw] Hpath.
  destruct maze as [|row maze]; [done|]. apply negb_true_iff, bool_decide_eq_false in Hrow.
  unfold gui_update. rewrite Hopen. destruct cv as [gui_w gui_h].
  assert (py_getitem (row :: maze) 0 = Ret row) as ->.
  { unfold py_getitem, py_norm. rewrite bool_decide_eq_true_2; [done|]. cbn. lia. }
  cbn [py_bind]. unfold py_floordiv.
  assert ((len (row :: maze) =? 0) = false) as -> by (apply Z.eqb_neq; unfold len; cbn; lia).
  assert ((len row =? 0) = false) as ->.
  { apply Z.eqb_neq. unfold len. destruct row; [done|]. cbn. lia. }
  cbn [py_bind].
  destruct (draw_path_ok file path Hpath) as [polygons Hpolygons].
  destruct file.
  - destruct (maze_already_drawn w) eqn:Hdrawn.
    + cbn [py_bind]. rewrite Hpolygons. cbn [py_bind].
      destruct (handle_pending_events_calm w Hno) as (w' & -> & -> & Hno').
      eexists _, _, _. split; [done|]. cbn. rewrite Hopen, Hdrawn, orb_true_r.
      cbn in Hno'. rewrite Hno'. cbn. by rewrite bool_decide_eq_false_2.
    + rewrite orb_false_r in Hdraw.
      destruct (draw_maze_ok (gui_w / len row) (gui_h / len (row :: maze)) 0 _ Hdraw)
        as [es ->].
      cbn [py_bind]. rewrite Hpolygons. cbn [py_bind].
      destruct (handle_pending_events_calm (set_maze_already_drawn true w) Hno)
        as (w' & -> & -> & Hno').
      eexists _, _, _. split; [done|]. cbn. rewrite Hopen, orb_true_r.
      cbn in Hno'. rewrite Hno'. cbn. by rewrite bool_decide_eq_false_2.
  - rewrite orb_false_r in Hdraw.
    destruct (draw_maze_ok (gui_w / len row) (gui_h / len (row :: maze)) 0 _ Hdraw)
      as [es ->].
    cbn [py_bind]. rewrite Hpolygons. cbn [py_bind].
    destruct (handle_pending_events_calm w Hno) as (w' & -> & -> & Hno').
    eexists _, _, _. split; [done|]. cbn. rewrite Hopen, orb_false_r.
    cbn in Hno'. rewrite Hno'. cbn. rewrite bool_decide_eq_false_2 by done.
    cbn. exact Hdraw.
Qed.

(** ** The progress report leaves the search alone *)

Lemma paint_color_ok ids path (mat maze : Maze) :
  shape maze = shape mat →
  Forall (λ t, ∃ x y, t = T2 x y ∧ in_range mat x y) path →
  ∃ maze', paint_color ids path maze = Ret maze'.
Proof.
  revert maze. induction path as [|t path IH]; intros maze Hs Hall; [by eexists|].
  apply Forall_cons in Hall as [(x & y & -> & Hin) Hall]. cbn [paint_color unpack2 py_bind].
  destruct (at2_shape mat maze x y (eq_sym Hs) Hin) as [c Hc].
  rewrite getitem2_at2, Hc.
  destruct (py_setitem2_shared_at2 ids maze y x (color_on +:+ c +:+ color_off)
              (mk_is_Some _ _ Hc)) as [maze' Hm].
  rewrite Hm. cbn [py_bind]. apply IH; [|done].
  apply py_setitem2_shared_Ret in Hm as [-> _]. done.
Qed.

Lemma set_add_Forall (P : tup → Prop) s a : Forall P s → P a → Forall P (set_add s a).
Proof.
  intros Hs Ha. unfold set_add. case_decide; [done|].
  apply Forall_app. split; [done|]. by apply Forall_singleton.
Qed.

(** The report returns and changes neither the overlay, the queue, the
    cell nor [min_dist]; or it raises, which takes a canvas and a world that
    is not calm. *)
Lemma report_progress_cases file mat canvas x y dist move st :
  console_items mat canvas (all_paths st) → in_range mat x y →
  (∃ st', report_progress file mat canvas x y dist move st = Ret st' ∧
          visited st' = visited st ∧ q st' = q st ∧ cell st' = cell st ∧
          min_dist st' = min_dist st ∧ console_items mat canvas (all_paths st') ∧
          (calm file mat (env st) = true → calm file mat (env st') = true)) ∨
  (∃ e, report_progress file mat canvas x y dist move st = Raise e ∧
        is_Some canvas ∧ calm file mat (env st) = false).
Proof.
  intros Hitems Hin. unfold report_progress. destruct canvas as [cv|].
  - cbn [console_items] in Hitems.
    assert (Forall (λ t, ∃ x y move, t = T3 x y move) (set_add (all_paths st) (T3 x y move)))
      as Hadd by (apply set_add_Forall; eauto).
    destruct (calm file mat (env st)) eqn:Hcalm.
    + left. destruct file.
      * destruct (gui_update_calm pathfinding_py cv mat (Some (x, y, move)) None false
                    (env st) Hcalm I) as (r & es & w' & -> & Hcalm').
        eexists. split; [done|]. by split_and!.
      * cbn [all_paths set_all_paths env].
        destruct (gui_update_calm Boi_pathfinding_py cv mat
                    (Some (set_add (all_paths st) (T3 x y move))) None false (env st) Hcalm)
          as (r & es & w' & -> & Hcalm').
        { intros items [= <-]. done. }
        eexists. split; [done|]. by split_and!.
    + destruct file.
      * destruct (gui_update pathfinding_py cv mat (Some (x, y, move)) None false (env st))
          as [[[r es] w']|e]; [left|right; by eauto].
        eexists. split; [done|]. by split_and!.
      * cbn [all_paths set_all_paths env].
        destruct (gui_update Boi_pathfinding_py cv mat
                    (Some (set_add (all_paths st) (T3 x y move))) None false (env st))
          as [[[r es] w']|e]; [left|right; by eauto].
        eexists. split; [done|]. by split_and!.
  - left. cbn [console_items] in Hitems.
    assert (Forall (λ t, ∃ x y, t = T2 x y ∧ in_range mat x y)
              (set_add (all_paths st) (T2 x y))) as Hadd.
    { apply set_add_Forall; eauto. }
    cbn [all_paths set_all_paths last_printed_distance env].
    case_bool_decide.
    + unfold print_path.
      destruct (set_add (all_paths st) (T2 x y)) as [|t items] eqn:Hs.
      * eexists. cbn [py_bind]. split; [done|]. cbn. by split_and!.
      * destruct (paint_color_ok (row_ids (env st)) (t :: items) mat mat eq_refl Hadd)
          as [maze' ->].
        eexists. cbn [py_bind]. split; [done|]. cbn. by split_and!.
    + eexists. split; [done|]. cbn. by split_and!.
Qed.

Lemma report_progress_core file mat canvas x y dist move st st' :
  report_progress file mat canvas x y dist move st = Ret st' →
  visited st' = visited st ∧ q st' = q st ∧ cell st' = cell st ∧ min_dist st' = min_dist st.
Proof.
  unfold report_progress. destruct canvas as [cv|].
  - destruct file.
    + destruct (gui_update _ _ _ _ _ _ _) as [[[r es] w']|e]; cbn [py_bind];
        intros; simplify_eq; done.
    + destruct (gui_update _ _ _ _ _ _ _) as [[[r es] w']|e]; cbn [py_bind];
        intros; simplify_eq; done.
  - cbn [all_paths set_all_paths last_printed_distance]. case_bool_decide.
    + destruct (print_path _ _ _ _) as [lines|]; cbn [py_bind]; intros; simplify_eq; done.
    + intros; simplify_eq; done.
Qed.

(** ** The loop under an invariant *)

Section loop.
Context (file : source_file) (mat : Maze) (ex ey : Z).
Context (print_progress : bool) (canvas : option Surface).

(** One round: the report raises, in a world that is not quiet, or the
    round does to the overlay and the queue what [expand] says. *)
Lemma loop_body_spec st :
  shape (visited st) = shape mat →
  console_items mat canvas (all_paths st) →
  in_range mat (cell_x (cell st)) (cell_y (cell st)) →
  (∃ e, loop_body file mat ex ey print_progress canvas st = Raise e ∧
        ¬ quiet file mat print_progress canvas (env st)) ∨
  ∃ st1, visited st1 = visited st ∧ q st1 = q st ∧ cell st1 = cell st ∧
         min_dist st1 = min_dist st ∧ console_items mat canvas (all_paths st1) ∧
         (quiet file mat print_progress canvas (env st) →
          quiet file mat print_progress canvas (env st1)) ∧
         loop_body file mat ex ey print_progress canvas st =
         Ret (if at_destination ex ey (cell st)
              then (Break, set_min_dist (cell_dist (cell st)) st1)
              else (Continue,
                    set_vq (expand mat (cell st) possible_moves (visited st, q st)) st1)).
Proof using Type.
  intros Hs Hitems Hin. unfold loop_body.
  assert ((∃ e, (if print_progress
                 then report_progress file mat canvas (cell_x (cell st))
                        (cell_y (cell st)) (cell_dist (cell st)) (cell_move (cell st)) st
                 else Ret st) = Raise e ∧
                ¬ quiet file mat print_progress canvas (env st)) ∨
          ∃ st1, (if print_progress
                  then report_progress file mat canvas (cell_x (cell st))
                         (cell_y (cell st)) (cell_dist (cell st)) (cell_move (cell st)) st
                  else Ret st) = Ret st1 ∧
                 visited st1 = visited st ∧ q st1 = q st ∧ cell st1 = cell st ∧
                 min_dist st1 = min_dist st ∧ console_items mat canvas (all_paths st1) ∧
                 (quiet file mat print_progress canvas (env st) →
                  quiet file mat print_progress canvas (env st1)))
    as [(e & -> & Hnq)|(st1 & -> & Hv & Hq & Hc & Hm & Hit & Hqt)].
  { destruct print_progress.
    - destruct (report_progress_cases file mat canvas (cell_x (cell st)) (cell_y (cell st))
                  (cell_dist (cell st)) (cell_move (cell st)) st Hitems Hin)
        as [(st1 & Hst1 & Hv & Hq & Hc & Hm & Hit & Hcalm)|(e & He & Hcv & Hcalm)].
      + right. exists st1. split_and!; try done. intros Hqt _ Hcv. by apply Hcalm, Hqt.
      + left. exists e. split; [done|]. intros Hqt. specialize (Hqt eq_refl Hcv). congruence.
    - right. exists st. by split_and!. }
  { left. by exists e. }
  right. exists st1. split_and!; try done. cbn [py_bind]. unfold at_destination.
  destruct ((cell_x (cell st) =? ex) && (cell_y (cell st) =? ey)); [done|].
  rewrite for_moves_spec by congruence. cbn [py_bind]. by rewrite Hc, Hv, Hq.
Qed.

Variable I : list (list bool) → list Cell → Prop.
Hypothesis I_shape : ∀ v q, I v q → shape v = shape mat.
Hypothesis I_range : ∀ v q c, I v q → c ∈ q → in_range mat (cell_x c) (cell_y c).
Hypothesis I_step : ∀ v c q',
  I v (c :: q') → at_destination ex ey c = false →
  I (expand mat c possible_moves (v, q')).1 (expand mat c possible_moves (v, q')).2.

End loop.

(** ** The order on move sequences *)

Lemma rlt_length a b : rlt a b → length a = length b.
Proof. induction 1; cbn; congruence. Qed.

Lemma rlt_trans a b c : rlt a b → rlt b c → rlt a c.
Proof.
  intros Hab. revert c. induction Hab as [x y a Hxy|x y a b Hab IH]; intros c Hbc.
  - inversion Hbc; subst; [apply rlt_head; lia|by apply rlt_tail].
  - inversion Hbc; subst; apply rlt_tail; [done|by apply IH].
Qed.

Lemma slex_trans a b c : slex a b → slex b c → slex a c.
Proof.
  intros [Hab|Hab] [Hbc|Hbc].
  - left. lia.
  - left. apply rlt_length in Hbc. lia.
  - left. apply rlt_length in Hab. lia.
  - right. by eapply rlt_trans.
Qed.

Lemma slex_cons x y a b : slex a b → slex (x :: a) (y :: b).
Proof. intros [H|H]; [left; cbn; lia|right; by apply rlt_tail]. Qed.

Lemma slex_grow x a : slex a (x :: a).
Proof. left. cbn. lia. Qed.

Lemma sle_slex_trans a b c : sle a b → slex b c → slex a c.
Proof. intros [->|H] ?; [done|by eapply slex_trans]. Qed.

Lemma slex_sle_trans a b c : slex a b → sle b c → slex a c.
Proof. intros ? [<-|H]; [done|by eapply slex_trans]. Qed.

Lemma sle_trans a b c : sle a b → sle b c → sle a c.
Proof. intros [->|H] ?; [done|]. right. by eapply slex_sle_trans. Qed.

Lemma sle_cons x a b : sle a b → sle (x :: a) (x :: b).
Proof. intros [->|H]; [by left|right; by apply slex_cons]. Qed.

Lemma sle_length a b : sle a b → (length a ≤ length b)%nat.
Proof. intros [->|[H|H]]; [done|lia|]. apply rlt_length in H. lia. Qed.

Lemma lex_lt_app u v u' v' : lex_lt u v → lex_lt (u ++ u') (v ++ v').
Proof. induction 1; cbn; [by apply lex_lt_head|by apply lex_lt_tail]. Qed.

Lemma lex_lt_snoc l x y : (x < y)%nat → lex_lt (l ++ [x]) (l ++ [y]).
Proof.
  intros Hxy. induction l as [|z l IH]; cbn; [by apply lex_lt_head|by apply lex_lt_tail].
Qed.

Lemma rlt_lex_lt a b : rlt a b → lex_lt (reverse a) (reverse b).
Proof.
  induction 1 as [x y a Hxy|x y a b Hab IH]; rewrite !reverse_cons.
  - by apply lex_lt_snoc.
  - by apply lex_lt_app.
Qed.

(** ** Queue cells and their links *)

Lemma walk_back_trail c path moves :
  walk_back c path moves = (reverse (trail c).*1 ++ path, reverse (trail c).*2 ++ moves).
Proof.
  revert c path moves.
  fix IH 1. intros [x y d m [p|]] path moves; cbn [walk_back trail]; [|done].
  rewrite IH. cbn [fmap list_fmap fst snd]. rewrite !reverse_cons, <- !app_assoc. done.
Qed.

Lemma cell_point_child p md : cell_point (child p md) = step (cell_point p) md.
Proof. done. Qed.

Lemma trail_child p md : trail (child p md) = (step (cell_point p) md, name_of md) :: trail p.
Proof. done. Qed.

Lemma rkey_child p md : rkey (child p md) = rank (name_of md) :: rkey p.
Proof. done. Qed.

Lemma rkey_length c : length (rkey c) = length (trail c).
Proof. unfold rkey. by rewrite !length_fmap. Qed.

Lemma wf_cell_route mat sx sy c :
  wf_cell mat sx sy c →
  ∃ mds, route mat (sx, sy) mds (cell_point c) ∧
         reverse (trail c).*2 = name_of <$> mds ∧
         length mds = length (trail c).
Proof.
  induction 1 as [|p md Hp (mds & Hr & Hn & Hl) Hmd Hfree].
  - exists []. split_and!; [constructor|done|done].
  - exists (mds ++ [md]). rewrite trail_child, cell_point_child. split_and!.
    + apply route_snoc; done.
    + cbn [fmap list_fmap snd]. rewrite reverse_cons, fmap_app. cbn. by f_equal.
    + rewrite length_app. cbn. lia.
Qed.

Lemma wf_cell_in_range mat sx sy c :
  in_range mat sx sy → wf_cell mat sx sy c → in_range mat (cell_x c) (cell_y c).
Proof.
  intros Hs. destruct 1 as [|p md Hp Hmd (a & Ha & _)]; [done|].
  exists a. by apply cell_at_at2.
Qed.

Lemma wf_cell_root_or_child mat sx sy c :
  wf_cell mat sx sy c →
  c = root_cell sx sy ∨ ∃ p md, c = child p md ∧ wf_cell mat sx sy p ∧
                                 md ∈ possible_moves ∧ free mat (cell_point c).
Proof. destruct 1; [by left|right; eauto 10]. Qed.

(** ** The base case and the set-up before the loop *)

Lemma invalid_input_spec mat sx sy ex ey :
  invalid_input mat sx sy ex ey =
  if bool_decide (mat = []) then Ret true
  else match at2 mat sx sy, at2 mat ex ey with
       | Some _, Some _ => Ret false
       | _, _ => Raise IndexError
       end.
Proof.
  unfold invalid_input. case_bool_decide as Hmat; [done|].
  assert ((len mat =? 0) = false) as ->.
  { apply Z.eqb_neq. unfold len. destruct mat; [done|]. cbn. lia. }
  rewrite getitem2_at2. destruct (at2 mat sx sy); [|done].
  unfold str_eq_int. rewrite getitem2_at2. by destruct (at2 mat ex ey).
Qed.

Lemma initial_visited_Ret mat sx sy :
  in_range mat sx sy →
  ∃ v, initial_visited mat sx sy = Ret v ∧ shape v = shape mat ∧
       (free_slots v + 1 = cell_count mat)%nat.
Proof.
  intros Hin. unfold initial_visited.
  set (v0 := map (λ row, map (λ _ : string, false) row) mat).
  assert (shape v0 = shape mat) as Hs0 by apply shape_initial.
  destruct (at2_shape mat v0 sx sy (eq_sym Hs0) Hin) as [b Hb].
  destruct (py_setitem2_at2 v0 sy sx true (mk_is_Some _ _ Hb)) as [v Hv].
  exists v. split; [done|].
  apply at2_Some in Hb as (j & row & i & Hj & Hr & Hi & Hb).
  apply py_setitem2_Ret in Hv as (j' & row' & i' & Hj' & Hr' & Hi' & ->).
  simplify_eq. split.
  - by rewrite shape_insert2.
  - rewrite <- (free_slots_initial mat). apply free_slots_insert2; [done|].
    assert (b = false) as <-; [|done].
    assert (Forall (Forall (λ b, b = false)) v0) as Hall.
    { unfold v0. clear. induction mat as [|r mat IH]; constructor; [|done].
      induction r; by constructor. }
    eapply (Forall_lookup_1 _ _ _ _ (Forall_lookup_1 _ _ _ _ Hall Hr) Hb).
Qed.

Lemma find_shortest_path_empty file fuel w s e pp canvas :
  find_shortest_path file fuel w [] s e pp canvas = Some (Ret (None, None)).
Proof. by destruct s, e. Qed.

Lemma find_shortest_path_out_of_range file fuel w mat sx sy ex ey pp canvas :
  mat ≠ [] → ¬ (in_range mat sx sy ∧ in_range mat ex ey) →
  find_shortest_path file fuel w mat (sx, sy) (ex, ey) pp canvas = Some (Raise IndexError).
Proof.
  intros Hmat Hout. unfold find_shortest_path. rewrite invalid_input_spec.
  rewrite bool_decide_eq_false_2 by done.
  destruct (at2 mat sx sy) eqn:Hs, (at2 mat ex ey) eqn:He; try done.
  destruct Hout. unfold in_range. rewrite Hs, He. eauto.
Qed.

Lemma find_shortest_path_in_range file fuel w mat sx sy ex ey pp canvas :
  mat ≠ [] → in_range mat sx sy → in_range mat ex ey →
  ∃ v, initial_visited mat sx sy = Ret v ∧ shape v = shape mat ∧
       (free_slots v + 1 = cell_count mat)%nat ∧
       find_shortest_path file fuel w mat (sx, sy) (ex, ey) pp canvas =
       match while_q file mat ex ey pp canvas fuel (initial_locals w v sx sy) with
       | None => None
       | Some (Raise e) => Some (Raise e)
       | Some (Ret st) => Some (Ret (returned st))
       end.
Proof.
  intros Hmat Hs He. destruct (initial_visited_Ret mat sx sy Hs) as (v & Hv & Hshape & Hfree).
  exists v. split_and!; try done.
  unfold find_shortest_path. rewrite invalid_input_spec.
  rewrite bool_decide_eq_false_2 by done.
  destruct Hs as [? ->], He as [? ->].
  unfold initial_visited in Hv. by rewrite Hv.
Qed.

(** ** The search as a function of the maze and the end points *)

Lemma push_cases mat c md vq :
  (valid_b mat vq.1 (cell_x c + md.2.1) (cell_y c + md.2.2) = false ∧
   push mat c md vq = vq) ∨
  (valid_b mat vq.1 (cell_x c + md.2.1) (cell_y c + md.2.2) = true ∧
   push mat c md vq = (mark vq.1 (cell_x c + md.2.1) (cell_y c + md.2.2),
                       vq.2 ++ [child c md])).
Proof. unfold push. destruct (valid_b _ _ _ _); [right|left]; done. Qed.

Lemma valid_b_free mat v c md :
  valid_b mat v (cell_x c + md.2.1) (cell_y c + md.2.2) = true →
  free mat (cell_point (child c md)).
Proof. intros [H _]%valid_b_true. exact H. Qed.

Lemma push_wf mat sx sy c md vq :
  wf_cell mat sx sy c → md ∈ possible_moves →
  Forall (wf_cell mat sx sy) vq.2 → Forall (wf_cell mat sx sy) (push mat c md vq).2.
Proof.
  intros Hc Hmd Hq. destruct (push_cases mat c md vq) as [[_ ->]|[Hv ->]]; [done|].
  cbn. apply Forall_app. split; [done|]. apply Forall_singleton.
  apply wf_child; [done..|]. by eapply valid_b_free.
Qed.

Lemma expand_wf mat sx sy c moves vq :
  wf_cell mat sx sy c → moves ⊆ possible_moves →
  Forall (wf_cell mat sx sy) vq.2 → Forall (wf_cell mat sx sy) (expand mat c moves vq).2.
Proof.
  intros Hc. revert vq. induction moves as [|md moves IH]; intros vq Hsub Hq; [done|].
  cbn. apply IH.
  - intros x Hx. apply Hsub. by apply elem_of_cons; right.
  - apply push_wf; [done| |done]. apply Hsub. apply list_elem_of_here.
Qed.

Lemma gen_inv_expand mat sx sy v c q' :
  gen_inv mat sx sy v (c :: q') →
  gen_inv mat sx sy (expand mat c possible_moves (v, q')).1
                    (expand mat c possible_moves (v, q')).2.
Proof.
  intros [Hs [Hc Hq]%Forall_cons]. split.
  - by rewrite expand_shape.
  - by apply expand_wf.
Qed.

Lemma while_q_search file mat sx sy ex ey pp canvas fuel st :
  in_range mat sx sy →
  gen_inv mat sx sy (visited st) (q st) →
  console_items mat canvas (all_paths st) →
  min_dist st = sys_maxsize →
  (∃ e, while_q file mat ex ey pp canvas fuel st = Some (Raise e) ∧
        ¬ quiet file mat pp canvas (env st)) ∨
  match search mat ex ey fuel (visited st, q st) with
  | None => while_q file mat ex ey pp canvas fuel st = None
  | Some None =>
      ∃ st', while_q file mat ex ey pp canvas fuel st = Some (Ret st') ∧
             min_dist st' = sys_maxsize
  | Some (Some c) =>
      ∃ st', while_q file mat ex ey pp canvas fuel st = Some (Ret st') ∧
             min_dist st' = cell_dist c ∧ cell st' = c
  end.
Proof.
  intros Hs. revert st. induction fuel as [|fuel IH]; intros st HI Hitems Hmin; [by right|].
  cbn [search while_q snd fst]. destruct (q st) as [|c q'] eqn:Hq; [right; by exists st|].
  pose proof HI as [Hshape [Hc Hwf]%Forall_cons].
  destruct (loop_body_spec file mat ex ey pp canvas (set_cell c (set_q q' st))) as
    [(e & -> & Hnq)|(st1 & Hv1 & Hq1 & Hc1 & Hm1 & Hit1 & Hqt1 & ->)];
    [done|done|by eapply wf_cell_in_range|left; by eauto|].
  cbn [cell set_cell visited q set_q env] in *.
  destruct (at_destination ex ey c) eqn:Hdest.
  - right. eexists. split; [done|]. cbn. by rewrite Hc1.
  - specialize (IH (set_vq (expand mat c possible_moves (visited st, q')) st1)).
    rewrite visited_set_vq, q_set_vq, <- surjective_pairing in IH.
    destruct IH as [(e & He & Hnq)|IH]; [by apply gen_inv_expand|done|cbn; by rewrite Hm1| |].
    + left. exists e. split; [done|]. intros Hqt. apply Hnq. cbn. by apply Hqt1.
    + by right.
Qed.

Lemma returned_found st c :
  min_dist st = cell_dist c → cell st = c →
  returned st = if cell_dist c =? sys_maxsize then (None, None)
                else (Some (reverse (trail c).*1), Some (reverse (trail c).*2)).
Proof.
  intros Hm Hc. unfold returned. rewrite Hm, Hc.
  destruct (cell_dist c =? sys_maxsize); [done|].
  by rewrite walk_back_trail, !app_nil_r.
Qed.

Lemma find_shortest_path_cases file fuel w mat sx sy ex ey pp canvas :
  mat ≠ [] → in_range mat sx sy → in_range mat ex ey →
  ∃ v, initial_visited mat sx sy = Ret v ∧ shape v = shape mat ∧
       (free_slots v + 1 = cell_count mat)%nat ∧
       ((∃ e, find_shortest_path file fuel w mat (sx, sy) (ex, ey) pp canvas
              = Some (Raise e) ∧ ¬ quiet file mat pp canvas w) ∨
        find_shortest_path file fuel w mat (sx, sy) (ex, ey) pp canvas =
        outcome (search mat ex ey fuel (v, [root_cell sx sy]))).
Proof.
  intros Hmat Hs He.
  destruct (find_shortest_path_in_range file fuel w mat sx sy ex ey pp canvas Hmat Hs He)
    as (v & Hv & Hshape & Hfree & ->).
  exists v. split_and!; try done.
  assert (gen_inv mat sx sy v [root_cell sx sy]) as Hinv.
  { split; [done|]. apply Forall_singleton. constructor. }
  assert (console_items mat canvas []) as Hitems by (destruct canvas; constructor).
  destruct (while_q_search file mat sx sy ex ey pp canvas fuel (initial_locals w v sx sy)
              Hs Hinv Hitems eq_refl) as [(e & -> & Hnq)|H]; [left; by eauto|right].
  change (visited (initial_locals w v sx sy), q (initial_locals w v sx sy))
    with (v, [root_cell sx sy]) in H.
  destruct (search mat ex ey fuel (v, [root_cell sx sy])) as [[c|]|].
  - destruct H as (st' & -> & Hm & Hc).
    cbn [outcome]. by rewrite (returned_found _ _ Hm Hc).
  - destruct H as (st' & -> & Hm).
    cbn [outcome]. unfold returned. by rewrite Hm, Z.eqb_refl.
  - by rewrite H.
Qed.

(** With a report that returns, the call is the search on the overlay and
    the queue. *)
Lemma find_shortest_path_search file fuel w mat sx sy ex ey pp canvas :
  mat ≠ [] → in_range mat sx sy → in_range mat ex ey →
  quiet file mat pp canvas w →
  ∃ v, initial_visited mat sx sy = Ret v ∧ shape v = shape mat ∧
       (free_slots v + 1 = cell_count mat)%nat ∧
       find_shortest_path file fuel w mat (sx, sy) (ex, ey) pp canvas =
       outcome (search mat ex ey fuel (v, [root_cell sx sy])).
Proof.
  intros Hmat Hs He Hq.
  destruct (find_shortest_path_cases file fuel w mat sx sy ex ey pp canvas Hmat Hs He)
    as (v & Hv & Hshape & Hfree & [(e & _ & Hnq)|Heq]); [done|].
  exists v. by split_and!.
Qed.

(** Whatever the world, a call that returns returns what the search gives. *)
Lemma find_shortest_path_returns file fuel w mat sx sy ex ey pp canvas r :
  mat ≠ [] → in_range mat sx sy → in_range mat ex ey →
  find_shortest_path file fuel w mat (sx, sy) (ex, ey) pp canvas = Some (Ret r) →
  ∃ v, initial_visited mat sx sy = Ret v ∧ shape v = shape mat ∧
       (free_slots v + 1 = cell_count mat)%nat ∧
       outcome (search mat ex ey fuel (v, [root_cell sx sy])) = Some (Ret r).
Proof.
  intros Hmat Hs He Hr.
  destruct (find_shortest_path_cases file fuel w mat sx sy ex ey pp canvas Hmat Hs He)
    as (v & Hv & Hshape & Hfree & [(e & He' & _)|Heq]); [congruence|].
  exists v. split_and!; try done. congruence.
Qed.

Lemma search_fuel_mono mat ex ey fuel fuel' vq r :
  search mat ex ey fuel vq = Some r → (fuel ≤ fuel')%nat →
  search mat ex ey fuel' vq = Some r.
Proof.
  revert fuel' vq. induction fuel as [|fuel IH]; intros [|fuel'] vq Hr Hle;
    try done; [lia|].
  cbn [search] in *. destruct vq.2 as [|c q']; [done|].
  destruct (at_destination ex ey c); [done|]. apply IH; [done|lia].
Qed.

Lemma search_terminates mat ex ey fuel vq :
  (measure vq < fuel)%nat → is_Some (search mat ex ey fuel vq).
Proof.
  revert vq. induction fuel as [|fuel IH]; intros vq Hlt; [lia|].
  cbn [search]. destruct vq as [v [|c q']]; [done|]. cbn [fst snd].
  destruct (at_destination ex ey c); [done|]. apply IH.
  rewrite expand_measure. unfold measure in *. cbn in *. lia.
Qed.

Lemma search_rule mat ex ey (I : list (list bool) → list Cell → Prop) (Found : Cell → Prop) :
  (∀ v c q', I v (c :: q') →
     if at_destination ex ey c then Found c
     else I (expand mat c possible_moves (v, q')).1 (expand mat c possible_moves (v, q')).2) →
  ∀ fuel vq r,
    I vq.1 vq.2 → search mat ex ey fuel vq = Some r →
    match r with
    | Some c => Found c ∧ at_destination ex ey c = true
    | None => ∃ v, I v []
    end.
Proof.
  intros Hstep fuel. induction fuel as [|fuel IH]; intros [v q0] r HI Hr; [done|].
  cbn [search fst snd] in *. destruct q0 as [|c q']; [simplify_eq; eauto|].
  specialize (Hstep _ _ _ HI). destruct (at_destination ex ey c) eqn:Hd.
  - by simplify_eq.
  - by eapply IH.
Qed.

Lemma find_shortest_path_independent file file' fuel w w' mat s e pp pp' canvas canvas' :
  quiet file mat pp canvas w → quiet file' mat pp' canvas' w' →
  find_shortest_path file fuel w mat s e pp canvas
  = find_shortest_path file' fuel w' mat s e pp' canvas'.
Proof.
  intros Hq Hq'. destruct s as [sx sy], e as [ex ey].
  destruct (decide (mat = [])) as [->|Hmat]; [done|].
  destruct (at2 mat sx sy) as [a|] eqn:Hs, (at2 mat ex ey) as [b|] eqn:He.
  - destruct (find_shortest_path_search file fuel w mat sx sy ex ey pp canvas Hmat)
      as (v & Hv & _ & _ & ->); [by eexists..|done|].
    destruct (find_shortest_path_search file' fuel w' mat sx sy ex ey pp' canvas' Hmat)
      as (v' & Hv' & _ & _ & ->); [by eexists..|done|].
    congruence.
  - rewrite !find_shortest_path_out_of_range; try done;
      intros [_ [? ?]]; congruence.
  - rewrite !find_shortest_path_out_of_range; try done;
      intros [[? ?] _]; congruence.
  - rewrite !find_shortest_path_out_of_range; try done;
      intros [[? ?] _]; congruence.
Qed.

Lemma points_along_snoc mat s mds p md :
  route mat s mds p → points_along s (mds ++ [md]) = points_along s mds ++ [step p md].
Proof.
  assert (∀ mds s, points_along s (mds ++ [md])
                   = points_along s mds ++ [step (foldl step s mds) md]) as Hgen.
  { clear. induction mds as [|md' mds IH]; intros s; [done|]. cbn. by rewrite IH. }
  intros Hr. rewrite Hgen. do 3 f_equal.
  induction Hr as [|mds p md' Hr IH Hmd Hfree]; [done|]. by rewrite foldl_app, IH.
Qed.

Lemma wf_cell_points mat sx sy c :
  wf_cell mat sx sy c →
  ∃ mds, route mat (sx, sy) mds (cell_point c) ∧
         reverse (trail c).*2 = name_of <$> mds ∧
         reverse (trail c).*1 = points_along (sx, sy) mds.
Proof.
  induction 1 as [|p md Hp (mds & Hr & Hn & Hl) Hmd Hfree].
  - exists []. split_and!; [constructor|done|done].
  - exists (mds ++ [md]). rewrite trail_child, cell_point_child. split_and!.
    + apply route_snoc; done.
    + cbn [fmap list_fmap snd]. rewrite reverse_cons, fmap_app. cbn. by f_equal.
    + cbn [fmap list_fmap fst]. rewrite reverse_cons, (points_along_snoc _ _ _ _ _ Hr).
      by f_equal.
Qed.

Lemma gen_inv_step mat sx sy ex ey v c q' :
  gen_inv mat sx sy v (c :: q') →
  if at_destination ex ey c then wf_cell mat sx sy c
  else gen_inv mat sx sy (expand mat c possible_moves (v, q')).1
                         (expand mat c possible_moves (v, q')).2.
Proof.
  intros HI. destruct (at_destination ex ey c).
  - destruct HI as [_ [Hc _]%Forall_cons]. done.
  - by apply gen_inv_expand.
Qed.

Lemma at_destination_true ex ey c : at_destination ex ey c = true ↔ cell_point c = (ex, ey).
Proof.
  unfold at_destination, cell_point. rewrite andb_true_iff, !Z.eqb_eq.
  split; [intros [-> ->]; done|intros [= -> ->]; done].
Qed.

(** A successful call, unfolded: the break cell and what is known of it. *)
Lemma find_shortest_path_success file fuel w mat sx sy ex ey pp canvas path moves :
  find_shortest_path file fuel w mat (sx, sy) (ex, ey) pp canvas
  = Some (Ret (Some path, Some moves)) →
  ∃ v c, initial_visited mat sx sy = Ret v ∧ shape v = shape mat ∧
         in_range mat sx sy ∧
         search mat ex ey fuel (v, [root_cell sx sy]) = Some (Some c) ∧
         wf_cell mat sx sy c ∧ cell_point c = (ex, ey) ∧
         path = reverse (trail c).*1 ∧ moves = reverse (trail c).*2.
Proof.
  intros Hfsp.
  destruct (decide (mat = [])) as [->|Hmat]; [done|].
  destruct (at2 mat sx sy) as [a|] eqn:Hs; cycle 1.
  { rewrite find_shortest_path_out_of_range in Hfsp; [done..|].
    intros [[? ?] _]; congruence. }
  destruct (at2 mat ex ey) as [b|] eqn:He; cycle 1.
  { rewrite find_shortest_path_out_of_range in Hfsp; [done..|].
    intros [_ [? ?]]; congruence. }
  assert (in_range mat sx sy) as Hin by by eexists.
  apply find_shortest_path_returns in Hfsp as (v & Hv & Hshape & _ & Hfsp);
    [|done|done|by eexists].
  destruct (search mat ex ey fuel (v, [root_cell sx sy])) as [[c|]|] eqn:Hsearch;
    cbn [outcome] in Hfsp; [|done..].
  destruct (cell_dist c =? sys_maxsize); simplify_eq.
  assert (gen_inv mat sx sy v [root_cell sx sy]) as Hinv.
  { split; [done|]. apply Forall_singleton. constructor. }
  pose proof (search_rule mat ex ey (gen_inv mat sx sy) (wf_cell mat sx sy)
                (gen_inv_step mat sx sy ex ey) fuel (v, [root_cell sx sy]) _ Hinv Hsearch)
    as [Hwf Hd%at_destination_true].
  exists v, c. by split_and!.
Qed.

Lemma route_moves mat s mds p : route mat s mds p → Forall (λ md, md ∈ possible_moves) mds.
Proof.
  induction 1 as [|mds p md Hr IH Hmd Hfree]; [constructor|].
  apply Forall_app. split; [done|]. by apply Forall_singleton.
Qed.

Lemma in_range_nonempty mat x y : in_range mat x y → mat ≠ [].
Proof. intros [a Ha] ->. unfold at2 in Ha. by destruct (py_norm (length []) y). Qed.

Lemma py_norm_wrap_Some n i j : py_norm n i = Some j → j = Z.to_nat (wrap (Z.of_nat n) i).
Proof.
  unfold py_norm, wrap. repeat case_bool_decide; intros; simplify_eq.
  - by rewrite (proj2 (Z.ltb_ge i 0)) by lia.
  - by rewrite (proj2 (Z.ltb_lt i 0)) by lia.
Qed.

Lemma py_norm_wrap n i j :
  py_norm n i = Some j ↔
  0 ≤ wrap (Z.of_nat n) i < Z.of_nat n ∧ j = Z.to_nat (wrap (Z.of_nat n) i).
Proof.
  unfold py_norm, wrap. destruct (i <? 0) eqn:Hi;
    [apply Z.ltb_lt in Hi|apply Z.ltb_ge in Hi];
    repeat case_bool_decide; split; intros; simplify_eq; try lia; try done;
    destruct_and?; try lia; by f_equal.
Qed.

Lemma at2_reads {A} (m : list (list A)) x y c : at2 m x y = Some c ↔ reads m x y c.
Proof.
  unfold reads, len. split.
  - intros (j & row & i & [Hj ->]%py_norm_wrap & Hr & [Hi ->]%py_norm_wrap & Hc)%at2_Some.
    exists row. split_and!; try done; lia.
  - intros (row & Hy & Hr & Hx & Hc). apply at2_Some.
    exists (Z.to_nat (wrap (Z.of_nat (length m)) y)), row,
      (Z.to_nat (wrap (Z.of_nat (length row)) x)).
    split_and!; try done; apply py_norm_wrap; (split; [|done]).
    + apply lookup_lt_Some in Hr. lia.
    + apply lookup_lt_Some in Hc. lia.
Qed.

Lemma at2_wrap {A} (m : list (list A)) x y a :
  at2 m x y = Some a →
  ∃ row, m !! Z.to_nat (wrap (len m) y) = Some row ∧
         row !! Z.to_nat (wrap (len row) x) = Some a.
Proof.
  intros (j & row & i & Hj & Hr & Hi & Ha)%at2_Some.
  apply py_norm_wrap_Some in Hj as ->. apply py_norm_wrap_Some in Hi as ->. eauto.
Qed.

(** ** Breadth-first order *)

Lemma free_in_maze mat p : free mat p → in_maze mat p.
Proof. intros (c & Hc & _). by exists c. Qed.

Lemma in_maze_in_range mat x y : in_maze mat (x, y) → in_range mat x y.
Proof. intros [c Hc]. exists c. by apply cell_at_at2. Qed.

(** The rank of the current move exceeds the ranks of the moves already
    tried in this round. *)
Lemma rank_prefix pm md ms md' :
  possible_moves = pm ++ md :: ms → md' ∈ pm →
  (rank (name_of md') < rank (name_of md))%nat.
Proof.
  intros Heq Hin. unfold possible_moves in Heq.
  destruct pm as [|m1 [|m2 [|m3 [|m4 pm]]]]; simplify_eq/=.
  - by apply elem_of_nil in Hin.
  - apply list_elem_of_singleton in Hin as ->. vm_compute. lia.
  - apply elem_of_cons in Hin as [->|Hin%list_elem_of_singleton]; subst; vm_compute; lia.
  - apply elem_of_cons in Hin as [->|Hin]; [vm_compute; lia|].
    apply elem_of_cons in Hin as [->|Hin%list_elem_of_singleton]; subst; vm_compute; lia.
  - by destruct pm.
Qed.

Lemma rank_inj md md' :
  md ∈ possible_moves → md' ∈ possible_moves →
  rank (name_of md) = rank (name_of md') → md = md'.
Proof.
  unfold possible_moves. intros H H'.
  repeat (apply elem_of_cons in H as [->|H]); try (by apply elem_of_nil in H);
    repeat (apply elem_of_cons in H' as [->|H']); try (by apply elem_of_nil in H');
    vm_compute; intros; congruence.
Qed.

Lemma adjacent_move p p' :
  adjacent p p' ↔ ∃ md, md ∈ possible_moves ∧ p' = step p md.
Proof.
  destruct p as [x y], p' as [x' y']. unfold adjacent, step, possible_moves. cbn. split.
  - intros H.
    assert ((x' = x + 1 ∧ y' = y + 0) ∨ (x' = x + 0 ∧ y' = y + 1) ∨
            (x' = x + -1 ∧ y' = y + 0) ∨ (x' = x + 0 ∧ y' = y + -1))
      as [[-> ->]|[[-> ->]|[[-> ->]|[-> ->]]]] by lia.
    + exists ("Right", (1, 0)). split; [|done]. apply list_elem_of_here.
    + exists ("Down", (0, 1)). split; [|done]. do 1 apply list_elem_of_further.
      apply list_elem_of_here.
    + exists ("Left", (-1, 0)). split; [|done]. do 2 apply list_elem_of_further.
      apply list_elem_of_here.
    + exists ("Up", (0, -1)). split; [|done]. do 3 apply list_elem_of_further.
      apply list_elem_of_here.
  - intros (md & Hmd & Heq).
    repeat (apply elem_of_cons in Hmd as [->|Hmd]); try (by apply elem_of_nil in Hmd);
      cbn in Heq; simplify_eq; lia.
Qed.

Lemma hops_route mat s n p :
  hops mat s n p → ∃ mds, route mat s mds p ∧ length mds = n.
Proof.
  induction 1 as [Hs|n p p' Hh (mds & Hr & Hl) Hadj Hfree].
  - exists []. split; [constructor|done].
  - apply adjacent_move in Hadj as (md & Hmd & ->).
    exists (mds ++ [md]). split; [by apply route_snoc|]. rewrite length_app. cbn. lia.
Qed.

Lemma route_hops mat s mds p :
  free mat s → route mat s mds p → hops mat s (length mds) p.
Proof.
  intros Hs. induction 1 as [|mds p md Hr IH Hmd Hfree]; [by constructor|].
  rewrite length_app, Nat.add_1_r. eapply hops_S; [done| |done].
  apply adjacent_move. eauto.
Qed.

Lemma NoDup_fmap_eq {A B} (f : A → B) (l : list A) a b :
  NoDup (f <$> l) → a ∈ l → b ∈ l → f a = f b → a = b.
Proof.
  induction l as [|x l IH]; intros Hnd Ha Hb Hf; [by apply elem_of_nil in Ha|].
  cbn in Hnd. apply NoDup_cons in Hnd as [Hx Hnd].
  apply elem_of_cons in Ha as [->|Ha], Hb as [->|Hb]; try done.
  - destruct Hx. rewrite Hf. by apply list_elem_of_fmap_2.
  - destruct Hx. rewrite <- Hf. by apply list_elem_of_fmap_2.
  - by apply IH.
Qed.

Lemma route_key_snoc mds md : route_key (mds ++ [md]) = rank (name_of md) :: route_key mds.
Proof. unfold route_key. by rewrite !fmap_app, reverse_app. Qed.

Lemma NoDup_points_last (E' q : list Cell) h u :
  NoDup (cell_point <$> ((E' ++ [h]) ++ q)) → u ∈ E' → u ≠ h.
Proof.
  intros Hnd Hu ->. rewrite <- app_assoc, fmap_app in Hnd.
  apply NoDup_app in Hnd as (_ & Hdisj & _).
  apply (Hdisj (cell_point h)); [by apply list_elem_of_fmap_2|].
  cbn. apply list_elem_of_here.
Qed.

Lemma NoDup_points_queue (E q : list Cell) u :
  NoDup (cell_point <$> (E ++ q)) → u ∈ E → u ∉ q.
Proof.
  intros Hnd Hu Hq. rewrite fmap_app in Hnd.
  apply NoDup_app in Hnd as (_ & Hdisj & _).
  apply (Hdisj (cell_point u)); by apply list_elem_of_fmap_2.
Qed.

(** Every cell enqueued so far comes before the child the current move
    would add. *)
Lemma bfs_all_below mat sx sy ex ey pm E v q h md ms :
  bfs_inv mat sx sy ex ey pm E v q → last E = Some h →
  possible_moves = pm ++ md :: ms →
  ∀ n, n ∈ E ++ q → slex (rkey n) (rkey (child h md)).
Proof.
  intros Hinv Hlast Hpm n Hn. rewrite rkey_child.
  apply last_Some in Hlast as [E' ->].
  pose proof (bi_sorted _ _ _ _ _ _ _ _ _ Hinv) as Hsorted.
  assert (∀ p, p ∈ E' → slex (rkey p) (rkey h)) as Hbefore.
  { intros p Hp. rewrite <- app_assoc in Hsorted.
    eapply (StronglySorted_app_1_elem_of _ _ _ _ _ Hsorted Hp). apply list_elem_of_here. }
  apply elem_of_app in Hn as [Hn|Hn].
  - apply elem_of_app in Hn as [Hn|Hn%list_elem_of_singleton].
    + eapply slex_trans; [by apply Hbefore|apply slex_grow].
    + subst. apply slex_grow.
  - destruct (bi_parent _ _ _ _ _ _ _ _ _ Hinv n Hn) as [->|(p & md' & -> & Hp & Hmd')].
    + left. cbn. lia.
    + rewrite rkey_child.
      apply elem_of_app in Hp as [Hp|Hp%list_elem_of_singleton].
      * apply slex_cons. by apply Hbefore.
      * subst p. right. apply rlt_head. eapply rank_prefix; [done|].
        apply Hmd'. by rewrite last_snoc.
Qed.

Lemma bfs_inv_push mat sx sy ex ey pm E v q h md ms :
  bfs_inv mat sx sy ex ey pm E v q → last E = Some h →
  possible_moves = pm ++ md :: ms →
  bfs_inv mat sx sy ex ey (pm ++ [md]) E (push mat h md (v, q)).1 (push mat h md (v, q)).2.
Proof.
  intros Hinv Hlast Hpm.
  pose proof (bfs_all_below _ _ _ _ _ _ _ _ _ _ _ _ Hinv Hlast Hpm) as Hbelow.
  assert (md ∈ possible_moves) as Hmd.
  { rewrite Hpm. apply elem_of_app. right. apply list_elem_of_here. }
  assert (h ∈ E) as HhE.
  { apply last_Some in Hlast as [E' ->]. apply elem_of_app. right. apply list_elem_of_here. }
  destruct Hinv as [Hshape Hwf Hsorted Hnodup Hvis Hcount Hparent Hnbr Hnotdest Hdist Hlastd Hroot].
  assert (wf_cell mat sx sy h) as Hwfh.
  { eapply Forall_forall; [exact Hwf|]. apply elem_of_app. by left. }
  destruct (push_cases mat h md (v, q)) as [[Hvalid ->]|[Hvalid ->]]; cbn [fst snd] in *.
  - (* the neighbour is not enqueued *)
    split; try done.
    + intros n Hn. destruct (Hparent n Hn) as [->|(p & md' & -> & Hp & Hmd')]; [by left|].
      right. exists p, md'. split_and!; try done.
      intros Hl. apply elem_of_app. left. by apply Hmd'.
    + intros u md0 Hu Hmd0 Hprem Hfree.
      apply last_Some in Hlast as [E' ->].
      apply elem_of_app in Hu as [Hu|Hu%list_elem_of_singleton].
      * apply Hnbr; try done; [apply elem_of_app; by left|].
        rewrite last_snoc. intros [= <-]. by destruct (NoDup_points_last E' q h h Hnodup Hu).
      * subst u. rewrite last_snoc in Hprem. specialize (Hprem eq_refl).
        apply elem_of_app in Hprem as [Hprem|Hprem%list_elem_of_singleton].
        { apply Hnbr; try done. }
        subst md0. pose proof Hfree as (c & Hc & Hwall).
        destruct (cell_at_shape mat v _ _ (eq_sym Hshape) (mk_is_Some _ _ Hc)) as [b Hb].
        assert (b = true) as ->.
        { destruct b; [done|].
          assert (valid_b mat v (cell_x h + md.2.1) (cell_y h + md.2.2) = true) as Ht.
          { apply valid_b_true. split; [exact Hfree|exact Hb]. }
          pose proof (eq_trans (eq_sym Ht) Hvalid). discriminate. }
        apply Hvis in Hb. apply list_elem_of_fmap in Hb as (n & Hpt & Hn).
        exists n. split_and!; [done|done|]. right. by apply Hbelow.
  - (* the neighbour is marked and enqueued *)
    apply valid_b_true in Hvalid as [Hfree Hunvis].
    set (n' := child h md) in *.
    assert (cell_point n' ∉ cell_point <$> (E ++ q)) as Hfresh.
    { intros Hin. apply (Hvis (cell_x h + md.2.1) (cell_y h + md.2.2)) in Hin.
      pose proof (eq_trans (eq_sym Hin) Hunvis). discriminate. }
    split.
    + by rewrite mark_shape.
    + rewrite app_assoc. apply Forall_app. split; [done|]. apply Forall_singleton.
      by apply wf_child.
    + rewrite app_assoc. apply StronglySorted_app_2; [|done|repeat constructor].
      intros x1 x2 Hx1 ->%list_elem_of_singleton. by apply Hbelow.
    + rewrite app_assoc, fmap_app. apply NoDup_app. split_and!; [done| |apply NoDup_singleton].
      intros x Hx ->%list_elem_of_singleton. done.
    + intros x y. rewrite cell_at_mark by (by eexists).
      rewrite app_assoc, fmap_app, elem_of_app. cbn [fmap list_fmap].
      rewrite list_elem_of_singleton. case_bool_decide as Hxy.
      * destruct Hxy as [-> ->]. split; [by right|done].
      * rewrite Hvis. split; [by left|]. intros [Hold|Heq]; [done|].
        destruct Hxy. by injection Heq as -> ->.
    + apply mark_free_slots in Hunvis. rewrite app_assoc, length_app. cbn. lia.
    + intros n [Hn | ->%list_elem_of_singleton]%elem_of_app.
      * destruct (Hparent n Hn) as [->|(p & md' & -> & Hp & Hmd')]; [by left|].
        right. exists p, md'. split_and!; try done.
        intros Hl. apply elem_of_app. left. by apply Hmd'.
      * right. exists h, md. split_and!; try done.
        intros _. apply elem_of_app. right. apply list_elem_of_here.
    + intros u md0 Hu Hmd0 Hprem Hfree0.
      assert (∀ n, n ∈ E ++ q → n ∈ E ++ q ++ [n']) as Hmono.
      { intros n Hn. rewrite app_assoc. apply elem_of_app. by left. }
      apply last_Some in Hlast as [E' ->].
      apply elem_of_app in Hu as [Hu|Hu%list_elem_of_singleton].
      * destruct (Hnbr u md0) as (n & Hn & Hpt & Hle); try done; [apply elem_of_app; by left| |].
        { rewrite last_snoc. intros [= <-].
          by destruct (NoDup_points_last E' q h h Hnodup Hu). }
        exists n. split_and!; [by apply Hmono|done|done].
      * subst u. rewrite last_snoc in Hprem. specialize (Hprem eq_refl).
        apply elem_of_app in Hprem as [Hprem|Hprem%list_elem_of_singleton].
        { destruct (Hnbr h md0) as (n & Hn & Hpt & Hle); try done.
          exists n. split_and!; [by apply Hmono|done|done]. }
        subst md0. exists n'. split_and!; [|done|by left].
        rewrite app_assoc. apply elem_of_app. right. apply list_elem_of_here.
    + done.
    + intros n. rewrite app_assoc.
      intros [Hn | ->%list_elem_of_singleton]%elem_of_app; [by apply Hdist|].
      specialize (Hlastd h Hlast). cbn. lia.
    + done.
    + rewrite app_assoc. apply elem_of_app. by left.
Qed.

Lemma bfs_inv_expand mat sx sy ex ey E h ms :
  last E = Some h →
  ∀ pm v q,
    possible_moves = pm ++ ms →
    bfs_inv mat sx sy ex ey pm E v q →
    bfs_inv mat sx sy ex ey possible_moves E (expand mat h ms (v, q)).1
                                            (expand mat h ms (v, q)).2.
Proof.
  intros Hlast. induction ms as [|md ms IH]; intros pm v q Hpm Hinv.
  - rewrite app_nil_r in Hpm. by rewrite Hpm.
  - cbn [expand foldl].
    pose proof (bfs_inv_push _ _ _ _ _ _ _ _ _ _ _ _ Hinv Hlast Hpm) as Hinv'.
    specialize (IH (pm ++ [md]) (push mat h md (v, q)).1 (push mat h md (v, q)).2).
    rewrite <- surjective_pairing in IH. apply IH; [|done].
    by rewrite <- app_assoc.
Qed.

(** Dequeuing a cell that is not the destination. *)
Lemma bfs_inv_pop mat sx sy ex ey E v h q' :
  bfs_inv mat sx sy ex ey possible_moves E v (h :: q') →
  at_destination ex ey h = false →
  bfs_inv mat sx sy ex ey [] (E ++ [h]) v q'.
Proof.
  intros [Hshape Hwf Hsorted Hnodup Hvis Hcount Hparent Hnbr Hnotdest Hdist Hlastd Hroot] Hd.
  assert (∀ u, u ∈ E → u ≠ h) as Hne.
  { intros u Hu ->. eapply (NoDup_points_queue E (h :: q') h); [done..|].
    apply list_elem_of_here. }
  split; rewrite <- ?app_assoc; cbn [app]; try done.
  - intros n Hn. destruct (Hparent n) as [->|(p & md' & -> & Hp & Hmd')].
    { by apply elem_of_cons; right. }
    { by left. }
    right. exists p, md'. split_and!; [done|apply elem_of_app; by left|].
    rewrite last_snoc. intros [= <-]. by destruct (Hne h Hp).
  - intros u md0 Hu Hmd0 Hprem Hfree. rewrite last_snoc in Hprem.
    apply elem_of_app in Hu as [Hu|Hu%list_elem_of_singleton].
    + by apply Hnbr.
    + subst u. specialize (Hprem eq_refl). by apply elem_of_nil in Hprem.
  - intros u [Hu|Hu%list_elem_of_singleton]%elem_of_app; [by apply Hnotdest|by subst].
  - intros n Hn. specialize (Hdist n Hn). rewrite length_app. cbn. lia.
  - intros u. rewrite last_snoc. intros [= <-]. rewrite length_app. cbn.
    assert (cell_dist h ≤ Z.of_nat (length E)); [|lia].
    apply Hdist. apply elem_of_app. right. apply list_elem_of_here.
Qed.

Lemma bfs_head_step mat sx sy ex ey v c q' :
  bfs_head mat sx sy ex ey v (c :: q') → at_destination ex ey c = false →
  bfs_head mat sx sy ex ey (expand mat c possible_moves (v, q')).1
                           (expand mat c possible_moves (v, q')).2.
Proof.
  intros [E Hinv] Hd. exists (E ++ [c]).
  apply (bfs_inv_expand mat sx sy ex ey (E ++ [c]) c possible_moves (last_snoc _ _) []);
    [done|]. by apply bfs_inv_pop.
Qed.

Lemma bfs_head_initial mat sx sy ex ey v :
  in_maze mat (sx, sy) → initial_visited mat sx sy = Ret v →
  bfs_head mat sx sy ex ey v [root_cell sx sy].
Proof.
  intros Hin Hv. exists [].
  set (v0 := map (λ row, map (λ _ : string, false) row) mat).
  assert (shape v0 = shape mat) as Hs0 by apply shape_initial.
  destruct (cell_at_shape mat v0 sx sy (eq_sym Hs0) Hin) as [b Hb].
  assert (Forall (Forall (λ b, b = false)) v0) as Hall.
  { unfold v0. clear. induction mat as [|r mat IH]; constructor; [|done].
    induction r; by constructor. }
  assert (∀ x y c, cell_at v0 x y = Some c → c = false) as Hfalse.
  { intros x y c (_ & _ & row & Hrow & Hc)%cell_at_Some.
    eapply (Forall_lookup_1 _ _ _ _ (Forall_lookup_1 _ _ _ _ Hall Hrow) Hc). }
  unfold initial_visited in Hv. fold v0 in Hv. rewrite (mark_spec _ _ _ _ Hb) in Hv.
  injection Hv as <-.
  pose proof (Hfalse _ _ _ Hb) as ->.
  split; cbn [app fmap list_fmap length last].
  - by rewrite mark_shape.
  - apply Forall_singleton. constructor.
  - repeat constructor.
  - apply NoDup_singleton.
  - intros x y. rewrite cell_at_mark by (by eexists).
    rewrite list_elem_of_singleton. case_bool_decide as Hxy.
    + destruct Hxy as [-> ->]. done.
    + split; [intros Hc; by apply Hfalse in Hc|].
      intros Heq. destruct Hxy. by injection Heq as -> ->.
  - apply mark_free_slots in Hb. rewrite <- (free_slots_initial mat). fold v0. lia.
  - intros n Hn%list_elem_of_singleton. by left.
  - intros u md Hu. by apply elem_of_nil in Hu.
  - intros u Hu. by apply elem_of_nil in Hu.
  - intros n Hn%list_elem_of_singleton. subst n. cbn. lia.
  - done.
  - apply list_elem_of_here.
Qed.

(** Where a route ends, a cell has been enqueued with a key that is not
    larger, unless the route is already beyond the head of the queue. *)
Lemma bfs_route_met mat sx sy ex ey E v q mds p :
  bfs_inv mat sx sy ex ey possible_moves E v q →
  route mat (sx, sy) mds p →
  (∃ n, n ∈ E ++ q ∧ cell_point n = p ∧ sle (rkey n) (route_key mds))
  ∨ (∃ h, head q = Some h ∧ sle (rkey h) (route_key mds)).
Proof.
  intros Hinv Hr. induction Hr as [|mds p md Hr IH Hmd Hfree].
  - left. exists (root_cell sx sy).
    split_and!; [exact (bi_root _ _ _ _ _ _ _ _ _ Hinv)|done|by left].
  - rewrite route_key_snoc. destruct IH as [(n' & Hn' & Hpt & Hle)|(h & Hh & Hle)].
    + apply elem_of_app in Hn' as [Hn'|Hn'].
      * destruct (bi_nbr _ _ _ _ _ _ _ _ _ Hinv n' md) as (n & Hn & Hptn & Hlen);
          [done|done|done|by rewrite Hpt|].
        left. exists n. split_and!; [done|by rewrite Hptn, Hpt|].
        eapply sle_trans; [exact Hlen|]. rewrite rkey_child. by apply sle_cons.
      * right. destruct q as [|h q']; [by apply elem_of_nil in Hn'|].
        exists h. split; [done|]. right.
        eapply sle_slex_trans; [|apply slex_grow].
        eapply sle_trans; [|exact Hle].
        apply elem_of_cons in Hn' as [->|Hn']; [by left|]. right.
        pose proof (bi_sorted _ _ _ _ _ _ _ _ _ Hinv) as Hsorted.
        apply StronglySorted_app_1_r in Hsorted.
        apply StronglySorted_inv in Hsorted as [_ Hall].
        by eapply Forall_forall in Hall.
    + right. exists h. split; [done|]. right.
      eapply sle_slex_trans; [exact Hle|apply slex_grow].
Qed.

Lemma bfs_found mat sx sy ex ey v c q' :
  bfs_head mat sx sy ex ey v (c :: q') → at_destination ex ey c = true →
  wf_cell mat sx sy c ∧ cell_dist c < Z.of_nat (cell_count mat) ∧
  ∀ mds, route mat (sx, sy) mds (ex, ey) → sle (rkey c) (route_key mds).
Proof.
  intros [E Hinv] Hd. split_and!.
  - pose proof (bi_wf _ _ _ _ _ _ _ _ _ Hinv) as Hwf.
    eapply Forall_forall; [exact Hwf|]. apply elem_of_app. right. apply list_elem_of_here.
  - pose proof (bi_count _ _ _ _ _ _ _ _ _ Hinv) as Hcount.
    pose proof (bi_dist _ _ _ _ _ _ _ _ _ Hinv c) as Hdist.
    rewrite length_app in Hcount. cbn in Hcount.
    assert (cell_dist c ≤ Z.of_nat (length E)); [|lia].
    apply Hdist. apply elem_of_app. right. apply list_elem_of_here.
  - intros mds Hr.
    destruct (bfs_route_met _ _ _ _ _ _ _ _ _ _ Hinv Hr)
      as [(n & Hn & Hpt & Hle)|(h & Hh & Hle)].
    + assert (n = c) as ->; [|done].
      eapply (NoDup_fmap_eq cell_point); [exact (bi_nodup _ _ _ _ _ _ _ _ _ Hinv)|done| |].
      * apply elem_of_app. right. apply list_elem_of_here.
      * rewrite Hpt. symmetry. by apply at_destination_true.
    + by injection Hh as <-.
Qed.

Lemma bfs_exhausted mat sx sy ex ey v mds :
  bfs_head mat sx sy ex ey v [] → ¬ route mat (sx, sy) mds (ex, ey).
Proof.
  intros [E Hinv] Hr.
  destruct (bfs_route_met _ _ _ _ _ _ _ _ _ _ Hinv Hr)
    as [(n & Hn & Hpt & Hle)|(h & Hh & Hle)]; [|done].
  rewrite app_nil_r in Hn.
  pose proof (bi_notdest _ _ _ _ _ _ _ _ _ Hinv n Hn) as Hnd.
  apply at_destination_true in Hpt. congruence.
Qed.


(** The outcome of the loop for a source inside the maze. *)
Lemma search_from_the_maze mat sx sy ex ey fuel v r :
  in_maze mat (sx, sy) → initial_visited mat sx sy = Ret v →
  search mat ex ey fuel (v, [root_cell sx sy]) = Some r →
  match r with
  | Some c =>
      (wf_cell mat sx sy c ∧ cell_dist c < Z.of_nat (cell_count mat) ∧
       ∀ mds, route mat (sx, sy) mds (ex, ey) → sle (rkey c) (route_key mds))
      ∧ at_destination ex ey c = true
  | None => ∀ mds, ¬ route mat (sx, sy) mds (ex, ey)
  end.
Proof.
  intros Hin Hv Hsearch.
  pose proof (search_rule mat ex ey (bfs_head mat sx sy ex ey)
    (λ c, wf_cell mat sx sy c ∧ cell_dist c < Z.of_nat (cell_count mat) ∧
          ∀ mds, route mat (sx, sy) mds (ex, ey) → sle (rkey c) (route_key mds))) as Hrule.
  specialize (Hrule).
  assert (∀ v c q', bfs_head mat sx sy ex ey v (c :: q') →
            if at_destination ex ey c
            then wf_cell mat sx sy c ∧ cell_dist c < Z.of_nat (cell_count mat) ∧
                 ∀ mds, route mat (sx, sy) mds (ex, ey) → sle (rkey c) (route_key mds)
            else bfs_head mat sx sy ex ey (expand mat c possible_moves (v, q')).1
                                          (expand mat c possible_moves (v, q')).2) as Hstep.
  { intros v' c q' Hh. destruct (at_destination ex ey c) eqn:Hd.
    - by eapply bfs_found.
    - by apply bfs_head_step. }
  specialize (Hrule Hstep fuel (v, [root_cell sx sy]) r
                (bfs_head_initial mat sx sy ex ey v Hin Hv) Hsearch).
  destruct r as [c|]; [done|]. destruct Hrule as [v' Hv']. intros mds.
  by eapply bfs_exhausted.
Qed.

Lemma hops_free mat s n p : hops mat s n p → free mat s ∧ free mat p.
Proof. induction 1 as [|n p p' Hh [IH _]]; done. Qed.

Lemma moves_key c : rank <$> reverse (trail c).*2 = reverse (rkey c).
Proof. unfold rkey. by rewrite fmap_reverse. Qed.

Lemma fmap_inj_on {A B} (f : A → B) (P : A → Prop) (l l' : list A) :
  (∀ a b, P a → P b → f a = f b → a = b) →
  Forall P l → Forall P l' → f <$> l = f <$> l' → l = l'.
Proof.
  intros Hinj Hl. revert l'. induction Hl as [|a l Ha Hl IH]; intros [|b l'] Hl' Heq;
    try done.
  apply Forall_cons in Hl' as [Hb Hl']. cbn in Heq. injection Heq as Hab Heq.
  f_equal; [by apply Hinj|by apply IH].
Qed.

Lemma outcome_functional mat ex ey fuel1 fuel2 vq r1 r2 :
  outcome (search mat ex ey fuel1 vq) = Some r1 →
  outcome (search mat ex ey fuel2 vq) = Some r2 →
  r1 = r2.
Proof.
  destruct (search mat ex ey fuel1 vq) as [o1|] eqn:H1; [|done].
  destruct (search mat ex ey fuel2 vq) as [o2|] eqn:H2; [|done].
  apply (search_fuel_mono _ _ _ _ (fuel1 `max` fuel2)%nat) in H1; [|lia].
  apply (search_fuel_mono _ _ _ _ (fuel1 `max` fuel2)%nat) in H2; [|lia].
  assert (o1 = o2) as -> by congruence. congruence.
Qed.

(** Any two calls that end agree, whatever the fuel, the file and the
    progress settings, when their reports return. *)
Lemma find_shortest_path_functional
    file1 file2 fuel1 fuel2 w1 w2 mat s e pp1 pp2 cv1 cv2 r1 r2 :
  quiet file1 mat pp1 cv1 w1 → quiet file2 mat pp2 cv2 w2 →
  find_shortest_path file1 fuel1 w1 mat s e pp1 cv1 = Some r1 →
  find_shortest_path file2 fuel2 w2 mat s e pp2 cv2 = Some r2 →
  r1 = r2.
Proof.
  intros Hq1 Hq2. destruct s as [sx sy], e as [ex ey].
  destruct (decide (mat = [])) as [->|Hmat].
  { rewrite !find_shortest_path_empty. congruence. }
  destruct (at2 mat sx sy) as [a|] eqn:Hs, (at2 mat ex ey) as [b|] eqn:He.
  - destruct (find_shortest_path_search file1 fuel1 w1 mat sx sy ex ey pp1 cv1 Hmat)
      as (v & Hv & _ & _ & ->); [by eexists..|done|].
    destruct (find_shortest_path_search file2 fuel2 w2 mat sx sy ex ey pp2 cv2 Hmat)
      as (v' & Hv' & _ & _ & ->); [by eexists..|done|].
    assert (v' = v) as -> by congruence. apply outcome_functional.
  - rewrite !find_shortest_path_out_of_range; try done;
      [congruence|intros [_ [? ?]]; congruence..].
  - rewrite !find_shortest_path_out_of_range; try done;
      [congruence|intros [[? ?] _]; congruence..].
  - rewrite !find_shortest_path_out_of_range; try done;
      [congruence|intros [[? ?] _]; congruence..].
Qed.

(** Any two calls that return agree, whatever the worlds they are made in. *)
Lemma find_shortest_path_returns_same
    file1 file2 fuel1 fuel2 w1 w2 mat s e pp1 pp2 cv1 cv2 r1 r2 :
  find_shortest_path file1 fuel1 w1 mat s e pp1 cv1 = Some (Ret r1) →
  find_shortest_path file2 fuel2 w2 mat s e pp2 cv2 = Some (Ret r2) →
  r1 = r2.
Proof.
  destruct s as [sx sy], e as [ex ey].
  destruct (decide (mat = [])) as [->|Hmat].
  { rewrite !find_shortest_path_empty. congruence. }
  destruct (decide (in_range mat sx sy ∧ in_range mat ex ey)) as [[Hs He]|Hout].
  - intros (v & Hv & _ & _ & H1)%find_shortest_path_returns
           (v' & Hv' & _ & _ & H2)%find_shortest_path_returns; try done.
    assert (v' = v) as -> by congruence.
    pose proof (outcome_functional _ _ _ _ _ _ _ _ H1 H2). congruence.
  - rewrite !find_shortest_path_out_of_range by done. congruence.
Qed.

(** ** Evaluation on small mazes *)

(** The example of the specification: the path leaves the source out. *)
Example spec_example :
  find_shortest_path pathfinding_py 10 plain_world (maze_of ["S.."; "##."; "..E"]) (0, 0) (2, 2) false None
  = Some (Ret (Some [(1, 0); (2, 0); (2, 1); (2, 2)],
               Some [Some "Right"; Some "Right"; Some "Down"; Some "Down"])).
Proof. vm_compute. reflexivity. Qed.

(** The tie-break at work: of the two shortest paths across an open 2x2
    maze, the one that starts with Right is returned. *)
Example tie_break_prefers_right :
  find_shortest_path pathfinding_py 5 plain_world (maze_of ["S."; ".E"]) (0, 0) (1, 1) false None
  = Some (Ret (Some [(1, 0); (1, 1)], Some [Some "Right"; Some "Down"])).
Proof. vm_compute. reflexivity. Qed.

(** Two rows that are one list object: the write of [print_path] to the
    first shows in the second; in rows that are two objects it does not. *)
Example shared_rows_show_every_write :
  print_path [0; 0]%nat [["S"; "."]; ["S"; "."]] (Some [T2 0 0; T2 1 0]) false
  = Ret ["@."; "@."] ∧
  print_path [0; 1]%nat [["S"; "."]; ["S"; "."]] (Some [T2 0 0; T2 1 0]) false
  = Ret ["@."; "S."].
Proof. split; vm_compute; reflexivity. Qed.

(** The window closed while the search runs: the [QUIT] is handled at the
    end of the first [gui_update], and the second one raises. *)
Example window_closed_during_the_search :
  find_shortest_path pathfinding_py 5 (World [] false true [[QUIT]]) (maze_of ["S.E"])
    (0, 0) (2, 0) true (Some (SurfaceHandle 1024 1024))
  = Some (Raise PygameError).
Proof. vm_compute. reflexivity. Qed.

(** * The claims *)

(** C1: when a path of free cells joins the source to the destination, the
    call succeeds, the returned moves trace such a path, and no path between
    the two has fewer moves.  The call is one whose progress report returns:
    there is none, or it goes to the console, or the window is calm. *)
Theorem returned_moves_are_a_shortest_path file fuel w mat s e pp canvas n :
  hops mat s n e →
  Z.of_nat (cell_count mat) < sys_maxsize →
  (cell_count mat < fuel)%nat →
  quiet file mat pp canvas w →
  ∃ path moves,
    find_shortest_path file fuel w mat s e pp canvas = Some (Ret (Some path, Some moves)) ∧
    hops mat s (length moves) e ∧
    ∀ m, hops mat s m e → (length moves ≤ m)%nat.
Proof.
  destruct s as [sx sy], e as [ex ey]. intros Hhops Hsize Hfuel Hquiet.
  destruct (hops_free _ _ _ _ Hhops) as [Hs He].
  pose proof (free_in_maze _ _ Hs) as Hsm. pose proof (free_in_maze _ _ He) as Hem.
  pose proof (in_maze_in_range _ _ _ Hsm) as Hsr.
  pose proof (in_maze_in_range _ _ _ Hem) as Her.
  destruct (find_shortest_path_search file fuel w mat sx sy ex ey pp canvas
              (in_range_nonempty _ _ _ Hsr) Hsr Her Hquiet) as (v & Hv & _ & Hfree & ->).
  destruct (search_terminates mat ex ey fuel (v, [root_cell sx sy])) as [r Hr].
  { unfold measure. cbn [fst snd length]. rewrite Hfree. exact Hfuel. }
  rewrite Hr. pose proof (search_from_the_maze _ _ _ _ _ _ _ _ Hsm Hv Hr) as Hout.
  destruct r as [c|].
  - destruct Hout as [(Hwf & Hdist & Hmin) Hd%at_destination_true].
    cbn [outcome]. rewrite (proj2 (Z.eqb_neq _ _)) by lia.
    eexists _, _. split; [done|].
    destruct (wf_cell_route _ _ _ _ Hwf) as (mds & Hroute & _ & Hlen).
    rewrite length_reverse, length_fmap. split.
    + rewrite <- Hlen. rewrite Hd in Hroute. by apply route_hops.
    + intros m (mds' & Hroute' & <-)%hops_route.
      apply Hmin, sle_length in Hroute'. rewrite rkey_length in Hroute'.
      unfold route_key in Hroute'. by rewrite length_reverse, !length_fmap in Hroute'.
  - destruct (hops_route _ _ _ _ Hhops) as (mds & Hroute & _). by destruct (Hout mds).
Qed.

Lemma returned_moves_are_a_shortest_path_witness :
  ∃ path moves,
    find_shortest_path pathfinding_py 4 plain_world (maze_of ["S.E"]) (0, 0) (2, 0) false None
    = Some (Ret (Some path, Some moves)) ∧
    hops (maze_of ["S.E"]) (0, 0) (length moves) (2, 0) ∧
    ∀ m, hops (maze_of ["S.E"]) (0, 0) m (2, 0) → (length moves ≤ m)%nat.
Proof.
  apply (returned_moves_are_a_shortest_path pathfinding_py 4 plain_world (maze_of ["S.E"])
           (0, 0) (2, 0) false None 2).
  - apply (hops_S _ _ 1 (1, 0)); [apply (hops_S _ _ 0 (0, 0)); [apply hops_O|..]|..];
      try (vm_compute; reflexivity);
      (eexists; split; [vm_compute; reflexivity|discriminate]).
  - vm_compute. reflexivity.
  - vm_compute. lia.
  - intros Hpp. discriminate Hpp.
Defined.

(** C2, as the code has it: on success [len(moves) == len(path)], since
    [path] leaves the source cell out.  With equal end points both lists
    are empty; otherwise [path[-1]] is the destination and [path[0]] is the
    cell reached from the source by [moves[0]]. *)
Theorem path_and_moves_of_a_success file fuel w mat s e pp canvas path moves :
  find_shortest_path file fuel w mat s e pp canvas = Some (Ret (Some path, Some moves)) →
  length moves = length path ∧
  (s = e → path = [] ∧ moves = []) ∧
  (s ≠ e → last path = Some e ∧
           ∃ md, md ∈ possible_moves ∧ head moves = Some (name_of md) ∧
                 head path = Some (step s md)).
Proof.
  destruct s as [sx sy], e as [ex ey]. intros Hfsp.
  apply find_shortest_path_success in Hfsp
    as (v & c & Hv & Hshape & Hin & Hsearch & Hwf & Hpt & -> & ->).
  split_and!.
  - by rewrite !length_reverse, !length_fmap.
  - intros [= <- <-]. destruct fuel as [|fuel]; [done|]. cbn [search snd] in Hsearch.
    assert (at_destination sx sy (root_cell sx sy) = true) as Hd
      by by apply at_destination_true.
    rewrite Hd in Hsearch. by simplify_eq.
  - intros Hne. destruct (wf_cell_points _ _ _ _ Hwf) as (mds & Hr & Hn & Hp).
    destruct (wf_cell_root_or_child _ _ _ _ Hwf) as [->|(p & md & -> & Hwfp & Hmd & Hfree)].
    { by destruct Hne. }
    split.
    + rewrite trail_child. cbn [fmap list_fmap fst]. rewrite reverse_cons, last_snoc.
      by rewrite <- cell_point_child, Hpt.
    + rewrite Hn, Hp. apply route_moves in Hr. destruct mds as [|md0 mds].
      { rewrite trail_child in Hn. cbn [fmap list_fmap snd] in Hn.
        rewrite reverse_cons in Hn. by destruct (reverse (trail p).*2). }
      apply Forall_cons in Hr as [Hmd0 _]. exists md0. done.
Qed.

Lemma path_and_moves_of_a_success_witness :
  let mat := maze_of ["SE"] in
  length [Some "Right"] = length [(1, 0)] ∧
  ((0, 0) = (1, 0) → [(1, 0)] = [] ∧ [Some "Right"] = @nil (option string)) ∧
  ((0, 0) ≠ (1, 0) → last [(1, 0)] = Some (1, 0) ∧
     ∃ md, md ∈ possible_moves ∧ head [Some "Right"] = Some (name_of md) ∧
           head [(1, 0)] = Some (step (0, 0) md)).
Proof.
  intros mat.
  apply (path_and_moves_of_a_success pathfinding_py 3 plain_world mat (0, 0) (1, 0)
           false None).
  vm_compute. reflexivity.
Defined.

(** C2 as stated fails: for the one-row maze [SE] the call succeeds with
    [path = [(1, 0)]] and [moves = ["Right"]], so [len(moves)] is not
    [len(path) - 1] and [path[0]] is not the source. *)
Lemma path_and_moves_counterexample :
  ∃ path moves,
    find_shortest_path pathfinding_py 3 plain_world (maze_of ["SE"]) (0, 0) (1, 0) false None
    = Some (Ret (Some path, Some moves)) ∧
    ¬ (len moves = len path - 1 ∧ head path = Some (0, 0) ∧ last path = Some (1, 0)).
Proof.
  exists [(1, 0)], [Some "Right"]. split; [vm_compute; reflexivity|].
  intros (H & _ & _). vm_compute in H. discriminate.
Qed.




(** C4: the claim is right and the code misses it.  The base case compares
    the maze cell with the integer [0], which a string never equals, so on a
    non-empty maze it never answers "invalid"; a source on a wall is not
    rejected: the loop runs and a path is returned. *)
Theorem wall_source_is_not_rejected :
  (∀ mat sx sy ex ey, mat ≠ [] → invalid_input mat sx sy ex ey ≠ Ret true) ∧
  invalid_input (maze_of ["#."]) 0 0 1 0 = Ret false ∧
  ∀ file,
    find_shortest_path file 3 plain_world (maze_of ["#."]) (0, 0) (1, 0) false None
    = Some (Ret (Some [(1, 0)], Some [Some "Right"])).
Proof.
  split_and!.
  - intros mat sx sy ex ey Hmat. rewrite invalid_input_spec, bool_decide_eq_false_2 by done.
    by destruct (at2 mat sx sy), (at2 mat ex ey).
  - vm_compute. reflexivity.
  - intros []; vm_compute; reflexivity.
Qed.

(** C5, as the code has it: with enough fuel the call always ends, with
    a value or an exception.  An empty maze gives [(None, None)]; a non-empty maze with both end points
    valid subscript pairs gives [(None, None)] or a pair of lists, when the
    progress report returns; a non-empty maze with an end point outside the
    subscript range raises [IndexError]. *)
Theorem outcomes_of_a_call file fuel w mat sx sy ex ey pp canvas :
  (cell_count mat < fuel)%nat →
  let r := find_shortest_path file fuel w mat (sx, sy) (ex, ey) pp canvas in
  is_Some r ∧
  (mat = [] → r = Some (Ret (None, None))) ∧
  (mat ≠ [] → in_range mat sx sy → in_range mat ex ey → quiet file mat pp canvas w →
   r = Some (Ret (None, None)) ∨ ∃ path moves, r = Some (Ret (Some path, Some moves))) ∧
  (mat ≠ [] → ¬ (in_range mat sx sy ∧ in_range mat ex ey) → r = Some (Raise IndexError)).
Proof.
  intros Hfuel r. subst r. split_and!.
  - destruct (decide (mat = [])) as [->|Hmat]; [done|].
    destruct (decide (in_range mat sx sy ∧ in_range mat ex ey)) as [[Hs He]|Hout].
    + destruct (find_shortest_path_cases file fuel w mat sx sy ex ey pp canvas Hmat Hs He)
        as (v & _ & _ & Hfree & [(e & -> & _)| ->]); [done|].
      destruct (search_terminates mat ex ey fuel (v, [root_cell sx sy])) as [[c|] ->];
        [|done..].
      unfold measure. cbn [fst snd length]. rewrite Hfree. exact Hfuel.
    + by rewrite find_shortest_path_out_of_range.
  - intros ->. done.
  - intros Hmat Hs He Hquiet.
    destruct (find_shortest_path_search file fuel w mat sx sy ex ey pp canvas Hmat Hs He
                Hquiet) as (v & _ & _ & Hfree & ->).
    destruct (search_terminates mat ex ey fuel (v, [root_cell sx sy])) as [[c|] ->].
    { unfold measure. cbn [fst snd length]. rewrite Hfree. exact Hfuel. }
    + cbn [outcome]. destruct (cell_dist c =? sys_maxsize); eauto.
    + by left.
  - intros Hmat Hout. by apply find_shortest_path_out_of_range.
Qed.

Lemma outcomes_of_a_call_witness :
  let mat := maze_of ["SE"] in
  let r := find_shortest_path pathfinding_py 3 plain_world mat (0, 0) (1, 0) false None in
  is_Some r ∧
  (mat = [] → r = Some (Ret (None, None))) ∧
  (mat ≠ [] → in_range mat 0 0 → in_range mat 1 0 →
   quiet pathfinding_py mat false None plain_world →
   r = Some (Ret (None, None)) ∨ ∃ path moves, r = Some (Ret (Some path, Some moves))) ∧
  (mat ≠ [] → ¬ (in_range mat 0 0 ∧ in_range mat 1 0) → r = Some (Raise IndexError)).
Proof.
  intros mat.
  apply (outcomes_of_a_call pathfinding_py 3 plain_world mat 0 0 1 0 false None).
  vm_compute. lia.
Defined.

(** C5 as stated fails: a destination outside the maze makes the call
    raise [IndexError]. *)
Lemma out_of_bounds_counterexample :
  find_shortest_path pathfinding_py 3 plain_world (maze_of ["SE"]) (0, 0) (5, 0) false None
  = Some (Raise IndexError).
Proof. vm_compute. reflexivity. Qed.





(** C7, as the code has it: a call whose progress report returns, which
    every report to the console does, gives what the call without report
    gives; whatever the world, a call with the report that returns a value
    returns the value of the call without report; and the report, when it
    returns, leaves [visited], [q], [cell] and [min_dist] as they were. *)
Theorem progress_report_is_transparent file fuel w mat s e pp canvas :
  (quiet file mat pp canvas w →
   find_shortest_path file fuel w mat s e pp canvas
   = find_shortest_path file fuel w mat s e false None) ∧
  find_shortest_path file fuel w mat s e pp None
  = find_shortest_path file fuel w mat s e false None ∧
  (∀ r, find_shortest_path file fuel w mat s e pp canvas = Some (Ret r) →
        find_shortest_path file fuel w mat s e false None = Some (Ret r)) ∧
  ∀ x y dist move st st',
    report_progress file mat canvas x y dist move st = Ret st' →
    visited st' = visited st ∧ q st' = q st ∧ cell st' = cell st ∧
    min_dist st' = min_dist st.
Proof.
  assert (∀ pp', quiet file mat pp' None w) as Hconsole.
  { intros pp' _ [cv Hcv]. discriminate Hcv. }
  split_and!.
  - intros Hquiet. by apply find_shortest_path_independent.
  - by apply find_shortest_path_independent.
  - destruct s as [sx sy], e as [ex ey]. intros r Hr.
    destruct (decide (mat = [])) as [->|Hmat]; [done|].
    destruct (decide (in_range mat sx sy ∧ in_range mat ex ey)) as [[Hs He]|Hout].
    + apply find_shortest_path_returns in Hr as (v & Hv & _ & _ & Hr); [|done..].
      destruct (find_shortest_path_search file fuel w mat sx sy ex ey false None Hmat Hs He
                  (Hconsole false)) as (v' & Hv' & _ & _ & ->).
      congruence.
    + rewrite find_shortest_path_out_of_range in Hr by done. discriminate Hr.
  - intros x y dist move st st'. apply report_progress_core.
Qed.

Lemma progress_report_is_transparent_witness :
  find_shortest_path Boi_pathfinding_py 4 open_window (maze_of ["S.E"]) (0, 0) (2, 0)
    true (Some (SurfaceHandle 1024 1024))
  = find_shortest_path Boi_pathfinding_py 4 open_window (maze_of ["S.E"]) (0, 0) (2, 0)
      false None.
Proof.
  apply (proj1 (progress_report_is_transparent Boi_pathfinding_py 4 open_window
                  (maze_of ["S.E"]) (0, 0) (2, 0) true (Some (SurfaceHandle 1024 1024)))).
  intros _ _. vm_compute. reflexivity.
Defined.

(** C7 as stated fails: on the maze [SxE], whose middle cell is no wall and
    is not a key of [color_map], the call with the report on a canvas raises
    [KeyError] in [gui_update], and the call without report returns a path. *)
Lemma progress_report_counterexample :
  find_shortest_path pathfinding_py 4 open_window (maze_of ["SxE"]) (0, 0) (2, 0)
    true (Some (SurfaceHandle 1024 1024))
  = Some (Raise KeyError) ∧
  find_shortest_path Boi_pathfinding_py 4 open_window (maze_of ["SxE"]) (0, 0) (2, 0)
    true (Some (SurfaceHandle 1024 1024))
  = Some (Raise KeyError) ∧
  find_shortest_path pathfinding_py 4 open_window (maze_of ["SxE"]) (0, 0) (2, 0)
    false (Some (SurfaceHandle 1024 1024))
  = Some (Ret (Some [(1, 0); (2, 0)], Some [Some "Right"; Some "Right"])) ∧
  find_shortest_path Boi_pathfinding_py 4 open_window (maze_of ["SxE"]) (0, 0) (2, 0)
    false (Some (SurfaceHandle 1024 1024))
  = Some (Ret (Some [(1, 0); (2, 0)], Some [Some "Right"; Some "Right"])).
Proof. split_and!; vm_compute; reflexivity. Qed.

(** C8: two calls on the same maze and end points that both end return the
    same value, whatever the fuel, the file and the progress settings, when
    their progress reports return; two calls that return a value return the
    same one, whatever the worlds they are made in; the moves are tried in
    the order Right, Down, Left, Up; and among the move sequences of the
    returned length that lead from a source inside the maze to the
    destination through free cells, the returned one is the first in the
    lexicographic order of that iteration order. *)
Theorem search_is_deterministic mat s e :
  (∀ file1 file2 fuel1 fuel2 w1 w2 pp1 pp2 canvas1 canvas2 r1 r2,
     quiet file1 mat pp1 canvas1 w1 → quiet file2 mat pp2 canvas2 w2 →
     find_shortest_path file1 fuel1 w1 mat s e pp1 canvas1 = Some r1 →
     find_shortest_path file2 fuel2 w2 mat s e pp2 canvas2 = Some r2 →
     r1 = r2) ∧
  (∀ file1 file2 fuel1 fuel2 w1 w2 pp1 pp2 canvas1 canvas2 r1 r2,
     find_shortest_path file1 fuel1 w1 mat s e pp1 canvas1 = Some (Ret r1) →
     find_shortest_path file2 fuel2 w2 mat s e pp2 canvas2 = Some (Ret r2) →
     r1 = r2) ∧
  possible_moves.*1 = ["Right"; "Down"; "Left"; "Up"] ∧
  (∀ file fuel w pp canvas path moves mds,
     in_maze mat s →
     find_shortest_path file fuel w mat s e pp canvas = Some (Ret (Some path, Some moves)) →
     route mat s mds e → length mds = length moves →
     moves = name_of <$> mds ∨ lex_lt (rank <$> moves) (rank <$> (name_of <$> mds))).
Proof.
  split_and!.
  - intros *. apply find_shortest_path_functional.
  - intros *. apply find_shortest_path_returns_same.
  - done.
  - destruct s as [sx sy], e as [ex ey].
    intros file fuel w pp canvas path moves mds Hsm Hfsp Hroute Hlen.
    apply find_shortest_path_success in Hfsp
      as (v & c & Hv & _ & _ & Hsearch & Hwf & Hpt & -> & ->).
    pose proof (search_from_the_maze _ _ _ _ _ _ _ _ Hsm Hv Hsearch) as [(_ & _ & Hmin) _].
    destruct (wf_cell_route _ _ _ _ Hwf) as (mds0 & Hroute0 & Hnames & _).
    destruct (Hmin mds Hroute) as [Heq|[Hlt|Hlt]].
    + left. rewrite Hnames. f_equal.
      apply (fmap_inj_on (λ md, rank (name_of md)) (λ md, md ∈ possible_moves)).
      * intros a b. apply rank_inj.
      * by eapply route_moves.
      * by eapply route_moves.
      * change (λ md : string * Point, rank (name_of md)) with (rank ∘ name_of).
        rewrite !list_fmap_compose, <- Hnames, moves_key, Heq.
        unfold route_key. by rewrite reverse_involutive.
    + rewrite rkey_length in Hlt. unfold route_key in Hlt.
      rewrite length_reverse, !length_fmap in Hlt.
      rewrite length_reverse, length_fmap in Hlen. lia.
    + right. apply rlt_lex_lt in Hlt. rewrite moves_key.
      unfold route_key in Hlt. by rewrite reverse_involutive in Hlt.
Qed.

(** C9: with the progress report disabled the two files return the same
    value on every input, whatever the worlds and the canvases; and so they
    do with the report enabled, when it returns in both. *)
Theorem both_files_return_the_same fuel w1 w2 mat s e canvas1 canvas2 :
  find_shortest_path pathfinding_py fuel w1 mat s e false canvas1
  = find_shortest_path Boi_pathfinding_py fuel w2 mat s e false canvas2 ∧
  ∀ pp,
    quiet pathfinding_py mat pp canvas1 w1 → quiet Boi_pathfinding_py mat pp canvas2 w2 →
    find_shortest_path pathfinding_py fuel w1 mat s e pp canvas1
    = find_shortest_path Boi_pathfinding_py fuel w2 mat s e pp canvas2.
Proof.
  split.
  - apply find_shortest_path_independent; intros Hpp; discriminate Hpp.
  - intros pp. apply find_shortest_path_independent.
Qed.

(** C10: on a non-empty maze the entry check subscripts the maze the way
    Python does, a negative subscript counting from the end of the column or
    of the row: it answers [False], for "not invalid", exactly when both end
    points read a cell that way, and raises [IndexError] otherwise, so end
    points with negative coordinates in range are not rejected.  The loop
    then starts from the queue cell that holds the literal coordinates, with
    the overlay marked where the source reads. *)
Theorem negative_endpoints_are_accepted file fuel w mat sx sy ex ey pp canvas :
  mat ≠ [] →
  (invalid_input mat sx sy ex ey = Ret false ↔
   (∃ c, reads mat sx sy c) ∧ (∃ c, reads mat ex ey c)) ∧
  (invalid_input mat sx sy ex ey ≠ Ret false →
   invalid_input mat sx sy ex ey = Raise IndexError ∧
   find_shortest_path file fuel w mat (sx, sy) (ex, ey) pp canvas
   = Some (Raise IndexError)) ∧
  (invalid_input mat sx sy ex ey = Ret false →
   ∃ v,
     initial_visited mat sx sy = Ret v ∧ reads v sx sy true ∧
     q (initial_locals w v sx sy) = [mkCell sx sy 0 None None] ∧
     find_shortest_path file fuel w mat (sx, sy) (ex, ey) pp canvas =
     match while_q file mat ex ey pp canvas fuel (initial_locals w v sx sy) with
     | None => None
     | Some (Raise e) => Some (Raise e)
     | Some (Ret st) => Some (Ret (returned st))
     end).
Proof.
  intros Hmat.
  assert (invalid_input mat sx sy ex ey = Ret false ↔
          in_range mat sx sy ∧ in_range mat ex ey) as Hguard.
  { rewrite invalid_input_spec, bool_decide_eq_false_2 by done. unfold in_range.
    destruct (at2 mat sx sy), (at2 mat ex ey); split; try done;
      intros [[? ?] [? ?]]; done. }
  split_and!.
  - rewrite Hguard. unfold in_range, is_Some. by setoid_rewrite at2_reads.
  - intros Hno. rewrite Hguard in Hno.
    split; [|by apply find_shortest_path_out_of_range].
    rewrite invalid_input_spec, bool_decide_eq_false_2 by done.
    destruct (at2 mat sx sy) eqn:Hs, (at2 mat ex ey) eqn:He; try done.
    destruct Hno. unfold in_range. rewrite Hs, He. eauto.
  - intros [Hs He]%Hguard.
    destruct (find_shortest_path_in_range file fuel w mat sx sy ex ey pp canvas Hmat Hs He)
      as (v & Hv & Hshape & _ & Heq).
    exists v. split_and!; try done.
    pose proof Hv as Hv'. unfold initial_visited in Hv'.
    apply py_setitem2_Ret in Hv' as (j & row & i & Hj & Hr & Hi & Hveq).
    pose proof (py_norm_lt _ _ _ Hj) as Hjlt. pose proof (py_norm_lt _ _ _ Hi) as Hilt.
    apply at2_reads. unfold at2. rewrite Hveq, !length_insert, Hj.
    rewrite list_lookup_insert_eq by done. rewrite length_insert, Hi.
    by apply list_lookup_insert_eq.
Qed.

Lemma negative_endpoints_are_accepted_witness :
  invalid_input (maze_of [".."]) (-1) 0 0 0 = Ret false ∧
  find_shortest_path pathfinding_py 3 plain_world (maze_of [".."]) (-1, 0) (0, 0) false None
  = Some (Ret (Some [(0, 0)], Some [Some "Right"])).
Proof.
  assert (maze_of [".."] ≠ []) as Hmat by done.
  destruct (negative_endpoints_are_accepted pathfinding_py 3 plain_world (maze_of [".."])
              (-1) 0 0 0 false None Hmat) as (Hguard & _ & Hstart).
  assert (invalid_input (maze_of [".."]) (-1) 0 0 0 = Ret false) as Hok.
  { apply Hguard. split; exists "."; exists ["."; "."]; vm_compute; split_and!;
      try reflexivity; discriminate. }
  split; [exact Hok|].
  destruct (Hstart Hok) as (v & Hv & _ & _ & ->).
  vm_compute in Hv. injection Hv as <-. vm_compute. reflexivity.
Defined.

(** * Further properties of the two files *)

(** ** The search *)

Lemma walk_snoc mat p mds p' md :
  walk mat p mds p' → md ∈ possible_moves → free mat (step p' md) →
  walk mat p (mds ++ [md]) (step p' md).
Proof.
  induction 1 as [p|p md0 mds p' Hmd0 Hfree0 Hw IH]; intros Hmd Hfree.
  - apply walk_cons; [done..|constructor].
  - cbn. apply walk_cons; [done..|]. by apply IH.
Qed.

Lemma walk_app mat p a m b p' :
  walk mat p a m → walk mat m b p' → walk mat p (a ++ b) p'.
Proof.
  induction 1 as [p|p md0 mds m Hmd0 Hfree0 Hw IH]; intros Hb; [done|].
  cbn. apply walk_cons; [done..|]. by apply IH.
Qed.

Lemma walk_app_inv mat p a b p' :
  walk mat p (a ++ b) p' →
  walk mat p a (foldl step p a) ∧ walk mat (foldl step p a) b p'.
Proof.
  revert p. induction a as [|md a IH]; intros p Hw; cbn in *.
  - split; [constructor|done].
  - inversion Hw as [|? ? ? ? Hmd Hfree Hw']; subst.
    destruct (IH _ Hw') as [H1 H2]. split; [by apply walk_cons|done].
Qed.

Lemma route_walk mat s mds p : route mat s mds p ↔ walk mat s mds p.
Proof.
  split.
  - induction 1 as [|mds p md Hr IH Hmd Hfree]; [constructor|]. by apply walk_snoc.
  - revert p. induction mds as [|md mds IH] using rev_ind; intros p Hw.
    + inversion Hw; subst. constructor.
    + apply walk_app_inv in Hw as [H1 H2].
      inversion H2 as [|? ? ? ? Hmd Hfree H3]; subst. inversion H3; subst.
      apply route_snoc; [by apply IH|done..].
Qed.

Lemma points_along_lookup mds s i :
  (i ≤ length mds)%nat →
  (s :: points_along s mds) !! i = Some (foldl step s (take i mds)).
Proof.
  revert s i. induction mds as [|md mds IH]; intros s [|i] Hi; cbn in *; try done; [lia|].
  apply IH. lia.
Qed.

Lemma points_along_length mds s : length (points_along s mds) = length mds.
Proof. revert s. induction mds as [|md mds IH]; intros s; [done|]. cbn. by rewrite IH. Qed.

Lemma walk_points_free mat s mds p :
  walk mat s mds p → Forall (free mat) (points_along s mds).
Proof. induction 1; cbn; [constructor|by constructor]. Qed.

(** A route that no other route undercuts enters no cell twice and never
    comes back to where it starts. *)
Lemma shortest_route_simple mat s mds e :
  route mat s mds e →
  (∀ mds', route mat s mds' e → (length mds ≤ length mds')%nat) →
  NoDup (s :: points_along s mds).
Proof.
  intros Hroute Hmin.
  assert (∀ i j x, (i < j)%nat →
            ((s :: points_along s mds) !! i = Some x) →
            ((s :: points_along s mds) !! j = Some x) → False) as Hcut.
  { intros i j x Hij Hi Hj.
    pose proof (lookup_lt_Some _ _ _ Hj) as Hjlt.
    cbn [length] in Hjlt. rewrite points_along_length in Hjlt.
    rewrite points_along_lookup in Hi by lia. rewrite points_along_lookup in Hj by lia.
    simplify_eq. pose proof Hroute as Hroute0.
    apply route_walk in Hroute.
    rewrite <- (take_drop i mds) in Hroute. apply walk_app_inv in Hroute as [Hw1 _].
    apply route_walk in Hroute0.
    rewrite <- (take_drop j mds) in Hroute0. apply walk_app_inv in Hroute0 as [_ Hw2].
    rewrite <- Hi in Hw2.
    pose proof (walk_app _ _ _ _ _ _ Hw1 Hw2) as Hshort. apply route_walk in Hshort.
    apply Hmin in Hshort.
    rewrite length_app, length_take, length_drop in Hshort. lia. }
  apply NoDup_alt. intros i j x Hi Hj.
  destruct (Nat.lt_trichotomy i j) as [Hlt|[->|Hgt]]; [|done|].
  - by destruct (Hcut i j x).
  - by destruct (Hcut j i x).
Qed.

(** What a successful call returns, from a source inside the maze: the
    names and the cells of a route that no other route undercuts. *)
Lemma find_shortest_path_route file fuel w mat sx sy ex ey pp canvas path moves :
  in_maze mat (sx, sy) →
  find_shortest_path file fuel w mat (sx, sy) (ex, ey) pp canvas
  = Some (Ret (Some path, Some moves)) →
  ∃ mds, route mat (sx, sy) mds (ex, ey) ∧ moves = name_of <$> mds ∧
         path = points_along (sx, sy) mds ∧
         ∀ mds', route mat (sx, sy) mds' (ex, ey) → (length mds ≤ length mds')%nat.
Proof.
  intros Hsm Hfsp.
  apply find_shortest_path_success in Hfsp
    as (v & c & Hv & _ & _ & Hsearch & Hwf & Hpt & -> & ->).
  pose proof (search_from_the_maze _ _ _ _ _ _ _ _ Hsm Hv Hsearch) as [(_ & _ & Hmin) _].
  destruct (wf_cell_points _ _ _ _ Hwf) as (mds & Hroute & Hnames & Hpts).
  rewrite Hpt in Hroute. exists mds. split_and!; try done.
  intros mds' Hr'. apply Hmin, sle_length in Hr'. unfold route_key, rkey in Hr'.
  rewrite length_reverse, !length_fmap in Hr'.
  apply (f_equal length) in Hnames. rewrite length_reverse, !length_fmap in Hnames. lia.
Qed.

(** X1: the path of a successful call is a walk through the maze: some
    sequence of entries of [possible_moves] leads from the source to the
    destination, every cell it enters is inside the maze and not a wall,
    [moves] lists the names of these entries and [path] the cells entered,
    in order. *)
Theorem returned_path_follows_the_moves file fuel w mat s e pp canvas path moves :
  find_shortest_path file fuel w mat s e pp canvas = Some (Ret (Some path, Some moves)) →
  ∃ mds, route mat s mds e ∧ moves = name_of <$> mds ∧ path = points_along s mds.
Proof.
  destruct s as [sx sy], e as [ex ey]. intros Hfsp.
  apply find_shortest_path_success in Hfsp
    as (v & c & _ & _ & _ & _ & Hwf & Hpt & -> & ->).
  destruct (wf_cell_points _ _ _ _ Hwf) as (mds & Hr & Hn & Hp).
  exists mds. by rewrite <- Hpt.
Qed.

Lemma returned_path_follows_the_moves_witness :
  ∃ mds, route (maze_of ["S."; "#E"]) (0, 0) mds (1, 1) ∧
         [Some "Right"; Some "Down"] = name_of <$> mds ∧
         [(1, 0); (1, 1)] = points_along (0, 0) mds.
Proof.
  apply (returned_path_follows_the_moves pathfinding_py 5 plain_world
           (maze_of ["S."; "#E"]) (0, 0) (1, 1) false None).
  vm_compute. reflexivity.
Defined.

(** X2: from a source cell inside the maze, with a destination that is a
    valid subscript pair, the call returns [(None, None)] exactly when no
    sequence of moves leads from the source to the destination through free
    cells.  The source cell itself is never tested: a source on a wall is
    searched from like any other cell.  The call is one whose progress
    report returns. *)
Theorem not_found_exactly_when_unreachable file fuel w mat sx sy ex ey pp canvas :
  in_maze mat (sx, sy) → in_range mat ex ey →
  Z.of_nat (cell_count mat) < sys_maxsize →
  (cell_count mat < fuel)%nat →
  quiet file mat pp canvas w →
  find_shortest_path file fuel w mat (sx, sy) (ex, ey) pp canvas = Some (Ret (None, None))
  ↔ ∀ mds, ¬ route mat (sx, sy) mds (ex, ey).
Proof.
  intros Hsm Her Hsize Hfuel Hquiet.
  pose proof (in_maze_in_range _ _ _ Hsm) as Hsr.
  destruct (find_shortest_path_search file fuel w mat sx sy ex ey pp canvas
              (in_range_nonempty _ _ _ Hsr) Hsr Her Hquiet) as (v & Hv & _ & Hfree & ->).
  destruct (search_terminates mat ex ey fuel (v, [root_cell sx sy])) as [r Hr].
  { unfold measure. cbn [fst snd length]. rewrite Hfree. exact Hfuel. }
  rewrite Hr. pose proof (search_from_the_maze _ _ _ _ _ _ _ _ Hsm Hv Hr) as Hout.
  destruct r as [c|]; cbn [outcome].
  - destruct Hout as [(Hwf & Hdist & _) Hd%at_destination_true].
    rewrite (proj2 (Z.eqb_neq _ _)) by lia. split; [done|].
    intros Hno. destruct (wf_cell_route _ _ _ _ Hwf) as (mds & Hroute & _).
    rewrite Hd in Hroute. by destruct (Hno mds).
  - done.
Qed.

Lemma not_found_exactly_when_unreachable_witness :
  find_shortest_path pathfinding_py 3 plain_world (maze_of ["#."]) (0, 0) (1, 0) false None
  = Some (Ret (None, None))
  ↔ ∀ mds, ¬ route (maze_of ["#."]) (0, 0) mds (1, 0).
Proof.
  apply (not_found_exactly_when_unreachable pathfinding_py 3 plain_world (maze_of ["#."])
           0 0 1 0 false None).
  - vm_compute. eauto.
  - vm_compute. eauto.
  - vm_compute. reflexivity.
  - vm_compute. lia.
  - intros Hpp. discriminate Hpp.
Defined.



(** X4: from a source inside the maze, the returned path never comes back
    to the source and never enters a cell twice. *)
Theorem returned_path_is_simple file fuel w mat s e pp canvas path moves :
  in_maze mat s →
  find_shortest_path file fuel w mat s e pp canvas = Some (Ret (Some path, Some moves)) →
  NoDup (s :: path).
Proof.
  destruct s as [sx sy], e as [ex ey]. intros Hsm Hfsp.
  destruct (find_shortest_path_route _ _ _ _ _ _ _ _ _ _ _ _ Hsm Hfsp)
    as (mds & Hroute & _ & -> & Hmin).
  by eapply shortest_route_simple.
Qed.

Lemma returned_path_is_simple_witness : NoDup [(0, 0); (1, 0); (1, 1)].
Proof.
  apply (returned_path_is_simple pathfinding_py 5 plain_world (maze_of ["S."; "#E"])
           (0, 0) (1, 1) false None [(1, 0); (1, 1)] [Some "Right"; Some "Down"]).
  - vm_compute. eauto.
  - vm_compute. reflexivity.
Defined.

(** ** [print_path] *)

Lemma put_spec {A} (m : list (list A)) x y a b :
  cell_at m x y = Some b → py_setitem2 m y x a = Ret (put m x y a).
Proof.
  intros (Hx & Hy & row & Hrow & Hcell)%cell_at_Some.
  apply py_setitem2_Ret. exists (Z.to_nat y), row, (Z.to_nat x).
  unfold put. rewrite Hrow. split_and!; try done.
  - apply py_norm_nonneg; [done|]. apply lookup_lt_Some in Hrow. lia.
  - apply py_norm_nonneg; [done|]. apply lookup_lt_Some in Hcell. lia.
Qed.

Lemma put_spec_shared {A} ids (m : list (list A)) x y a b :
  NoDup ids → cell_at m x y = Some b → py_setitem2_shared ids m y x a = Ret (put m x y a).
Proof. intros Hnd Hc. rewrite py_setitem2_shared_distinct by done. by eapply put_spec. Qed.

Lemma put_shape {A} (m : list (list A)) x y a : shape (put m x y a) = shape m.
Proof.
  unfold put. destruct (m !! Z.to_nat y) as [row|] eqn:Hrow; [|done].
  by apply shape_insert2.
Qed.

Lemma cell_at_put {A} (m : list (list A)) x y a x' y' :
  is_Some (cell_at m x y) →
  cell_at (put m x y a) x' y' =
  if bool_decide (x' = x ∧ y' = y) then Some a else cell_at m x' y'.
Proof.
  intros [b (Hx & Hy & row & Hrow & Hcell)%cell_at_Some].
  unfold put. rewrite Hrow. unfold cell_at at 1.
  case_bool_decide as Hnn.
  - destruct Hnn as [Hx' Hy'].
    destruct (decide (y' = y)) as [->|Hne].
    + rewrite list_lookup_insert_eq by (by eapply lookup_lt_Some).
      destruct (decide (x' = x)) as [->|Hnx].
      * rewrite list_lookup_insert_eq by (by eapply lookup_lt_Some).
        by rewrite bool_decide_eq_true_2.
      * rewrite list_lookup_insert_ne by lia.
        rewrite bool_decide_eq_false_2 by tauto.
        unfold cell_at. rewrite bool_decide_eq_true_2 by done. by rewrite Hrow.
    + rewrite list_lookup_insert_ne by lia.
      rewrite bool_decide_eq_false_2 by tauto.
      unfold cell_at. by rewrite bool_decide_eq_true_2 by done.
  - rewrite bool_decide_eq_false_2 by lia.
    unfold cell_at. by rewrite bool_decide_eq_false_2.
Qed.

Lemma pair_in_maze_put maze x y a t :
  in_maze maze (x, y) → pair_in_maze maze t → pair_in_maze (put maze x y a) t.
Proof.
  intros Hin (x' & y' & -> & Hin'). exists x', y'. split; [done|].
  unfold in_maze in *. cbn [fst snd] in *. rewrite cell_at_put by done.
  by case_bool_decide.
Qed.

Lemma paint_color_lookup ids path maze :
  NoDup ids → NoDup path → Forall (pair_in_maze maze) path →
  ∃ maze', paint_color ids path maze = Ret maze' ∧
    ∀ x y, cell_at maze' x y =
           (λ c, if bool_decide (T2 x y ∈ path) then color_on +:+ c +:+ color_off else c)
             <$> cell_at maze x y.
Proof.
  intros Hids. revert maze. induction path as [|t path IH]; intros maze Hnd Hall.
  { exists maze. split; [done|]. intros x y. by destruct (cell_at maze x y). }
  apply NoDup_cons in Hnd as [Hnotin Hnd].
  apply Forall_cons in Hall as [(x0 & y0 & -> & [c0 Hc0]) Hall].
  cbn [fst snd] in Hc0. cbn [paint_color unpack2 py_bind].
  rewrite getitem2_at2, (cell_at_at2 _ _ _ _ Hc0).
  rewrite (put_spec_shared _ _ _ _ _ _ Hids Hc0). cbn [py_bind].
  destruct (IH (put maze x0 y0 (color_on +:+ c0 +:+ color_off)) Hnd)
    as (maze' & -> & Hlook).
  { eapply Forall_impl; [exact Hall|]. intros t. apply pair_in_maze_put. by exists c0. }
  exists maze'. split; [done|]. intros x y. rewrite Hlook.
  rewrite cell_at_put by (by exists c0).
  destruct (decide (x = x0 ∧ y = y0)) as [Hxy|Hxy];
    [rewrite (bool_decide_eq_true_2 _ Hxy)|rewrite (bool_decide_eq_false_2 _ Hxy)].
  - destruct Hxy as [-> ->]. rewrite Hc0. cbn.
    rewrite bool_decide_eq_false_2 by done.
    rewrite bool_decide_eq_true_2 by apply list_elem_of_here. done.
  - destruct (cell_at maze x y) as [c|]; [|done]. cbn. f_equal.
    destruct (bool_decide (T2 x y ∈ path)) eqn:Hin.
    + apply bool_decide_eq_true in Hin.
      rewrite bool_decide_eq_true_2; [done|]. by apply elem_of_cons; right.
    + apply bool_decide_eq_false in Hin.
      rewrite bool_decide_eq_false_2; [done|].
      intros [Heq|Hin']%elem_of_cons; [|done]. destruct Hxy. by injection Heq as -> ->.
Qed.

Lemma paint_plain_lookup ids path maze :
  NoDup ids → Forall (pair_in_maze maze) path →
  ∃ maze', paint_plain ids path maze = Ret maze' ∧
    ∀ x y, cell_at maze' x y =
           (λ c, if bool_decide (T2 x y ∈ path) then "@" else c) <$> cell_at maze x y.
Proof.
  intros Hids. revert maze. induction path as [|t path IH]; intros maze Hall.
  { exists maze. split; [done|]. intros x y. by destruct (cell_at maze x y). }
  apply Forall_cons in Hall as [(x0 & y0 & -> & [c0 Hc0]) Hall].
  cbn [fst snd] in Hc0. cbn [paint_plain unpack2 py_bind].
  rewrite (put_spec_shared _ _ _ _ _ _ Hids Hc0). cbn [py_bind].
  destruct (IH (put maze x0 y0 "@")) as (maze' & -> & Hlook).
  { eapply Forall_impl; [exact Hall|]. intros t. apply pair_in_maze_put. by exists c0. }
  exists maze'. split; [done|]. intros x y. rewrite Hlook.
  rewrite cell_at_put by (by exists c0).
  destruct (decide (x = x0 ∧ y = y0)) as [Hxy|Hxy];
    [rewrite (bool_decide_eq_true_2 _ Hxy)|rewrite (bool_decide_eq_false_2 _ Hxy)].
  - destruct Hxy as [-> ->]. rewrite Hc0. cbn.
    rewrite (bool_decide_eq_true_2 (T2 x0 y0 ∈ T2 x0 y0 :: path))
      by apply list_elem_of_here.
    by destruct (bool_decide (T2 x0 y0 ∈ path)).
  - destruct (cell_at maze x y) as [c|]; [|done]. cbn. f_equal.
    destruct (bool_decide (T2 x y ∈ path)) eqn:Hin.
    + apply bool_decide_eq_true in Hin.
      rewrite bool_decide_eq_true_2; [done|]. by apply elem_of_cons; right.
    + apply bool_decide_eq_false in Hin.
      rewrite bool_decide_eq_false_2; [done|].
      intros [Heq|Hin']%elem_of_cons; [|done]. destruct Hxy. by injection Heq as -> ->.
Qed.

Lemma paint_color_shape ids path maze maze' :
  paint_color ids path maze = Ret maze' → shape maze' = shape maze.
Proof.
  revert maze. induction path as [|t path IH]; intros maze Hp.
  { cbn in Hp. by injection Hp as <-. }
  cbn [paint_color] in Hp. destruct (unpack2 t) as [[x y]|]; [|done]. cbn [py_bind] in Hp.
  rewrite getitem2_at2 in Hp. destruct (at2 maze x y) as [c|]; [|done].
  destruct (py_setitem2_shared ids maze y x (color_on +:+ c +:+ color_off))
    as [m1|] eqn:Hm1; [|done].
  cbn [py_bind] in Hp. apply IH in Hp. rewrite Hp.
  by apply py_setitem2_shared_Ret in Hm1 as [-> _].
Qed.

Lemma paint_color_raises ids path (mat maze : Maze) :
  shape maze = shape mat → Forall is_pair path →
  Exists (λ t, ¬ pair_in_range mat t) path →
  paint_color ids path maze = Raise IndexError.
Proof.
  revert maze. induction path as [|t path IH]; intros maze Hs Hpairs Hbad.
  { by apply Exists_nil in Hbad. }
  apply Forall_cons in Hpairs as [(x & y & ->) Hpairs].
  cbn [paint_color unpack2 py_bind]. rewrite getitem2_at2.
  destruct (at2 maze x y) as [c|] eqn:Hc; [|done].
  destruct (py_setitem2_shared_at2 ids maze y x (color_on +:+ c +:+ color_off)
              (mk_is_Some _ _ Hc)) as [m1 Hm1].
  rewrite Hm1. cbn [py_bind]. apply IH; [|done|].
  - by apply py_setitem2_shared_Ret in Hm1 as [-> _].
  - apply Exists_cons in Hbad as [Hbad|Hbad]; [|done]. destruct Hbad.
    exists x, y. split; [done|]. apply (at2_shape maze mat); [done|by eexists].
Qed.

(** X5: on a maze whose rows are distinct list objects, [print_path] with
    colours on wraps the symbol of every cell named in [path] once in the
    colour codes and leaves every other cell as it is, for a path of
    distinct pairs that name cells of the maze; the rows are then printed in
    order. *)
Theorem print_path_colours_the_path ids maze path :
  NoDup ids → NoDup path → Forall (pair_in_maze maze) path →
  ∃ maze',
    print_path ids maze (Some path) true = Ret (map (String.concat "") maze') ∧
    ∀ x y, cell_at maze' x y =
           (λ c, if bool_decide (T2 x y ∈ path) then color_on +:+ c +:+ color_off else c)
             <$> cell_at maze x y.
Proof.
  intros Hids Hnd Hall.
  destruct (paint_color_lookup ids path maze Hids Hnd Hall) as (maze' & Hp & Hlook).
  exists maze'. split; [|done]. unfold print_path.
  destruct path as [|t path]; [cbn in Hp; by injection Hp as <-|].
  by rewrite Hp.
Qed.

Lemma print_path_colours_the_path_witness :
  ∃ maze',
    print_path [0; 1]%nat (maze_of ["S.E"; "..."]) (Some [T2 1 0; T2 2 0]) true
    = Ret (map (String.concat "") maze') ∧
    ∀ x y, cell_at maze' x y =
           (λ c, if bool_decide (T2 x y ∈ [T2 1 0; T2 2 0])
                 then color_on +:+ c +:+ color_off else c)
             <$> cell_at (maze_of ["S.E"; "..."]) x y.
Proof.
  apply (print_path_colours_the_path [0; 1]%nat (maze_of ["S.E"; "..."])
           [T2 1 0; T2 2 0]).
  - apply NoDup_cons. split; [|apply NoDup_singleton].
    intros H%list_elem_of_singleton. discriminate.
  - apply NoDup_cons. split; [|apply NoDup_singleton].
    intros H%list_elem_of_singleton. discriminate.
  - repeat constructor; eexists _, _; (split; [reflexivity|vm_compute; eauto]).
Defined.

(** X6: on a maze whose rows are distinct list objects, [print_path] with
    colours off writes ["@"] over every cell of [path] but the last one and
    leaves every other cell as it is, for a path of pairs that name cells of
    the maze: when the pairs are distinct the last cell of the path, the
    destination, keeps its symbol. *)
Theorem print_path_marks_all_but_the_last ids maze path :
  NoDup ids → Forall (pair_in_maze maze) path →
  ∃ maze',
    print_path ids maze (Some path) false = Ret (map (String.concat "") maze') ∧
    (∀ x y, cell_at maze' x y =
            (λ c, if bool_decide (T2 x y ∈ removelast path) then "@" else c)
              <$> cell_at maze x y) ∧
    (NoDup path → ∀ x y, last path = Some (T2 x y) →
                         cell_at maze' x y = cell_at maze x y).
Proof.
  intros Hids Hall.
  assert (Forall (pair_in_maze maze) (removelast path)) as Hall'.
  { apply Forall_forall. intros t Ht. eapply Forall_forall; [exact Hall|].
    apply list_elem_of_In. apply list_elem_of_In in Ht.
    destruct path as [|t0 path] using rev_ind; [done|].
    rewrite removelast_last in Ht. apply in_or_app. by left. }
  destruct (paint_plain_lookup ids (removelast path) maze Hids Hall')
    as (maze' & Hp & Hlook).
  exists maze'. split_and!; [|done|].
  - unfold print_path. destruct path as [|t path]; [cbn in Hp; by injection Hp as <-|].
    by rewrite Hp.
  - intros Hnd x y Hlast. rewrite Hlook.
    apply last_Some in Hlast as [path' ->]. rewrite removelast_last.
    apply NoDup_app in Hnd as (_ & Hdisj & _).
    rewrite bool_decide_eq_false_2; [by destruct (cell_at maze x y)|].
    intros Hin. apply (Hdisj _ Hin). apply list_elem_of_here.
Qed.

Lemma print_path_marks_all_but_the_last_witness :
  ∃ maze',
    print_path [0; 1]%nat (maze_of ["S.E"; "..."]) (Some [T2 1 0; T2 2 0]) false
    = Ret (map (String.concat "") maze') ∧
    (∀ x y, cell_at maze' x y =
            (λ c, if bool_decide (T2 x y ∈ removelast [T2 1 0; T2 2 0]) then "@" else c)
              <$> cell_at (maze_of ["S.E"; "..."]) x y) ∧
    (NoDup [T2 1 0; T2 2 0] → ∀ x y, last [T2 1 0; T2 2 0] = Some (T2 x y) →
                         cell_at maze' x y = cell_at (maze_of ["S.E"; "..."]) x y).
Proof.
  apply (print_path_marks_all_but_the_last [0; 1]%nat (maze_of ["S.E"; "..."])
           [T2 1 0; T2 2 0]).
  - apply NoDup_cons. split; [|apply NoDup_singleton].
    intros H%list_elem_of_singleton. discriminate.
  - repeat constructor; eexists _, _; (split; [reflexivity|vm_compute; eauto]).
Defined.

(** X7: for a path of pairs, [print_path] with colours on prints one line
    per row of the maze when every pair is a valid subscript pair of the
    maze, and raises [IndexError] when one of them is not, whichever rows of
    the maze are one object. *)
Theorem print_path_raises_out_of_range ids maze path :
  Forall is_pair path →
  (Forall (pair_in_range maze) path →
   ∃ lines, print_path ids maze (Some path) true = Ret lines ∧
            length lines = length maze) ∧
  (Exists (λ t, ¬ pair_in_range maze t) path →
   print_path ids maze (Some path) true = Raise IndexError).
Proof.
  intros Hpairs. split.
  - intros Hall. destruct (paint_color_ok ids path maze maze eq_refl Hall) as [maze' Hp].
    exists (map (String.concat "") maze'). split.
    + unfold print_path. destruct path as [|t path]; [cbn in Hp; by injection Hp as <-|].
      by rewrite Hp.
    + rewrite length_map. apply shape_length. by eapply paint_color_shape.
  - intros Hbad. unfold print_path. destruct path as [|t path].
    { by apply Exists_nil in Hbad. }
    by rewrite (paint_color_raises ids (t :: path) maze maze eq_refl Hpairs Hbad).
Qed.

Lemma print_path_raises_out_of_range_witness :
  print_path [] (maze_of ["S.E"]) (Some [T2 1 0; T2 3 0]) true = Raise IndexError.
Proof.
  apply (print_path_raises_out_of_range [] (maze_of ["S.E"]) [T2 1 0; T2 3 0]).
  - repeat constructor; by eexists _, _.
  - apply Exists_cons. right. apply Exists_cons. left.
    intros (x & y & Heq & [c Hc]). injection Heq as <- <-. vm_compute in Hc. discriminate.
Defined.

(** X8: [main] prints the returned path over the maze it searched, whose
    rows it built as distinct list objects: the call does not raise, and it
    wraps in the colour codes exactly the cells of the path, once each; the
    source cell, which the path leaves out, keeps its symbol. *)
Theorem returned_path_is_printed_in_colour file fuel w mat s e pp canvas path moves :
  in_maze mat s →
  find_shortest_path file fuel w mat s e pp canvas = Some (Ret (Some path, Some moves)) →
  ∃ maze',
    print_path (fresh_rows mat) mat (Some (pair_of <$> path)) true
    = Ret (map (String.concat "") maze') ∧
    (∀ x y, cell_at maze' x y =
            (λ c, if bool_decide ((x, y) ∈ path) then color_on +:+ c +:+ color_off else c)
              <$> cell_at mat x y) ∧
    cell_at maze' s.1 s.2 = cell_at mat s.1 s.2.
Proof.
  destruct s as [sx sy], e as [ex ey]. intros Hsm Hfsp.
  destruct (find_shortest_path_route _ _ _ _ _ _ _ _ _ _ _ _ Hsm Hfsp)
    as (mds & Hroute & _ & -> & Hmin).
  pose proof (shortest_route_simple _ _ _ _ Hroute Hmin) as [Hs Hnd]%NoDup_cons.
  pose proof (walk_points_free _ _ _ _ (proj1 (route_walk _ _ _ _) Hroute)) as Hfree.
  assert (∀ x y (l : list Point), T2 x y ∈ pair_of <$> l ↔ (x, y) ∈ l) as Hmem.
  { intros x y l. rewrite list_elem_of_fmap. split.
    - intros ([x' y'] & [= -> ->] & Hin). done.
    - intros Hin. by exists (x, y). }
  destruct (paint_color_lookup (fresh_rows mat) (pair_of <$> points_along (sx, sy) mds) mat)
    as (maze' & Hp & Hlook).
  { apply NoDup_seq. }
  { apply NoDup_fmap_2; [|done]. intros [x y] [x' y'] [= -> ->]. done. }
  { apply Forall_fmap. eapply Forall_impl; [exact Hfree|].
    intros [x y] Hf. exists x, y. split; [done|]. by apply free_in_maze. }
  assert (∀ x y, cell_at maze' x y =
            (λ c, if bool_decide ((x, y) ∈ points_along (sx, sy) mds)
                  then color_on +:+ c +:+ color_off else c) <$> cell_at mat x y) as Hlook'.
  { intros x y. rewrite Hlook. destruct (cell_at mat x y) as [c|]; [|done]. cbn. f_equal.
    by rewrite (bool_decide_ext _ _ (Hmem x y (points_along (sx, sy) mds))). }
  exists maze'. split_and!; [|done|].
  - unfold print_path. destruct (pair_of <$> points_along (sx, sy) mds) as [|t l].
    + cbn in Hp. by injection Hp as <-.
    + by rewrite Hp.
  - rewrite Hlook'. cbn [fst snd]. rewrite bool_decide_eq_false_2 by done.
    by destruct (cell_at mat sx sy).
Qed.

Lemma returned_path_is_printed_in_colour_witness :
  ∃ maze',
    print_path (fresh_rows (maze_of ["S."; "#E"])) (maze_of ["S."; "#E"])
      (Some (pair_of <$> [(1, 0); (1, 1)])) true
    = Ret (map (String.concat "") maze') ∧
    (∀ x y, cell_at maze' x y =
            (λ c, if bool_decide ((x, y) ∈ [(1, 0); (1, 1)])
                  then color_on +:+ c +:+ color_off else c)
              <$> cell_at (maze_of ["S."; "#E"]) x y) ∧
    cell_at maze' 0 0 = cell_at (maze_of ["S."; "#E"]) 0 0.
Proof.
  apply (returned_path_is_printed_in_colour pathfinding_py 5 plain_world
           (maze_of ["S."; "#E"]) (0, 0) (1, 1) false None [(1, 0); (1, 1)]
           [Some "Right"; Some "Down"]).
  - vm_compute. eauto.
  - vm_compute. reflexivity.
Defined.

(** ** [main] *)

Lemma last_cell_before_hit maze sym x y :
  cell_at maze x y = Some sym → last_cell_before maze sym (x + 1) y (Some (x, y)).
Proof.
  intros Hc. split; [done|]. cbn [fst snd]. unfold before. intros x' y' Hb _. lia.
Qed.

Lemma last_cell_before_miss maze sym x y o :
  cell_at maze x y ≠ Some sym →
  last_cell_before maze sym x y o → last_cell_before maze sym (x + 1) y o.
Proof.
  intros Hc Ho.
  assert (∀ x' y', before (x + 1) y x' y' → cell_at maze x' y' = Some sym →
                   before x y x' y') as Hb.
  { unfold before. intros x' y' Hb Hsym.
    destruct (decide (x' = x ∧ y' = y)) as [[-> ->]|]; [done|lia]. }
  destruct o as [p|]; cbn in *.
  - destruct Ho as [Hp Hlast]. split; [done|]. intros x' y' Hx Hsym. by apply Hlast; [apply Hb|].
  - intros x' y' Hx Hsym. by apply (Ho x' y'); [apply Hb|].
Qed.

Lemma last_cell_before_next_row maze sym x y row o :
  maze !! Z.to_nat y = Some row → 0 ≤ y → (length row ≤ Z.to_nat x)%nat → 0 ≤ x →
  last_cell_before maze sym x y o → last_cell_before maze sym 0 (y + 1) o.
Proof.
  intros Hrow Hy Hlen Hx Ho.
  assert (∀ x' y' a, before 0 (y + 1) x' y' → cell_at maze x' y' = Some a →
                     before x y x' y') as Hb.
  { unfold before. intros x' y' a Hb (Hx' & Hy' & row' & Hrow' & Hcell)%cell_at_Some.
    destruct (decide (y' = y)) as [->|]; [|lia].
    right. split; [done|]. pose proof (eq_trans (eq_sym Hrow) Hrow') as [= <-].
    apply lookup_lt_Some in Hcell. lia. }
  destruct o as [p|]; cbn in *.
  - destruct Ho as [Hp Hlast]. split; [done|]. intros x' y' Hx' Hsym.
    apply Hlast; [|done]. by eapply Hb.
  - intros x' y' Hx' Hsym. apply (Ho x' y'); [|done]. by eapply Hb.
Qed.

Lemma scan_line_spec maze y row :
  maze !! Z.to_nat y = Some row → 0 ≤ y →
  ∀ line x st,
    0 ≤ x → drop (Z.to_nat x) row = line →
    last_cell_before maze START x y st.1 → last_cell_before maze END x y st.2 →
    last_cell_before maze START 0 (y + 1) (scan_line y x line st).1 ∧
    last_cell_before maze END 0 (y + 1) (scan_line y x line st).2.
Proof.
  intros Hrow Hy. induction line as [|cell line IH]; intros x st Hx Hdrop HS HE.
  - apply (f_equal length) in Hdrop. rewrite length_drop in Hdrop. cbn in Hdrop.
    split; eapply last_cell_before_next_row; try done; lia.
  - assert (row !! Z.to_nat x = Some cell) as Hcell.
    { rewrite <- (Nat.add_0_r (Z.to_nat x)), <- lookup_drop, Hdrop. done. }
    assert (cell_at maze x y = Some cell) as Hc.
    { apply cell_at_Some. eauto. }
    cbn [scan_line]. apply IH; [lia| | |].
    + rewrite Z2Nat.inj_add by lia. rewrite Nat.add_comm.
      change (Z.to_nat 1) with 1%nat. cbn [Nat.add].
      rewrite (drop_S _ _ _ Hcell) in Hdrop. by injection Hdrop.
    + case_bool_decide as H1; [|case_bool_decide as H2]; cbn [fst snd].
      * apply last_cell_before_hit. by rewrite Hc, H1.
      * apply last_cell_before_miss; [|done]. rewrite Hc. by intros [= ?].
      * apply last_cell_before_miss; [|done]. rewrite Hc. by intros [= ?].
    + case_bool_decide as H1; [|case_bool_decide as H2]; cbn [fst snd].
      * apply last_cell_before_miss; [|done]. rewrite Hc, H1. done.
      * apply last_cell_before_hit. by rewrite Hc, H2.
      * apply last_cell_before_miss; [|done]. rewrite Hc. by intros [= ?].
Qed.

Lemma scan_maze_spec maze :
  ∀ rest y st,
    0 ≤ y → drop (Z.to_nat y) maze = rest →
    last_cell_before maze START 0 y st.1 → last_cell_before maze END 0 y st.2 →
    last_cell_with maze START (scan_maze y rest st).1 ∧
    last_cell_with maze END (scan_maze y rest st).2.
Proof.
  assert (∀ sym y o, (length maze ≤ Z.to_nat y)%nat → 0 ≤ y →
            last_cell_before maze sym 0 y o → last_cell_with maze sym o) as Hend.
  { intros sym y o Hlen Hy Ho.
    assert (∀ x' y' a, cell_at maze x' y' = Some a → before 0 y x' y') as Hb.
    { intros x' y' a (Hx' & Hy' & row' & Hrow' & Hcell)%cell_at_Some.
      apply lookup_lt_Some in Hrow'. left. lia. }
    destruct o as [p|]; cbn in *.
    - destruct Ho as [Hp Hlast]. split; [done|]. intros x' y' Hsym.
      apply Hlast; [|done]. by eapply Hb.
    - intros x' y' Hsym. apply (Ho x' y'); [|done]. by eapply Hb. }
  induction rest as [|line rest IH]; intros y st Hy Hdrop HS HE.
  - apply (f_equal length) in Hdrop. rewrite length_drop in Hdrop. cbn in Hdrop.
    cbn [scan_maze]. split; eapply (Hend _ y); try done; lia.
  - assert (maze !! Z.to_nat y = Some line) as Hline.
    { rewrite <- (Nat.add_0_r (Z.to_nat y)), <- lookup_drop, Hdrop. done. }
    cbn [scan_maze].
    destruct (scan_line_spec maze y line Hline Hy line 0 st) as [HS' HE']; try done.
    apply IH; [lia| |done|done].
    rewrite Z2Nat.inj_add by lia. rewrite Nat.add_comm.
    change (Z.to_nat 1) with 1%nat. cbn [Nat.add].
    rewrite (drop_S _ _ _ Hline) in Hdrop. by injection Hdrop.
Qed.

Lemma find_points_spec maze :
  last_cell_with maze START (find_points maze).1 ∧
  last_cell_with maze END (find_points maze).2.
Proof.
  apply scan_maze_spec; [done|done| |];
    intros x y Hb (Hx & Hy & _)%cell_at_Some; unfold before in Hb; lia.
Qed.

Lemma route_nil_inv mat s p : route mat s [] p → p = s.
Proof.
  inversion 1 as [|mds p' md _ _ _ Heq]; [done|]. by destruct mds.
Qed.

(** X9: the two loops of [main] leave in [start_point] the last cell in
    reading order that holds the start symbol, and [None] when no cell holds
    it; the same for [end_point] and the end symbol.  A point that is found
    is therefore a cell of the maze. *)
Theorem main_finds_the_last_marks maze :
  last_cell_with maze START (find_points maze).1 ∧
  last_cell_with maze END (find_points maze).2.
Proof.
  unfold find_points.
  apply scan_maze_spec; [done|done| |];
    intros x y Hb (Hx & Hy & _)%cell_at_Some; unfold before in Hb; lia.
Qed.

(** X10: [main] starts the search from the points it found, with the
    progress report on and its canvas.  In a calm world, where the window is
    open and is not closed while the search runs, and the maze is one
    [gui_update] can draw, the search does not raise, on a maze of fewer
    than [sys.maxsize] cells: either no sequence of moves leads from the start
    to the end cell and the call returns [(None, None)], or the call returns
    a non-empty path, that of a route from the start to the end cell.  So
    [main] then reports that no path was found exactly when the end cell
    cannot be reached. *)
Theorem main_search_outcome file fuel w maze s e cv :
  find_points maze = (Some s, Some e) →
  Z.of_nat (cell_count maze) < sys_maxsize →
  (cell_count maze < fuel)%nat →
  calm file maze w = true →
  (find_shortest_path file fuel w maze s e true (Some cv) = Some (Ret (None, None)) ∧
   ∀ mds, ¬ route maze s mds e) ∨
  (∃ path moves mds,
     find_shortest_path file fuel w maze s e true (Some cv)
     = Some (Ret (Some path, Some moves)) ∧
     path ≠ [] ∧ route maze s mds e ∧
     moves = name_of <$> mds ∧ path = points_along s mds).
Proof.
  destruct s as [sx sy], e as [ex ey]. intros Hpts Hsize Hfuel Hcalm.
  destruct (find_points_spec maze) as [HS HE]. rewrite Hpts in HS, HE.
  destruct HS as [HS _], HE as [HE _]. cbn [fst snd] in HS, HE.
  assert (in_maze maze (sx, sy)) as Hsm by (by exists START).
  assert (in_range maze ex ey) as Her.
  { apply in_maze_in_range. by exists END. }
  pose proof (in_maze_in_range _ _ _ Hsm) as Hsr.
  destruct (find_shortest_path_search file fuel w maze sx sy ex ey true (Some cv)
              (in_range_nonempty _ _ _ Hsr) Hsr Her (λ _ _, Hcalm))
    as (v & Hv & _ & Hfree & ->).
  destruct (search_terminates maze ex ey fuel (v, [root_cell sx sy])) as [r Hr].
  { unfold measure. cbn [fst snd length]. rewrite Hfree. exact Hfuel. }
  rewrite Hr. pose proof (search_from_the_maze _ _ _ _ _ _ _ _ Hsm Hv Hr) as Hout.
  destruct r as [c|]; cbn [outcome].
  - right. destruct Hout as [(Hwf & Hdist & _) Hd%at_destination_true].
    rewrite (proj2 (Z.eqb_neq _ _)) by lia.
    destruct (wf_cell_points _ _ _ _ Hwf) as (mds & Hroute & Hnames & Hpath).
    rewrite Hd in Hroute. eexists _, _, mds. split_and!; try done.
    rewrite Hpath. intros Hnil. apply (f_equal length) in Hnil.
    rewrite points_along_length in Hnil. destruct mds; [|done].
    apply route_nil_inv in Hroute. injection Hroute as -> ->.
    pose proof (eq_trans (eq_sym HS) HE) as [= ?].
  - by left.
Qed.

Lemma main_search_outcome_witness :
  (find_shortest_path Boi_pathfinding_py 7 open_window (maze_of_text "S.# .E.")
     (0, 0) (1, 1) true (Some (SurfaceHandle 1024 1024))
   = Some (Ret (None, None)) ∧
   ∀ mds, ¬ route (maze_of_text "S.# .E.") (0, 0) mds (1, 1)) ∨
  (∃ path moves mds,
     find_shortest_path Boi_pathfinding_py 7 open_window (maze_of_text "S.# .E.")
       (0, 0) (1, 1) true (Some (SurfaceHandle 1024 1024))
     = Some (Ret (Some path, Some moves)) ∧
     path ≠ [] ∧ route (maze_of_text "S.# .E.") (0, 0) mds (1, 1) ∧
     moves = name_of <$> mds ∧ path = points_along (0, 0) mds).
Proof.
  apply (main_search_outcome Boi_pathfinding_py 7 open_window (maze_of_text "S.# .E.")
           (0, 0) (1, 1) (SurfaceHandle 1024 1024)).
  - vm_compute. reflexivity.
  - vm_compute. reflexivity.
  - vm_compute. lia.
  - vm_compute. reflexivity.
Defined.

Lemma py_split_cons sep s : ∃ w ws, py_split sep s = w :: ws.
Proof.
  destruct s as [|c s]; cbn; [by eexists _, _|].
  destruct (Ascii.eqb c sep); [by eexists _, _|].
  destruct (py_split sep s); by eexists _, _.
Qed.

Lemma py_split_concat sep s :
  String.concat (String sep EmptyString) (py_split sep s) = s.
Proof.
  induction s as [|c s IH]; [done|]. cbn [py_split].
  destruct (py_split_cons sep s) as (w & ws & Hw). rewrite Hw in IH |- *.
  destruct (Ascii.eqb c sep) eqn:Hc.
  - apply Ascii.eqb_eq in Hc as ->. cbn. cbn in IH. by rewrite IH.
  - destruct ws; cbn in *; by rewrite <- IH.
Qed.

Lemma py_split_pieces sep s :
  Forall (λ w, sep ∉ String.list_ascii_of_string w) (py_split sep s).
Proof.
  induction s as [|c s IH].
  { cbn. constructor; [|done]. cbn. apply not_elem_of_nil. }
  cbn [py_split]. destruct (py_split_cons sep s) as (w & ws & Hw). rewrite Hw in IH |- *.
  apply Forall_cons in IH as [Hw' Hws].
  destruct (Ascii.eqb c sep) eqn:Hc.
  - constructor; [cbn; apply not_elem_of_nil|by constructor].
  - apply Ascii.eqb_neq in Hc. constructor; [|done]. cbn.
    intros [->|Hin]%elem_of_cons; done.
Qed.

Lemma concat_cells r :
  String.concat "" (map (λ a, String a EmptyString) (String.list_ascii_of_string r)) = r.
Proof.
  induction r as [|a r IH]; [done|]. cbn [String.list_ascii_of_string map].
  destruct r as [|b r]; [done|]. cbn in *. by rewrite IH.
Qed.

Lemma maze_of_lines rows : map (String.concat "") (maze_of rows) = rows.
Proof.
  unfold maze_of. induction rows as [|r rows IH]; [done|].
  cbn [map]. by rewrite concat_cells, IH.
Qed.

Lemma py_lstrip_empty s :
  py_lstrip s = EmptyString ↔ ∀ c, c ∈ String.list_ascii_of_string s → py_isspace c = true.
Proof.
  induction s as [|a s IH]; cbn.
  - split; [|done]. by intros _ c ?%elem_of_nil.
  - destruct (py_isspace a) eqn:Ha.
    + rewrite IH. split.
      * intros H c [->|Hin]%elem_of_cons; [done|by apply H].
      * intros H c Hin. apply H. by apply elem_of_cons; right.
    + split; [done|]. intros H. rewrite (H a) in Ha; [done|]. apply list_elem_of_here.
Qed.

Lemma py_lstrip_head s c r : py_lstrip s = String c r → py_isspace c = false.
Proof.
  induction s as [|a s IH]; cbn; [done|].
  destruct (py_isspace a) eqn:Ha; [done|]. by intros [= <- _].
Qed.

Lemma py_rstrip_head c s :
  py_isspace c = false → py_rstrip (String c s) = String c (py_rstrip s).
Proof. intros Hc. cbn. rewrite Hc. by destruct (py_rstrip s). Qed.

(** X11: [main] builds a maze with at least one row; the first row is
    empty exactly when the file holds nothing but white space, and it is
    then the only row. *)
Theorem maze_of_text_first_row text :
  ∃ row rest,
    maze_of_text text = row :: rest ∧
    (row = [] ↔ ∀ c, c ∈ String.list_ascii_of_string text → py_isspace c = true) ∧
    (row = [] → rest = []).
Proof.
  pose proof (py_lstrip_empty text) as Hblank.
  unfold maze_of_text, py_strip.
  destruct (py_lstrip text) as [|c r] eqn:Hl.
  - exists [], []. split_and!; [done| |done]. by rewrite <- Hblank.
  - pose proof (py_lstrip_head _ _ _ Hl) as Hc. rewrite (py_rstrip_head _ _ Hc).
    cbn [py_split].
    assert (Ascii.eqb c row_separator = false) as ->.
    { apply Ascii.eqb_neq. by intros ->. }
    destruct (py_split_cons row_separator (py_rstrip r)) as (w & ws & ->).
    eexists _, _. split; [reflexivity|]. rewrite <- Hblank. cbn. done.
Qed.

(** X12: the first [print_path] call of [main] shows the maze as it stands
    in the file, one row per line: no line holds a space, and the lines
    joined by spaces give the stripped text of the file back. *)
Theorem maze_is_printed_as_read ids text color :
  ∃ lines,
    print_path ids (maze_of_text text) None color = Ret lines ∧
    length lines = length (maze_of_text text) ∧
    Forall (λ line, row_separator ∉ String.list_ascii_of_string line) lines ∧
    String.concat (String row_separator EmptyString) lines = py_strip text.
Proof.
  exists (py_split row_separator (py_strip text)). unfold maze_of_text. split_and!.
  - unfold print_path. cbn [py_bind]. by rewrite maze_of_lines.
  - unfold maze_of. by rewrite length_map.
  - apply py_split_pieces.
  - apply py_split_concat.
Qed.

(** ** [gui_handle_events] *)

Lemma for_events_waiting events :
  let st := for_events events (EvLocals true 1 true) in
  run st = negb (bool_decide (QUIT ∈ events)) ∧
  (loop st ≤ 0 ↔ ends_wait events) ∧
  (¬ ends_wait events → st = EvLocals true 1 true).
Proof.
  unfold ends_wait. induction events as [|ev events (IHrun & IHloop & IHsame)].
  { cbn. split_and!; [done| |done]. split; [lia|]. by intros [?%elem_of_nil|?%elem_of_nil]. }
  destruct ev as [|[]|]; cbn [for_events wait_left_click andb run loop].
  - split_and!.
    + by rewrite bool_decide_eq_true_2 by apply list_elem_of_here.
    + split; [|done]. intros _. left. apply list_elem_of_here.
    + intros []. left. apply list_elem_of_here.
  - rewrite for_events_not_waiting. split_and!.
    + rewrite QUIT_later by done. by case_bool_decide.
    + split; [|by case_bool_decide]. intros _. right. apply list_elem_of_here.
    + intros []. right. apply list_elem_of_here.
  - rewrite QUIT_later by done.
    split_and!; [done| |].
    + rewrite IHloop, !elem_of_cons. intuition discriminate.
    + intros Hno. apply IHsame. rewrite !elem_of_cons in Hno. tauto.
  - rewrite QUIT_later by done.
    split_and!; [done| |].
    + rewrite IHloop, !elem_of_cons. intuition discriminate.
    + intros Hno. apply IHsame. rewrite !elem_of_cons in Hno. tauto.
Qed.

(** X13: a call that waits for nothing asks for the events once and
    returns: [False] when the window was closed in that batch, [True]
    otherwise, whatever else the batch holds. *)
Theorem events_are_handled_once events batches :
  gui_handle_events false (events :: batches)
  = Some (negb (bool_decide (QUIT ∈ events)), batches).
Proof.
  unfold gui_handle_events. change (0 + Z.b2z false) with 0. cbn [while_events].
  rewrite for_events_not_waiting. by destruct (bool_decide (QUIT ∈ events)).
Qed.

(** X14: a call that waits for a left click returns after the first batch
    of events that holds a [QUIT] or a [MOUSEBUTTONDOWN] with the left button
    pressed; the batches before it are asked for and dropped.  It returns
    [False] exactly when that batch holds a [QUIT], before or after the
    click. *)
Theorem left_click_is_awaited batches r rest :
  gui_handle_events true batches = Some (r, rest) ↔
  ∃ dropped events,
    batches = dropped ++ events :: rest ∧
    Forall (λ b, ¬ ends_wait b) dropped ∧ ends_wait events ∧
    r = negb (bool_decide (QUIT ∈ events)).
Proof.
  unfold gui_handle_events. change (0 + Z.b2z true) with 1.
  induction batches as [|b batches IH]; cbn [while_events].
  { split; [done|]. intros (dropped & events & Heq & _). by destruct dropped. }
  destruct (for_events_waiting b) as (Hrun & Hloop & Hsame).
  destruct (decide (loop (for_events b (EvLocals true 1 true)) ≤ 0)) as [Hl|Hl];
    [rewrite (bool_decide_eq_true_2 _ Hl)|rewrite (bool_decide_eq_false_2 _ Hl)].
  - rewrite Hrun. apply Hloop in Hl. split.
    + intros [= <- <-]. exists [], b. done.
    + intros ([|b' dropped] & events & Heq & Hdropped & Hends & ->).
      * by injection Heq as -> ->.
      * injection Heq as -> _. apply Forall_cons in Hdropped as [Hno _]. by destruct Hno.
  - rewrite Hsame by (by rewrite <- Hloop). rewrite IH. split.
    + intros (dropped & events & -> & Hdropped & Hends & ->).
      exists (b :: dropped), events. split_and!; try done.
      constructor; [by rewrite <- Hloop|done].
    + intros ([|b' dropped] & events & Heq & Hdropped & Hends & ->).
      * injection Heq as -> ->. by apply Hloop in Hends.
      * injection Heq as -> ->. apply Forall_cons in Hdropped as [_ Hdropped].
        by exists dropped, events.
Qed.

Lemma left_click_is_awaited_witness :
  gui_handle_events true [[OTHER_EVENT]; [MOUSEBUTTONDOWN true; OTHER_EVENT]; []]
  = Some (true, [[]]) ↔
  ∃ dropped events,
    [[OTHER_EVENT]; [MOUSEBUTTONDOWN true; OTHER_EVENT]; []] = dropped ++ events :: [[]] ∧
    Forall (λ b, ¬ ends_wait b) dropped ∧ ends_wait events ∧
    true = negb (bool_decide (QUIT ∈ events)).
Proof.
  apply (left_click_is_awaited [[OTHER_EVENT]; [MOUSEBUTTONDOWN true; OTHER_EVENT]; []]
           true [[]]).
Defined.

(** ** [gui_update] *)

Lemma unknown_cell_color c :
  known_cell c = false → py_dict_getitem color_map c = Raise KeyError.
Proof.
  unfold known_cell. intros H%bool_decide_eq_false. cbn in H.
  rewrite !not_elem_of_cons in H. destruct H as (H1 & H2 & H3 & H4 & _).
  cbn. rewrite !bool_decide_eq_false_2; done.
Qed.

Lemma draw_row_unknown cell_w cell_h y x row :
  forallb known_cell row = false → draw_row cell_w cell_h y x row = Raise KeyError.
Proof.
  revert x. induction row as [|c row IH]; intros x Hall; [done|].
  cbn in Hall. cbn [draw_row]. destruct (known_cell c) eqn:Hc.
  - destruct (known_cell_color c Hc) as [color ->]. cbn [py_bind].
    by rewrite IH.
  - by rewrite unknown_cell_color.
Qed.

Lemma draw_maze_unknown cell_w cell_h y maze :
  drawable maze = false → draw_maze cell_w cell_h y maze = Raise KeyError.
Proof.
  unfold drawable. revert y. induction maze as [|row maze IH]; intros y Hall; [done|].
  cbn in Hall. cbn [draw_maze]. destruct (forallb known_cell row) eqn:Hrow.
  - destruct (draw_row_ok cell_w cell_h y 0 row Hrow) as [es ->]. cbn [py_bind].
    by rewrite IH.
  - by rewrite draw_row_unknown.
Qed.

(** X15: what a call of [gui_update] does, for a [path] of triples.  It
    raises [pygame.error] when the display is closed; with an open display
    it raises [IndexError] on an empty maze, [ZeroDivisionError] on a maze
    whose first row is empty, and [KeyError] when it draws the cells and one
    of them is not a key of [color_map]; otherwise it returns.  It then
    answers [False] exactly when the events it handled hold a [QUIT], after
    which the display is closed, so that the next call raises; and in
    [pathfinding.py] the cells are not drawn a second time. *)
Theorem gui_update_outcome file cv maze path final_path grid w :
  path_of_triples file path →
  let r := gui_update file cv maze path final_path grid w in
  (display_open w = false → r = Raise PygameError) ∧
  (display_open w = true → maze = [] → r = Raise IndexError) ∧
  (display_open w = true → (∃ rest, maze = [] :: rest) → r = Raise ZeroDivisionError) ∧
  (display_open w = true → (∃ c row rest, maze = (c :: row) :: rest) →
   draws_cells file w = true → drawable maze = false → r = Raise KeyError) ∧
  (display_open w = true → (∃ c row rest, maze = (c :: row) :: rest) →
   (draws_cells file w = true → drawable maze = true) →
   ∃ run es w',
     r = Ret (run, es, w') ∧
     run = negb (bool_decide (QUIT ∈ next_events w)) ∧
     display_open w' = run ∧ pending w' = tail (pending w) ∧
     draws_cells file w' = match file with
                           | pathfinding_py => false
                           | Boi_pathfinding_py => true
                           end ∧
     row_ids w' = row_ids w).
Proof.
  intros Hpath r. subst r. unfold gui_update. split_and!.
  - by intros ->.
  - intros -> ->. by destruct cv.
  - intros -> [rest ->]. by destruct cv.
  - intros -> (c & row & rest & ->) Hdraws Hbad. destruct cv as [gui_w gui_h].
    assert (py_getitem ((c :: row) :: rest) 0 = Ret (c :: row)) as ->.
    { unfold py_getitem, py_norm. rewrite bool_decide_eq_true_2; [done|]. cbn. lia. }
    cbn [py_bind]. unfold py_floordiv.
    assert ((len ((c :: row) :: rest) =? 0) = false) as ->
      by (apply Z.eqb_neq; unfold len; cbn; lia).
    assert ((len (c :: row) =? 0) = false) as ->
      by (apply Z.eqb_neq; unfold len; cbn; lia).
    cbn [py_bind]. destruct file; cbn in Hdraws.
    + apply negb_true_iff in Hdraws. rewrite Hdraws. by rewrite draw_maze_unknown.
    + by rewrite draw_maze_unknown.
  - intros Hopen (c & row & rest & ->) Hdraw. rewrite Hopen. destruct cv as [gui_w gui_h].
    assert (py_getitem ((c :: row) :: rest) 0 = Ret (c :: row)) as ->.
    { unfold py_getitem, py_norm. rewrite bool_decide_eq_true_2; [done|]. cbn. lia. }
    cbn [py_bind]. unfold py_floordiv.
    assert ((len ((c :: row) :: rest) =? 0) = false) as ->
      by (apply Z.eqb_neq; unfold len; cbn; lia).
    assert ((len (c :: row) =? 0) = false) as ->
      by (apply Z.eqb_neq; unfold len; cbn; lia).
    cbn [py_bind].
    destruct (draw_path_ok file path Hpath) as [polygons Hpolygons].
    assert (∀ w0, display_open w0 = true → pending w0 = pending w →
              ∃ run quit w',
                handle_pending_events w0 = (run, quit, w') ∧
                run = negb (bool_decide (QUIT ∈ next_events w)) ∧
                display_open w' = run ∧ pending w' = tail (pending w) ∧
                maze_already_drawn w' = maze_already_drawn w0 ∧
                row_ids w' = row_ids w0) as Hevents.
    { intros w0 Hopen0 Hpending. unfold handle_pending_events.
      rewrite gui_handle_events_once, Hpending. unfold next_events.
      destruct (bool_decide (QUIT ∈ match pending w with [] => [] | e :: _ => e end));
        cbn [negb]; eexists _, _, _; (split; [done|]); by split_and!. }
    destruct file; cbn [draws_cells] in Hdraw.
    + destruct (maze_already_drawn w) eqn:Hdrawn.
      * cbn [py_bind]. rewrite Hpolygons. cbn [py_bind].
        destruct (Hevents w Hopen eq_refl) as (run & quit & w' & -> & -> & Ho & Hp & Hd & Hi).
        eexists _, _, _. split; [done|]. split_and!; try done; cbn; by rewrite Hd, Hdrawn.
      * destruct (draw_maze_ok (gui_w / len (c :: row)) (gui_h / len ((c :: row) :: rest))
                    0 _ (Hdraw eq_refl)) as [es ->].
        cbn [py_bind]. rewrite Hpolygons. cbn [py_bind].
        destruct (Hevents (set_maze_already_drawn true w) Hopen eq_refl)
          as (run & quit & w' & -> & -> & Ho & Hp & Hd & Hi).
        eexists _, _, _. split; [done|]. split_and!; try done; cbn; by rewrite Hd.
    + destruct (draw_maze_ok (gui_w / len (c :: row)) (gui_h / len ((c :: row) :: rest))
                  0 _ (Hdraw eq_refl)) as [es ->].
      cbn [py_bind]. rewrite Hpolygons. cbn [py_bind].
      destruct (Hevents w Hopen eq_refl) as (run & quit & w' & -> & -> & Ho & Hp & Hd & Hi).
      eexists _, _, _. split; [done|]. by split_and!.
Qed.

Lemma gui_update_outcome_witness :
  gui_update pathfinding_py (SurfaceHandle 1024 1024) (maze_of ["SxE"]) (Some (0, 0, None))
    None false open_window
  = Raise KeyError.
Proof.
  apply (gui_update_outcome pathfinding_py (SurfaceHandle 1024 1024) (maze_of ["SxE"])
           (Some (0, 0, None)) None false open_window I).
  - reflexivity.
  - by eexists _, _, _.
  - reflexivity.
  - reflexivity.
Defined.

(** X16: a search with the progress report on a canvas whose display is
    closed raises [pygame.error] at the first cell it dequeues, whatever the
    maze: so does the search of [main] when the window was closed instead of
    clicked, since [main] drops what [gui_handle_events] returned. *)
Theorem search_in_a_closed_window file fuel w mat sx sy ex ey cv :
  in_range mat sx sy → in_range mat ex ey → display_open w = false →
  find_shortest_path file (S fuel) w mat (sx, sy) (ex, ey) true (Some cv)
  = Some (Raise PygameError).
Proof.
  intros Hs He Hclosed.
  destruct (find_shortest_path_in_range file (S fuel) w mat sx sy ex ey true (Some cv)
              (in_range_nonempty _ _ _ Hs) Hs He) as (v & _ & _ & _ & ->).
  cbn [while_q initial_locals q]. unfold loop_body, report_progress.
  destruct file; unfold gui_update;
    cbn [env initial_locals set_all_paths set_cell set_q]; by rewrite Hclosed.
Qed.

Lemma search_in_a_closed_window_witness :
  find_shortest_path Boi_pathfinding_py 1 plain_world (maze_of ["SE"]) (0, 0) (1, 0)
    true (Some (SurfaceHandle 1024 1024))
  = Some (Raise PygameError).
Proof.
  apply (search_in_a_closed_window Boi_pathfinding_py 0 plain_world (maze_of ["SE"])
           0 0 1 0 (SurfaceHandle 1024 1024)).
  - vm_compute. eauto.
  - vm_compute. eauto.
  - reflexivity.
Defined.
